(** * SampleUtil: sample buffer arithmetic of the audio engine

    A shallow embedding of [src/util/sample.cpp].

    - A [CSAMPLE] is an IEEE 754 single precision number.  It is embedded as a
      [spec_float] with the binary32 parameters (24 bits of precision, largest
      exponent 128), so every operation rounds as the hardware does.
    - [SINT] and [int] are embedded as [Z]; their division truncates
      ([Z.quot]).  Index arithmetic is assumed not to overflow.
    - A buffer is a list of samples.  A read or a write outside of the buffer
      is undefined behaviour in the source; here it yields [None], as do an
      integer division by zero, a shift by more than the width of [int] and a
      conversion to [SAMPLE] of a float that is no 16 bit integer.  A division
      of floats by zero is not an error: it gives an infinity or a NaN.
    - A function that writes to a buffer takes the buffer and returns the
      buffer written.  Buffers that the source declares restricted are
      distinct lists.
    - The debug assertions of the source are not part of the functions; where
      a property depends on them they are hypotheses. *)

From Stdlib Require Import ZArith Bool Lia.
From Stdlib Require Import Floats.SpecFloat.
From stdpp Require Import base numbers option list.

Local Open Scope Z_scope.

(** ** Single precision arithmetic *)

Module F32.

Definition prec : Z := 24.
Definition emax : Z := 128.

Definition t : Type := spec_float.

Definition add : t → t → t := SFadd prec emax.
Definition sub : t → t → t := SFsub prec emax.
Definition mul : t → t → t := SFmul prec emax.
Definition div : t → t → t := SFdiv prec emax.
Definition abs : t → t := SFabs.
Definition eqb : t → t → bool := SFeqb.
Definition ltb : t → t → bool := SFltb.

(** Conversion of an integer, rounding to nearest even. *)
Definition of_Z (z : Z) : t := binary_normalize prec emax z 0 false.

(** Conversion to an integer truncates towards zero; it has no value for an
    infinity or a NaN. *)
Definition trunc (x : t) : option Z :=
  match x with
  | S754_zero _ => Some 0
  | S754_finite s m (Zneg p) => Some (cond_Zopp s (Z.shiftr (Zpos m) (Zpos p)))
  | S754_finite s m e => Some (cond_Zopp s (Z.shiftl (Zpos m) e))
  | S754_infinity _ | S754_nan => None
  end.

(** The value is one that a binary32 register can hold. *)
Definition valid (x : t) : bool := valid_binary prec emax x.

Definition is_nan (x : t) : bool :=
  match x with S754_nan => true | _ => false end.

(** Neither an infinity nor a NaN. *)
Definition is_finite (x : t) : bool :=
  match x with S754_zero _ | S754_finite _ _ _ => true | _ => false end.

End F32.

Declare Scope f32_scope.
Delimit Scope f32_scope with f32.
Infix "+" := F32.add : f32_scope.
Infix "-" := F32.sub : f32_scope.
Infix "*" := F32.mul : f32_scope.
Infix "/" := F32.div : f32_scope.
Infix "==" := F32.eqb (at level 70, no associativity) : f32_scope.
Notation "x != y" := (negb (F32.eqb x y)) (at level 70, no associativity) : f32_scope.
Notation "x > y" := (F32.ltb y x) : f32_scope.
Notation "x < y" := (F32.ltb x y) : f32_scope.

(** ** Types and constants of [util/types.h] *)

Abbreviation SINT := Z (only parsing).
Abbreviation SAMPLE := Z (only parsing).
Abbreviation CSAMPLE := F32.t (only parsing).
Abbreviation CSAMPLE_GAIN := F32.t (only parsing).

(** Modelled from the spec: the constants of [util/types.h], which is not part
    of the sources at hand.  The gains "one" and "zero" are the floats 1.0 and
    0.0; the fixed-point samples are 16 bits wide, from -32768 to 32767. *)
Definition CSAMPLE_ZERO : CSAMPLE := S754_zero false.
Definition CSAMPLE_GAIN_ZERO : CSAMPLE_GAIN := S754_zero false.
Definition CSAMPLE_GAIN_ONE : CSAMPLE_GAIN := Eval cbv in F32.of_Z 1.
Definition SAMPLE_MINIMUM : SAMPLE := -32768.
Definition SAMPLE_MAXIMUM : SAMPLE := 32767.

(** ** Buffers and loops *)

(** [p[i]] as an rvalue. *)
Definition load {A} (p : list A) (i : Z) : option A :=
  if decide (0 ≤ i) then p !! Z.to_nat i else None.

(** [p[i] = v]. *)
Definition store {A} (p : list A) (i : Z) (v : A) : option (list A) :=
  if decide (0 ≤ i < Z.of_nat (length p)) then Some (<[Z.to_nat i := v]> p) else None.

(** [p[i] op= ...], as [p[i] = f (p[i])]. *)
Definition update {A} (p : list A) (i : Z) (f : A → A) : option (list A) :=
  x ← load p i; store p i (f x).

(** [count] iterations of [body], the index counting up from [i]. *)
Fixpoint for_range {S} (count : nat) (i : Z) (body : Z → S → option S) (s : S)
  : option S :=
  match count with
  | O => Some s
  | S count' => s' ← body i s; for_range count' (i + 1) body s'
  end.

(** [for (i = lo; i < hi; ++i) body]. *)
Definition for_loop {S} (lo hi : Z) (body : Z → S → option S) (s : S) : option S :=
  for_range (Z.to_nat (hi - lo)) lo body s.

(** ** Helpers of [util/sample.h] *)

(** Modelled from the spec: [SampleUtil::clear] is declared in
    [util/sample.h], which is not part of the sources at hand.  It sets the
    first [numSamples] samples of the buffer to zero. *)
Definition clear (pBuffer : list CSAMPLE) (numSamples : SINT) : option (list CSAMPLE) :=
  for_loop 0 numSamples (λ i p, store p i CSAMPLE_ZERO) pBuffer.

(** Modelled from the spec: [SampleUtil::copy] is declared in
    [util/sample.h], which is not part of the sources at hand.  It copies the
    first [numSamples] samples of the source to the destination. *)
Definition copy (pDest pSrc : list CSAMPLE) (numSamples : SINT) : option (list CSAMPLE) :=
  for_loop 0 numSamples (λ i p, x ← load pSrc i; store p i x) pDest.

(** ** Gain *)

Definition applyGain (pBuffer : list CSAMPLE) (gain : CSAMPLE_GAIN) (numSamples : SINT)
  : option (list CSAMPLE) :=
  if (gain == CSAMPLE_GAIN_ONE)%f32 then Some pBuffer
  else if (gain == CSAMPLE_GAIN_ZERO)%f32 then clear pBuffer numSamples
  else for_loop 0 numSamples (λ i p, update p i (λ x, x * gain)%f32) pBuffer.

Definition applyRampingGain (pBuffer : list CSAMPLE) (old_gain new_gain : CSAMPLE_GAIN)
    (numSamples : SINT) : option (list CSAMPLE) :=
  if (old_gain == CSAMPLE_GAIN_ONE)%f32 && (new_gain == CSAMPLE_GAIN_ONE)%f32 then
    Some pBuffer
  else if (old_gain == CSAMPLE_GAIN_ZERO)%f32 && (new_gain == CSAMPLE_GAIN_ZERO)%f32 then
    clear pBuffer numSamples
  else
    let gain_delta := ((new_gain - old_gain) / F32.of_Z (numSamples ÷ 2))%f32 in
    if (gain_delta != F32.of_Z 0)%f32 then
      let start_gain := (old_gain + gain_delta)%f32 in
      for_loop 0 (numSamples ÷ 2) (λ i p,
        let gain := (start_gain + gain_delta * F32.of_Z i)%f32 in
        p ← update p (i * 2) (λ x, x * gain)%f32;
        update p (i * 2 + 1) (λ x, x * gain)%f32) pBuffer
    else
      for_loop 0 numSamples (λ i p, update p i (λ x, x * old_gain)%f32) pBuffer.

Definition addWithRampingGain (pDest pSrc : list CSAMPLE) (old_gain new_gain : CSAMPLE_GAIN)
    (numSamples : SINT) : option (list CSAMPLE) :=
  if (old_gain == CSAMPLE_GAIN_ZERO)%f32 && (new_gain == CSAMPLE_GAIN_ZERO)%f32 then
    Some pDest
  else
    let gain_delta := ((new_gain - old_gain) / F32.of_Z (numSamples ÷ 2))%f32 in
    if (gain_delta != F32.of_Z 0)%f32 then
      let start_gain := (old_gain + gain_delta)%f32 in
      for_loop 0 (numSamples ÷ 2) (λ i p,
        let gain := (start_gain + gain_delta * F32.of_Z i)%f32 in
        s0 ← load pSrc (i * 2);
        p ← update p (i * 2) (λ x, x + s0 * gain)%f32;
        s1 ← load pSrc (i * 2 + 1);
        update p (i * 2 + 1) (λ x, x + s1 * gain)%f32) pDest
    else
      for_loop 0 numSamples (λ i p,
        s ← load pSrc i; update p i (λ x, x + s * old_gain)%f32) pDest.

Definition copyWithRampingGain (pDest pSrc : list CSAMPLE) (old_gain new_gain : CSAMPLE_GAIN)
    (numSamples : SINT) : option (list CSAMPLE) :=
  if (old_gain == CSAMPLE_GAIN_ONE)%f32 && (new_gain == CSAMPLE_GAIN_ONE)%f32 then
    copy pDest pSrc numSamples
  else if (old_gain == CSAMPLE_GAIN_ZERO)%f32 && (new_gain == CSAMPLE_GAIN_ZERO)%f32 then
    clear pDest numSamples
  else
    let gain_delta := ((new_gain - old_gain) / F32.of_Z (numSamples ÷ 2))%f32 in
    if (gain_delta != F32.of_Z 0)%f32 then
      let start_gain := (old_gain + gain_delta)%f32 in
      for_loop 0 (numSamples ÷ 2) (λ i p,
        let gain := (start_gain + gain_delta * F32.of_Z i)%f32 in
        s0 ← load pSrc (i * 2);
        p ← store p (i * 2) (s0 * gain)%f32;
        s1 ← load pSrc (i * 2 + 1);
        store p (i * 2 + 1) (s1 * gain)%f32) pDest
    else
      for_loop 0 numSamples (λ i p,
        s ← load pSrc i; store p i (s * old_gain)%f32) pDest.

Definition copy1WithRampingGain (pDest pSrc0 : list CSAMPLE) (gain0in gain0out : CSAMPLE_GAIN)
    (iNumSamples : Z) : option (list CSAMPLE) :=
  if (gain0in == CSAMPLE_GAIN_ZERO)%f32 && (gain0out == CSAMPLE_GAIN_ZERO)%f32 then
    clear pDest iNumSamples
  else
    let gain_delta0 := ((gain0out - gain0in) / F32.of_Z (iNumSamples ÷ 2))%f32 in
    let start_gain0 := (gain0in + gain_delta0)%f32 in
    for_loop 0 (iNumSamples ÷ 2) (λ i p,
      let gain0 := (start_gain0 + gain_delta0 * F32.of_Z i)%f32 in
      s0 ← load pSrc0 (i * 2);
      p ← store p (i * 2) (s0 * gain0)%f32;
      s1 ← load pSrc0 (i * 2 + 1);
      store p (i * 2 + 1) (s1 * gain0)%f32) pDest.

(** The divisor of the gain-delta computation of each ramping operation, when
    the call gets as far as that computation: the guards are those of the
    operation itself (see the [_reaches] lemmas below). *)
Definition applyRampingGain_divisor (old_gain new_gain : CSAMPLE_GAIN) (numSamples : SINT)
  : option CSAMPLE_GAIN :=
  if (old_gain == CSAMPLE_GAIN_ONE)%f32 && (new_gain == CSAMPLE_GAIN_ONE)%f32 then None
  else if (old_gain == CSAMPLE_GAIN_ZERO)%f32 && (new_gain == CSAMPLE_GAIN_ZERO)%f32 then None
  else Some (F32.of_Z (numSamples ÷ 2)).

Definition addWithRampingGain_divisor (old_gain new_gain : CSAMPLE_GAIN) (numSamples : SINT)
  : option CSAMPLE_GAIN :=
  if (old_gain == CSAMPLE_GAIN_ZERO)%f32 && (new_gain == CSAMPLE_GAIN_ZERO)%f32 then None
  else Some (F32.of_Z (numSamples ÷ 2)).

Definition copyWithRampingGain_divisor (old_gain new_gain : CSAMPLE_GAIN) (numSamples : SINT)
  : option CSAMPLE_GAIN :=
  if (old_gain == CSAMPLE_GAIN_ONE)%f32 && (new_gain == CSAMPLE_GAIN_ONE)%f32 then None
  else if (old_gain == CSAMPLE_GAIN_ZERO)%f32 && (new_gain == CSAMPLE_GAIN_ZERO)%f32 then None
  else Some (F32.of_Z (numSamples ÷ 2)).

Definition copy1WithRampingGain_divisor (gain0in gain0out : CSAMPLE_GAIN) (iNumSamples : Z)
  : option CSAMPLE_GAIN :=
  if (gain0in == CSAMPLE_GAIN_ZERO)%f32 && (gain0out == CSAMPLE_GAIN_ZERO)%f32 then None
  else Some (F32.of_Z (iNumSamples ÷ 2)).

(** ** Conversion between fixed-point and floating-point samples *)

(** Modelled from the spec: [math_clamp] is defined in [util/math.h], which is
    not part of the sources at hand.  It clamps a value to the interval from
    [min] to [max]. *)
Definition math_clamp (value min max : CSAMPLE) : CSAMPLE :=
  if (value < min)%f32 then min else if (value > max)%f32 then max else value.

(** [static_cast<SAMPLE>] of a float: truncation; undefined when the truncated
    value is not a 16 bit integer. *)
Definition static_cast_SAMPLE (x : CSAMPLE) : option SAMPLE :=
  z ← F32.trunc x;
  if decide (SAMPLE_MINIMUM ≤ z ≤ SAMPLE_MAXIMUM) then Some z else None.

Definition convertS16ToFloat32 (pDest : list CSAMPLE) (pSrc : list SAMPLE) (numSamples : SINT)
  : option (list CSAMPLE) :=
  let kConversionFactor := (F32.of_Z SAMPLE_MINIMUM * F32.of_Z (-1))%f32 in
  for_loop 0 numSamples (λ i p,
    s ← load pSrc i; store p i (F32.of_Z s / kConversionFactor)%f32) pDest.

Definition convertFloat32ToS16 (pDest : list SAMPLE) (pSrc : list CSAMPLE) (numSamples : SINT)
  : option (list SAMPLE) :=
  let kConversionFactor := (F32.of_Z SAMPLE_MINIMUM * F32.of_Z (-1))%f32 in
  for_loop 0 numSamples (λ i p,
    x ← load pSrc i;
    v ← static_cast_SAMPLE (math_clamp (x * kConversionFactor)%f32
           (F32.of_Z SAMPLE_MINIMUM) (F32.of_Z SAMPLE_MAXIMUM));
    store p i v) pDest.

(** ** Analysis *)

(** [abs] is the absolute value of a float. *)
Definition maxAbsAmplitude (pBuffer : list CSAMPLE) (numSamples : SINT) : option CSAMPLE :=
  max ← load pBuffer 0;
  for_loop 1 numSamples (λ i max,
    x ← load pBuffer i;
    let absValue := F32.abs x in
    Some (if (absValue > max)%f32 then absValue else max)) max.

(** ** Channel layout *)

(** Modelled from the spec: the channel counts of [audio/types.h], which is
    not part of the sources at hand: a stereo frame has 2 samples, a stem
    frame has 8. *)
Definition ChannelCount_stereo : Z := 2.
Definition ChannelCount_stem : Z := 8.

Section EngineChannelCount.

(** The engine's output channel count, [mixxx::kEngineChannelOutputCount] of
    [engine/engine.h], which is not part of the sources at hand. *)
Variable chCount : Z.

Definition mixMultichannelToMono (pDest pSrc : list CSAMPLE) (numSamples : SINT)
  : option (list CSAMPLE) :=
  let mixScale := (CSAMPLE_GAIN_ONE / (CSAMPLE_GAIN_ONE * F32.of_Z chCount))%f32 in
  if decide (chCount = 0) then None else
  for_loop 0 (numSamples ÷ chCount) (λ i p,
    p ← store p i CSAMPLE_ZERO;
    p ← for_loop 0 chCount (λ ch p,
           s ← load pSrc (i * chCount + ch); update p i (λ x, x + s)%f32) p;
    update p i (λ x, x * mixScale)%f32) pDest.

Definition copyWithRampingNormalization (pDest pSrc : list CSAMPLE)
    (old_gain targetAmplitude : CSAMPLE_GAIN) (numSamples : SINT)
  : option (list CSAMPLE * CSAMPLE) :=
  if decide (chCount = 0) then None else
  let numMonoSamples := numSamples ÷ chCount in
  pDest ← mixMultichannelToMono pDest pSrc numSamples;
  maxAmplitude ← maxAbsAmplitude pDest numMonoSamples;
  let gain :=
    if (maxAmplitude == CSAMPLE_ZERO)%f32 then F32.of_Z 1
    else (targetAmplitude / maxAmplitude)%f32 in
  pDest ← copyWithRampingGain pDest pSrc old_gain gain numSamples;
  Some (pDest, gain).

End EngineChannelCount.

(** [a >> n] on [int]: undefined unless [0 <= n < 32]. *)
Definition int_shr (a n : Z) : option Z :=
  if decide (0 ≤ n < 32) then Some (Z.shiftr a n) else None.

(** The overload of [mixMultichannelToStereo] with a mask of excluded stems. *)
Definition mixMultichannelToStereo_masked (pDest pSrc : list CSAMPLE) (numFrames : SINT)
    (numChannels : Z) (excludeChannelMask : Z) : option (list CSAMPLE) :=
  let stereoChCount := numChannels ÷ ChannelCount_stereo in
  pDest ← clear pDest (numFrames * ChannelCount_stereo);
  for_loop 0 stereoChCount (λ stemIdx p,
    shifted ← int_shr excludeChannelMask stemIdx;
    if decide (Z.land shifted 1 ≠ 0) then Some p
    else
      for_loop 0 numFrames (λ i p,
        let srcIdx := numChannels * i + stemIdx * ChannelCount_stereo in
        let destIdx := ChannelCount_stereo * i in
        s0 ← load pSrc srcIdx;
        p ← update p destIdx (λ x, x + s0)%f32;
        s1 ← load pSrc (srcIdx + 1);
        update p (destIdx + 1) (λ x, x + s1)%f32) p) pDest.

(** The overload of [mixMultichannelToStereo] without a mask. *)
Definition mixMultichannelToStereo (pDest pSrc : list CSAMPLE) (numFrames : SINT)
    (numChannels : Z) : option (list CSAMPLE) :=
  let stereoChCount := numChannels ÷ ChannelCount_stereo in
  pDest ← clear pDest (numFrames * ChannelCount_stereo);
  for_loop 0 stereoChCount (λ stemIdx p,
    for_loop 0 numFrames (λ i p,
      let srcIdx := numChannels * i + stemIdx * ChannelCount_stereo in
      let destIdx := ChannelCount_stereo * i in
      s0 ← load pSrc srcIdx;
      p ← update p destIdx (λ x, x + s0)%f32;
      s1 ← load pSrc (srcIdx + 1);
      update p (destIdx + 1) (λ x, x + s1)%f32) p) pDest.

(** The debug assertions of the two overloads. *)
Definition mixMultichannelToStereo_asserts (numChannels : Z) : bool :=
  ChannelCount_stereo <? numChannels.

Definition mixMultichannelToStereo_masked_asserts (numChannels : Z) : bool :=
  (ChannelCount_stereo <? numChannels) && (numChannels ÷ ChannelCount_stereo <? 32).

(** ** Crossfade *)

(** The two statements [p[idx] *= (1 - cross_mix); p[idx] += src[idx] * cross_mix]. *)
Definition crossfadeOutAt (p src : list CSAMPLE) (idx : Z) (cross_mix : CSAMPLE_GAIN)
  : option (list CSAMPLE) :=
  p ← update p idx (λ x, x * (CSAMPLE_GAIN_ONE - cross_mix))%f32;
  s ← load src idx;
  update p idx (λ x, x + s * cross_mix)%f32.

(** The two statements [p[idx] *= cross_mix; p[idx] += src[idx] * (1 - cross_mix)]. *)
Definition crossfadeInAt (p src : list CSAMPLE) (idx : Z) (cross_mix : CSAMPLE_GAIN)
  : option (list CSAMPLE) :=
  p ← update p idx (λ x, x * cross_mix)%f32;
  s ← load src idx;
  update p idx (λ x, x + s * (CSAMPLE_GAIN_ONE - cross_mix))%f32.

Definition linearCrossfadeStereoBuffersOut (pDestSrcFadeOut pSrcFadeIn : list CSAMPLE)
    (numSamples : SINT) : option (list CSAMPLE) :=
  let cross_inc := (CSAMPLE_GAIN_ONE / F32.of_Z (numSamples ÷ 2))%f32 in
  p ← for_loop 0 (numSamples ÷ 2) (λ i p,
         let cross_mix := (cross_inc * F32.of_Z i)%f32 in
         crossfadeOutAt p pSrcFadeIn (i * 2) cross_mix) pDestSrcFadeOut;
  for_loop 0 (numSamples ÷ 2) (λ i p,
    let cross_mix := (cross_inc * F32.of_Z i)%f32 in
    crossfadeOutAt p pSrcFadeIn (i * 2 + 1) cross_mix) p.

Definition linearCrossfadeStemBuffersOut (pDestSrcFadeOut pSrcFadeIn : list CSAMPLE)
    (numSamples : SINT) : option (list CSAMPLE) :=
  let cross_inc := (CSAMPLE_GAIN_ONE / F32.of_Z (numSamples ÷ 8))%f32 in
  for_loop 0 (numSamples ÷ 8) (λ i p,
    let cross_mix := (cross_inc * F32.of_Z i)%f32 in
    p ← crossfadeOutAt p pSrcFadeIn (i * 8) cross_mix;
    p ← crossfadeOutAt p pSrcFadeIn (i * 8 + 1) cross_mix;
    p ← crossfadeOutAt p pSrcFadeIn (i * 8 + 2) cross_mix;
    p ← crossfadeOutAt p pSrcFadeIn (i * 8 + 3) cross_mix;
    p ← crossfadeOutAt p pSrcFadeIn (i * 8 + 4) cross_mix;
    p ← crossfadeOutAt p pSrcFadeIn (i * 8 + 5) cross_mix;
    p ← crossfadeOutAt p pSrcFadeIn (i * 8 + 6) cross_mix;
    crossfadeOutAt p pSrcFadeIn (i * 8 + 7) cross_mix) pDestSrcFadeOut.

Definition linearCrossfadeBuffersOut (pDestSrcFadeOut pSrcFadeIn : list CSAMPLE)
    (numSamples : SINT) (channelCount : Z) : option (list CSAMPLE) :=
  if decide (channelCount = ChannelCount_stereo) then
    linearCrossfadeStereoBuffersOut pDestSrcFadeOut pSrcFadeIn numSamples
  else if decide (channelCount = ChannelCount_stem) then
    linearCrossfadeStemBuffersOut pDestSrcFadeOut pSrcFadeIn numSamples
  else if decide (channelCount = 0) then None
  else
    let numFrame := numSamples ÷ channelCount in
    let cross_inc := (CSAMPLE_GAIN_ONE / F32.of_Z (numSamples ÷ channelCount))%f32 in
    for_loop 0 numFrame (λ i p,
      let cross_mix := (cross_inc * F32.of_Z i)%f32 in
      for_loop 0 channelCount (λ chIdx p,
        crossfadeOutAt p pSrcFadeIn (i * channelCount + chIdx) cross_mix) p)
      pDestSrcFadeOut.

Definition linearCrossfadeStereoBuffersIn (pDestSrcFadeIn pSrcFadeOut : list CSAMPLE)
    (numSamples : SINT) : option (list CSAMPLE) :=
  let cross_inc := (CSAMPLE_GAIN_ONE / F32.of_Z (numSamples ÷ 2))%f32 in
  p ← for_loop 0 (numSamples ÷ 2) (λ i p,
         let cross_mix := (cross_inc * F32.of_Z i)%f32 in
         crossfadeInAt p pSrcFadeOut (i * 2) cross_mix) pDestSrcFadeIn;
  for_loop 0 (numSamples ÷ 2) (λ i p,
    let cross_mix := (cross_inc * F32.of_Z i)%f32 in
    crossfadeInAt p pSrcFadeOut (i * 2 + 1) cross_mix) p.

Definition linearCrossfadeStemBuffersIn (pDestSrcFadeIn pSrcFadeOut : list CSAMPLE)
    (numSamples : SINT) : option (list CSAMPLE) :=
  let cross_inc := (CSAMPLE_GAIN_ONE / F32.of_Z (numSamples ÷ 8))%f32 in
  for_loop 0 (numSamples ÷ 8) (λ i p,
    let cross_mix := (cross_inc * F32.of_Z i)%f32 in
    p ← crossfadeInAt p pSrcFadeOut (i * 8) cross_mix;
    p ← crossfadeInAt p pSrcFadeOut (i * 8 + 1) cross_mix;
    p ← crossfadeInAt p pSrcFadeOut (i * 8 + 2) cross_mix;
    p ← crossfadeInAt p pSrcFadeOut (i * 8 + 3) cross_mix;
    p ← crossfadeInAt p pSrcFadeOut (i * 8 + 4) cross_mix;
    p ← crossfadeInAt p pSrcFadeOut (i * 8 + 5) cross_mix;
    p ← crossfadeInAt p pSrcFadeOut (i * 8 + 6) cross_mix;
    crossfadeInAt p pSrcFadeOut (i * 8 + 7) cross_mix) pDestSrcFadeIn.

Definition linearCrossfadeBuffersIn (pDestSrcFadeIn pSrcFadeOut : list CSAMPLE)
    (numSamples : SINT) (channelCount : Z) : option (list CSAMPLE) :=
  if decide (channelCount = ChannelCount_stereo) then
    linearCrossfadeStereoBuffersIn pDestSrcFadeIn pSrcFadeOut numSamples
  else if decide (channelCount = ChannelCount_stem) then
    linearCrossfadeStemBuffersIn pDestSrcFadeIn pSrcFadeOut numSamples
  else if decide (channelCount = 0) then None
  else
    let numFrame := numSamples ÷ channelCount in
    let cross_inc := (CSAMPLE_GAIN_ONE / F32.of_Z (numSamples ÷ channelCount))%f32 in
    for_loop 0 numFrame (λ i p,
      let cross_mix := (cross_inc * F32.of_Z i)%f32 in
      for_loop 0 channelCount (λ chIdx p,
        crossfadeInAt p pSrcFadeOut (i * channelCount + chIdx) cross_mix) p)
      pDestSrcFadeIn.

(** ** Notions used to state the properties *)

(** The step of a gain ramp from [g0] to [g1] over [n] samples, and the gain
    that the ramping loop of [applyRampingGain] applies to frame [i]. *)
Definition ramp_step (g0 g1 : CSAMPLE_GAIN) (n : SINT) : CSAMPLE_GAIN :=
  ((g1 - g0) / F32.of_Z (n ÷ 2))%f32.

Definition ramp_gain (g0 g1 : CSAMPLE_GAIN) (n : SINT) (i : Z) : CSAMPLE_GAIN :=
  ((g0 + ramp_step g0 g1 n) + ramp_step g0 g1 n * F32.of_Z i)%f32.

(** The conditions under which a call of [applyRampingGain] gets to its
    ramping loop: the gains are not both one, not both zero, and the gain
    delta that the call computes is not zero. *)
Definition applyRampingGain_ramps (g0 g1 : CSAMPLE_GAIN) (n : SINT) : bool :=
  negb ((g0 == CSAMPLE_GAIN_ONE)%f32 && (g1 == CSAMPLE_GAIN_ONE)%f32) &&
  negb ((g0 == CSAMPLE_GAIN_ZERO)%f32 && (g1 == CSAMPLE_GAIN_ZERO)%f32) &&
  (ramp_step g0 g1 n != F32.of_Z 0)%f32.

(** The ramp boundary as the specification words it: frame [i] is multiplied
    by [g0 + (i + 1) * step], the first gain is one step away from [g0] and
    the last gain is one step away from [g1]. *)
Definition ramp_boundary_claim (buf : list CSAMPLE) (g0 g1 : CSAMPLE_GAIN) (n : SINT) : Prop :=
  let step := ramp_step g0 g1 n in
  let gain i := (g0 + F32.of_Z (i + 1) * step)%f32 in
  ∃ p', applyRampingGain buf g0 g1 n = Some p' ∧
    (∀ i x y, 0 ≤ i < n ÷ 2 →
       load buf (2 * i) = Some x → load buf (2 * i + 1) = Some y →
       load p' (2 * i) = Some (x * gain i)%f32 ∧
       load p' (2 * i + 1) = Some (y * gain i)%f32) ∧
    F32.abs (gain 0 - g0)%f32 = F32.abs step ∧
    F32.abs (g1 - gain (n ÷ 2 - 1)%Z)%f32 = F32.abs step.

Definition f32_half : CSAMPLE := Eval cbv in (F32.of_Z 1 / F32.of_Z 2)%f32.

(** What the statements of [crossfadeOutAt] and of [crossfadeInAt] leave at
    the index, from the sample [x] that was there and the sample [s] of the
    other buffer. *)
Definition crossfadeOut_mix (x s : CSAMPLE) (cross_mix : CSAMPLE_GAIN) : CSAMPLE :=
  (x * (CSAMPLE_GAIN_ONE - cross_mix) + s * cross_mix)%f32.

Definition crossfadeIn_mix (x s : CSAMPLE) (cross_mix : CSAMPLE_GAIN) : CSAMPLE :=
  (x * cross_mix + s * (CSAMPLE_GAIN_ONE - cross_mix))%f32.

(** The mix of frame [i] in a stereo crossfade of [n] samples. *)
Definition stereo_cross_mix (n : SINT) (i : Z) : CSAMPLE_GAIN :=
  (CSAMPLE_GAIN_ONE / F32.of_Z (n ÷ 2) * F32.of_Z i)%f32.

(** Crossfade complementarity as the specification words it: fading [A] out
    into [B] and fading [B] in from [A] give the same samples, which are
    [mix * A + (1 - mix) * B] with [mix = i / (n / 2)] in frame [i]. *)
Definition crossfade_complement_claim (A B : list CSAMPLE) (n : SINT) : Prop :=
  ∃ p_out p_in,
    linearCrossfadeBuffersOut A B n ChannelCount_stereo = Some p_out ∧
    linearCrossfadeBuffersIn B A n ChannelCount_stereo = Some p_in ∧
    ∀ k a b, 0 ≤ k < n → load A k = Some a → load B k = Some b →
      let mix := (F32.of_Z (k ÷ 2) / F32.of_Z (n ÷ 2))%f32 in
      load p_in k = load p_out k ∧
      load p_out k = Some (mix * a + (CSAMPLE_GAIN_ONE - mix) * b)%f32.

(** [d] is the divisor of the gain-delta computation of a call of one of the
    four ramping operations. *)
Definition ramping_gain_divisor (old_gain new_gain : CSAMPLE_GAIN) (numSamples : SINT)
    (d : CSAMPLE_GAIN) : Prop :=
  applyRampingGain_divisor old_gain new_gain numSamples = Some d ∨
  addWithRampingGain_divisor old_gain new_gain numSamples = Some d ∨
  copyWithRampingGain_divisor old_gain new_gain numSamples = Some d ∨
  copy1WithRampingGain_divisor old_gain new_gain numSamples = Some d.

(** The absence of a division by zero as the specification words it: a call
    with a nonzero number of samples has a nonzero divisor. *)
Definition ramping_divisor_claim : Prop :=
  ∀ old_gain new_gain numSamples d,
    numSamples ≠ 0 →
    ramping_gain_divisor old_gain new_gain numSamples d →
    (d == CSAMPLE_ZERO)%f32 = false.

(** One step of the running maximum of [maxAbsAmplitude]. *)
Definition max_abs_step (max x : CSAMPLE) : CSAMPLE :=
  if (F32.abs x > max)%f32 then F32.abs x else max.

(** The conversion factor of both conversions, 32768. *)
Definition kConversionFactor : CSAMPLE := (F32.of_Z SAMPLE_MINIMUM * F32.of_Z (-1))%f32.

(** What [convertS16ToFloat32] writes for the fixed-point sample [s], and
    what [convertFloat32ToS16] writes for the float sample [x]. *)
Definition S16ToFloat32 (s : SAMPLE) : CSAMPLE := (F32.of_Z s / kConversionFactor)%f32.

Definition Float32ToS16 (x : CSAMPLE) : option SAMPLE :=
  static_cast_SAMPLE (math_clamp (x * kConversionFactor)%f32
    (F32.of_Z SAMPLE_MINIMUM) (F32.of_Z SAMPLE_MAXIMUM)).

Definition roundtrip_ok (s : SAMPLE) : bool :=
  match Float32ToS16 (S16ToFloat32 s) with
  | Some s' => s' =? s
  | None => false
  end.

(** [P] holds of the [2 ^ bits] integers from [base] on. *)
Fixpoint forall_from (bits : nat) (base : Z) (P : Z → bool) : bool :=
  match bits with
  | O => P base
  | S bits' => forall_from bits' base P && forall_from bits' (base + 2 ^ Z.of_nat bits') P
  end.

(** Frame [i] of a buffer of frames of [C] samples, the sum of a frame as the
    loop of [mixMultichannelToMono] accumulates it, and the scale of the mix. *)
Definition frame (C : Z) (src : list CSAMPLE) (i : Z) : list CSAMPLE :=
  take (Z.to_nat C) (drop (Z.to_nat (i * C)) src).

Definition frame_sum (l : list CSAMPLE) : CSAMPLE := fold_left F32.add l CSAMPLE_ZERO.

Definition mixScale (C : Z) : CSAMPLE_GAIN :=
  (CSAMPLE_GAIN_ONE / (CSAMPLE_GAIN_ONE * F32.of_Z C))%f32.

Definition f32_two : CSAMPLE := Eval cbv in F32.of_Z 2.

(** The largest finite single precision number. *)
Definition f32_max : CSAMPLE := Eval cbv in SFmax_float F32.prec F32.emax.

(** Twice the number is not beyond the largest finite number. *)
Definition double_fits (v : CSAMPLE) : bool :=
  match v with S754_finite _ _ e => e <=? 103 | _ => true end.

(** Mixdown conservation as the specification words it. *)
Definition mixdown_mean_claim (C : Z) (dest src : list CSAMPLE) (n : SINT) : Prop :=
  ∃ p', mixMultichannelToMono C dest src n = Some p' ∧
    ∀ i, 0 ≤ i < n ÷ C →
      load p' i = Some (frame_sum (frame C src i) / F32.of_Z C)%f32 ∧
      (Forall (λ x, x = CSAMPLE_ZERO) (frame C src i) → load p' i = Some CSAMPLE_ZERO) ∧
      (∀ v, Forall (λ x, x = v) (frame C src i) → load p' i = Some v).

(** The mantissa [M] shifted to the left by [k] bits. *)
Definition shl (M : positive) (k : Z) : positive :=
  match k with Zpos p => Pos.iter xO M p | _ => M end.

(** ** Gain of the two channels of a stereo buffer *)

Definition applyAlternatingGain (pBuffer : list CSAMPLE) (gain1 gain2 : CSAMPLE)
    (numSamples : SINT) : option (list CSAMPLE) :=
  if (gain1 == gain2)%f32 then applyGain pBuffer gain1 numSamples
  else
    for_loop 0 (numSamples ÷ 2) (λ i p,
      p ← update p (i * 2) (λ x, x * gain1)%f32;
      update p (i * 2 + 1) (λ x, x * gain2)%f32) pBuffer.

Definition applyRampingAlternatingGain (pBuffer : list CSAMPLE)
    (gain1 gain2 gain1Old gain2Old : CSAMPLE) (numSamples : SINT) : option (list CSAMPLE) :=
  if (gain1 == gain1Old)%f32 && (gain2 == gain2Old)%f32 then
    applyAlternatingGain pBuffer gain1 gain2 numSamples
  else
    let gain1Delta := ((gain1 - gain1Old) / F32.of_Z (numSamples ÷ 2))%f32 in
    p ← (if (gain1Delta != F32.of_Z 0)%f32 then
           let start_gain := (gain1Old + gain1Delta)%f32 in
           for_loop 0 (numSamples ÷ 2) (λ i p,
             let gain := (start_gain + gain1Delta * F32.of_Z i)%f32 in
             update p (i * 2) (λ x, x * gain)%f32) pBuffer
         else
           for_loop 0 (numSamples ÷ 2) (λ i p,
             update p (i * 2) (λ x, x * gain1Old)%f32) pBuffer);
    let gain2Delta := ((gain2 - gain2Old) / F32.of_Z (numSamples ÷ 2))%f32 in
    if (gain2Delta != F32.of_Z 0)%f32 then
      let start_gain := (gain2Old + gain2Delta)%f32 in
      for_loop 0 (numSamples ÷ 2) (λ i p,
        let gain := (start_gain + gain2Delta * F32.of_Z i)%f32 in
        update p (i * 2 + 1) (λ x, x * gain)%f32) p
    else
      for_loop 0 (numSamples ÷ 2) (λ i p,
        update p (i * 2 + 1) (λ x, x * gain2Old)%f32) p.

(** ** Accumulation *)

Definition add (pDest pSrc : list CSAMPLE) (numSamples : SINT) : option (list CSAMPLE) :=
  for_loop 0 numSamples (λ i p, s ← load pSrc i; update p i (λ x, x + s)%f32) pDest.

Definition addWithGain (pDest pSrc : list CSAMPLE) (gain : CSAMPLE_GAIN) (numSamples : SINT)
  : option (list CSAMPLE) :=
  if (gain == CSAMPLE_GAIN_ZERO)%f32 then Some pDest
  else
    for_loop 0 numSamples (λ i p,
      s ← load pSrc i; update p i (λ x, x + s * gain)%f32) pDest.

Definition add2WithGain (pDest pSrc1 : list CSAMPLE) (gain1 : CSAMPLE_GAIN)
    (pSrc2 : list CSAMPLE) (gain2 : CSAMPLE_GAIN) (numSamples : SINT) : option (list CSAMPLE) :=
  if (gain1 == CSAMPLE_GAIN_ZERO)%f32 then addWithGain pDest pSrc2 gain2 numSamples
  else if (gain2 == CSAMPLE_GAIN_ZERO)%f32 then addWithGain pDest pSrc1 gain1 numSamples
  else
    for_loop 0 numSamples (λ i p,
      s1 ← load pSrc1 i; s2 ← load pSrc2 i;
      update p i (λ x, x + (s1 * gain1 + s2 * gain2))%f32) pDest.

Definition add3WithGain (pDest pSrc1 : list CSAMPLE) (gain1 : CSAMPLE_GAIN)
    (pSrc2 : list CSAMPLE) (gain2 : CSAMPLE_GAIN) (pSrc3 : list CSAMPLE) (gain3 : CSAMPLE_GAIN)
    (numSamples : SINT) : option (list CSAMPLE) :=
  if (gain1 == CSAMPLE_GAIN_ZERO)%f32 then
    add2WithGain pDest pSrc2 gain2 pSrc3 gain3 numSamples
  else if (gain2 == CSAMPLE_GAIN_ZERO)%f32 then
    add2WithGain pDest pSrc1 gain1 pSrc3 gain3 numSamples
  else if (gain3 == CSAMPLE_GAIN_ZERO)%f32 then
    add2WithGain pDest pSrc1 gain1 pSrc2 gain2 numSamples
  else
    for_loop 0 numSamples (λ i p,
      s1 ← load pSrc1 i; s2 ← load pSrc2 i; s3 ← load pSrc3 i;
      update p i (λ x, x + (s1 * gain1 + s2 * gain2 + s3 * gain3))%f32) pDest.

(** ** Scaled copies *)

Definition copyWithGain (pDest pSrc : list CSAMPLE) (gain : CSAMPLE_GAIN) (numSamples : SINT)
  : option (list CSAMPLE) :=
  if (gain == CSAMPLE_GAIN_ONE)%f32 then copy pDest pSrc numSamples
  else if (gain == CSAMPLE_GAIN_ZERO)%f32 then clear pDest numSamples
  else for_loop 0 numSamples (λ i p, s ← load pSrc i; store p i (s * gain)%f32) pDest.

Definition copy1WithGain (pDest pSrc0 : list CSAMPLE) (gain0 : CSAMPLE_GAIN) (iNumSamples : Z)
  : option (list CSAMPLE) :=
  if (gain0 == CSAMPLE_GAIN_ZERO)%f32 then clear pDest iNumSamples
  else for_loop 0 iNumSamples (λ i p, s ← load pSrc0 i; store p i (s * gain0)%f32) pDest.

Definition copy2WithGain (pDest pSrc0 : list CSAMPLE) (gain0 : CSAMPLE_GAIN)
    (pSrc1 : list CSAMPLE) (gain1 : CSAMPLE_GAIN) (iNumSamples : Z) : option (list CSAMPLE) :=
  if (gain0 == CSAMPLE_GAIN_ZERO)%f32 then copy1WithGain pDest pSrc1 gain1 iNumSamples
  else if (gain1 == CSAMPLE_GAIN_ZERO)%f32 then copy1WithGain pDest pSrc0 gain0 iNumSamples
  else
    for_loop 0 iNumSamples (λ i p,
      s0 ← load pSrc0 i; s1 ← load pSrc1 i;
      store p i (s0 * gain0 + s1 * gain1)%f32) pDest.

Definition copy2WithRampingGain (pDest pSrc0 : list CSAMPLE) (gain0in gain0out : CSAMPLE_GAIN)
    (pSrc1 : list CSAMPLE) (gain1in gain1out : CSAMPLE_GAIN) (iNumSamples : Z)
  : option (list CSAMPLE) :=
  if (gain0in == CSAMPLE_GAIN_ZERO)%f32 && (gain0out == CSAMPLE_GAIN_ZERO)%f32 then
    copy1WithRampingGain pDest pSrc1 gain1in gain1out iNumSamples
  else if (gain1in == CSAMPLE_GAIN_ZERO)%f32 && (gain1out == CSAMPLE_GAIN_ZERO)%f32 then
    copy1WithRampingGain pDest pSrc0 gain0in gain0out iNumSamples
  else
    let gain_delta0 := ((gain0out - gain0in) / F32.of_Z (iNumSamples ÷ 2))%f32 in
    let start_gain0 := (gain0in + gain_delta0)%f32 in
    let gain_delta1 := ((gain1out - gain1in) / F32.of_Z (iNumSamples ÷ 2))%f32 in
    let start_gain1 := (gain1in + gain_delta1)%f32 in
    for_loop 0 (iNumSamples ÷ 2) (λ i p,
      let gain0 := (start_gain0 + gain_delta0 * F32.of_Z i)%f32 in
      let gain1 := (start_gain1 + gain_delta1 * F32.of_Z i)%f32 in
      a0 ← load pSrc0 (i * 2); b0 ← load pSrc1 (i * 2);
      p ← store p (i * 2) (a0 * gain0 + b0 * gain1)%f32;
      a1 ← load pSrc0 (i * 2 + 1); b1 ← load pSrc1 (i * 2 + 1);
      store p (i * 2 + 1) (a1 * gain0 + b1 * gain1)%f32) pDest.

Definition copy3WithGain (pDest pSrc0 : list CSAMPLE) (gain0 : CSAMPLE_GAIN)
    (pSrc1 : list CSAMPLE) (gain1 : CSAMPLE_GAIN) (pSrc2 : list CSAMPLE) (gain2 : CSAMPLE_GAIN)
    (iNumSamples : Z) : option (list CSAMPLE) :=
  if (gain0 == CSAMPLE_GAIN_ZERO)%f32 then
    copy2WithGain pDest pSrc1 gain1 pSrc2 gain2 iNumSamples
  else if (gain1 == CSAMPLE_GAIN_ZERO)%f32 then
    copy2WithGain pDest pSrc0 gain0 pSrc2 gain2 iNumSamples
  else if (gain2 == CSAMPLE_GAIN_ZERO)%f32 then
    copy2WithGain pDest pSrc0 gain0 pSrc1 gain1 iNumSamples
  else
    for_loop 0 iNumSamples (λ i p,
      s0 ← load pSrc0 i; s1 ← load pSrc1 i; s2 ← load pSrc2 i;
      store p i (s0 * gain0 + s1 * gain1 + s2 * gain2)%f32) pDest.

Definition copy3WithRampingGain (pDest pSrc0 : list CSAMPLE) (gain0in gain0out : CSAMPLE_GAIN)
    (pSrc1 : list CSAMPLE) (gain1in gain1out : CSAMPLE_GAIN)
    (pSrc2 : list CSAMPLE) (gain2in gain2out : CSAMPLE_GAIN) (iNumSamples : Z)
  : option (list CSAMPLE) :=
  if (gain0in == CSAMPLE_GAIN_ZERO)%f32 && (gain0out == CSAMPLE_GAIN_ZERO)%f32 then
    copy2WithRampingGain pDest pSrc1 gain1in gain1out pSrc2 gain2in gain2out iNumSamples
  else if (gain1in == CSAMPLE_GAIN_ZERO)%f32 && (gain1out == CSAMPLE_GAIN_ZERO)%f32 then
    copy2WithRampingGain pDest pSrc0 gain0in gain0out pSrc2 gain2in gain2out iNumSamples
  else if (gain2in == CSAMPLE_GAIN_ZERO)%f32 && (gain2out == CSAMPLE_GAIN_ZERO)%f32 then
    copy2WithRampingGain pDest pSrc0 gain0in gain0out pSrc1 gain1in gain1out iNumSamples
  else
    let gain_delta0 := ((gain0out - gain0in) / F32.of_Z (iNumSamples ÷ 2))%f32 in
    let start_gain0 := (gain0in + gain_delta0)%f32 in
    let gain_delta1 := ((gain1out - gain1in) / F32.of_Z (iNumSamples ÷ 2))%f32 in
    let start_gain1 := (gain1in + gain_delta1)%f32 in
    let gain_delta2 := ((gain2out - gain2in) / F32.of_Z (iNumSamples ÷ 2))%f32 in
    let start_gain2 := (gain2in + gain_delta2)%f32 in
    for_loop 0 (iNumSamples ÷ 2) (λ i p,
      let gain0 := (start_gain0 + gain_delta0 * F32.of_Z i)%f32 in
      let gain1 := (start_gain1 + gain_delta1 * F32.of_Z i)%f32 in
      let gain2 := (start_gain2 + gain_delta2 * F32.of_Z i)%f32 in
      a0 ← load pSrc0 (i * 2); b0 ← load pSrc1 (i * 2); c0 ← load pSrc2 (i * 2);
      p ← store p (i * 2) (a0 * gain0 + b0 * gain1 + c0 * gain2)%f32;
      a1 ← load pSrc0 (i * 2 + 1); b1 ← load pSrc1 (i * 2 + 1); c1 ← load pSrc2 (i * 2 + 1);
      store p (i * 2 + 1) (a1 * gain0 + b1 * gain1 + c1 * gain2)%f32) pDest.

(** ** Sums of a buffer *)

Definition sumSquared (pBuffer : list CSAMPLE) (numSamples : SINT) : option CSAMPLE :=
  for_loop 0 numSamples (λ i sumSq,
    x ← load pBuffer i; Some (sumSq + x * x)%f32) CSAMPLE_ZERO.

(** [sqrtf]. *)
Definition f32_sqrt : CSAMPLE → CSAMPLE := SFsqrt F32.prec F32.emax.

Definition rms (pBuffer : list CSAMPLE) (numSamples : SINT) : option CSAMPLE :=
  sumSq ← sumSquared pBuffer numSamples;
  Some (f32_sqrt (sumSq / F32.of_Z numSamples)%f32).

Section ClipStatus.

(** The peak [CSAMPLE_PEAK] of [util/types.h] and the values of the
    enumeration [CLIP_STATUS] of [util/sample.h], neither of which is part of
    the sources at hand. *)
Variable CSAMPLE_PEAK : CSAMPLE.
Variables NO_CLIPPING CLIPPING_LEFT CLIPPING_RIGHT : Z.

(** The sums of the two channels and the two counters after the loop of
    [sumAbsPerChannel]: [(fAbsL, fAbsR, clippedL, clippedR)]. *)
Definition sumAbsPerChannel_loop (pBuffer : list CSAMPLE) (numSamples : SINT)
  : option (CSAMPLE * CSAMPLE * CSAMPLE * CSAMPLE) :=
  for_loop 0 (numSamples ÷ 2) (λ i '(fAbsL, fAbsR, clippedL, clippedR),
    l ← load pBuffer (i * 2);
    let absl := F32.abs l in
    let fAbsL := (fAbsL + absl)%f32 in
    let clippedL := (clippedL + (if (absl > CSAMPLE_PEAK)%f32 then F32.of_Z 1 else F32.of_Z 0))%f32 in
    r ← load pBuffer (i * 2 + 1);
    let absr := F32.abs r in
    let fAbsR := (fAbsR + absr)%f32 in
    let clippedR := (clippedR + (if (absr > CSAMPLE_PEAK)%f32 then F32.of_Z 1 else F32.of_Z 0))%f32 in
    Some (fAbsL, fAbsR, clippedL, clippedR))
  (CSAMPLE_ZERO, CSAMPLE_ZERO, F32.of_Z 0, F32.of_Z 0).

(** The function returns the status and writes the two sums through
    [pfAbsL] and [pfAbsR]: [(status, fAbsL, fAbsR)]. *)
Definition sumAbsPerChannel (pBuffer : list CSAMPLE) (numSamples : SINT)
  : option (Z * CSAMPLE * CSAMPLE) :=
  '(fAbsL, fAbsR, clippedL, clippedR) ← sumAbsPerChannel_loop pBuffer numSamples;
  let clipping := NO_CLIPPING in
  let clipping := if (clippedL > F32.of_Z 0)%f32 then Z.lor clipping CLIPPING_LEFT else clipping in
  let clipping := if (clippedR > F32.of_Z 0)%f32 then Z.lor clipping CLIPPING_RIGHT else clipping in
  Some (clipping, fAbsL, fAbsR).

End ClipStatus.

(** ** Interleaving *)

Definition interleaveBuffer (pDest pSrc1 pSrc2 : list CSAMPLE) (numFrames : SINT)
  : option (list CSAMPLE) :=
  for_loop 0 numFrames (λ i p,
    x ← load pSrc1 i; p ← store p (2 * i) x;
    y ← load pSrc2 i; store p (2 * i + 1) y) pDest.

Definition deinterleaveBuffer (pDest1 pDest2 pSrc : list CSAMPLE) (numFrames : SINT)
  : option (list CSAMPLE * list CSAMPLE) :=
  for_loop 0 numFrames (λ i '(p1, p2),
    x ← load pSrc (i * 2); p1 ← store p1 i x;
    y ← load pSrc (i * 2 + 1); p2 ← store p2 i y;
    Some (p1, p2)) (pDest1, pDest2).

(** ** Mono and stereo *)

(** The overload of [mixStereoToMono] with a source and a destination. *)
Definition mixStereoToMono (pDest pSrc : list CSAMPLE) (numSamples : SINT)
  : option (list CSAMPLE) :=
  let mixScale := (CSAMPLE_GAIN_ONE / (CSAMPLE_GAIN_ONE + CSAMPLE_GAIN_ONE))%f32 in
  for_loop 0 (numSamples ÷ 2) (λ i p,
    l ← load pSrc (i * 2); r ← load pSrc (i * 2 + 1);
    p ← store p (i * 2) ((l + r) * mixScale)%f32;
    m ← load p (i * 2); store p (i * 2 + 1) m) pDest.

(** The overload of [mixStereoToMono] that works on one buffer. *)
Definition mixStereoToMono_inplace (pBuffer : list CSAMPLE) (numSamples : SINT)
  : option (list CSAMPLE) :=
  let mixScale := (CSAMPLE_GAIN_ONE / (CSAMPLE_GAIN_ONE + CSAMPLE_GAIN_ONE))%f32 in
  for_loop 0 (numSamples ÷ 2) (λ i p,
    l ← load p (i * 2); r ← load p (i * 2 + 1);
    p ← store p (i * 2) ((l + r) * mixScale)%f32;
    m ← load p (i * 2); store p (i * 2 + 1) m) pBuffer.

(** [i = n; while (0 < i--) body]: the body runs with [i] from [n - 1] down
    to [0]; [count] is the number of iterations left. *)
Fixpoint while_down {S} (count : nat) (body : Z → S → option S) (s : S) : option S :=
  match count with
  | O => Some s
  | S count' => s' ← body (Z.of_nat count') s; while_down count' body s'
  end.

Definition doubleMonoToDualMono (pBuffer : list CSAMPLE) (numFrames : SINT)
  : option (list CSAMPLE) :=
  while_down (Z.to_nat numFrames) (λ i p,
    s ← load p i; p ← store p (i * 2) s; store p (i * 2 + 1) s) pBuffer.

Definition copyMonoToDualMono (pDest pSrc : list CSAMPLE) (numFrames : SINT)
  : option (list CSAMPLE) :=
  for_loop 0 numFrames (λ i p,
    s ← load pSrc i; p ← store p (i * 2) s; store p (i * 2 + 1) s) pDest.

Definition addMonoToStereoWithGain (gain : CSAMPLE_GAIN) (pDest pSrc : list CSAMPLE)
    (numFrames : SINT) : option (list CSAMPLE) :=
  if (gain == F32.of_Z 0)%f32 then Some pDest
  else
    for_loop 0 numFrames (λ i p,
      x ← load pSrc i;
      let s := (x * gain)%f32 in
      p ← update p (i * 2) (λ d, d + s)%f32;
      update p (i * 2 + 1) (λ d, d + s)%f32) pDest.

Definition addMonoToStereo (pDest pSrc : list CSAMPLE) (numFrames : SINT)
  : option (list CSAMPLE) :=
  addMonoToStereoWithGain (F32.of_Z 1) pDest pSrc numFrames.

(** ** Stereo pairs of a multichannel buffer *)

Definition stripMultiToStereo (pBuffer : list CSAMPLE) (numFrames : SINT) (numChannels : Z)
  : option (list CSAMPLE) :=
  for_loop 0 numFrames (λ i p,
    x ← load p (i * numChannels); p ← store p (i * 2) x;
    y ← load p (i * numChannels + 1); store p (i * 2 + 1) y) pBuffer.

Definition copyOneStereoFromMulti (pDest pSrc : list CSAMPLE) (numFrames : SINT)
    (numChannels : Z) (sourceChannel : Z) : option (list CSAMPLE) :=
  for_loop 0 numFrames (λ i p,
    x ← load pSrc (i * numChannels + sourceChannel); p ← store p (i * 2) x;
    y ← load pSrc (i * numChannels + sourceChannel + 1); store p (i * 2 + 1) y) pDest.

Definition insertStereoToMulti (pDest pSrc : list CSAMPLE) (numFrames : SINT)
    (numChannels : Z) (channelOffset : Z) : option (list CSAMPLE) :=
  for_loop 0 numFrames (λ i p,
    x ← load pSrc (i * 2); p ← store p (i * numChannels + channelOffset) x;
    y ← load pSrc (i * 2 + 1); store p (i * numChannels + channelOffset + 1) y) pDest.

(** ** Reversal *)

Definition reverse (pBuffer : list CSAMPLE) (numSamples : SINT) : option (list CSAMPLE) :=
  for_loop 0 (numSamples ÷ 4) (λ j p,
    let endpos := (numSamples - 1) - j * 2 in
    temp1 ← load p (j * 2);
    temp2 ← load p (j * 2 + 1);
    x ← load p (endpos - 1); p ← store p (j * 2) x;
    y ← load p endpos; p ← store p (j * 2 + 1) y;
    p ← store p (endpos - 1) temp1;
    store p endpos temp2) pBuffer.

Definition copyReverse (pDest pSrc : list CSAMPLE) (numSamples : SINT) (channelCount : Z)
  : option (list CSAMPLE) :=
  if decide (channelCount = 0) then None else
  for_loop 0 (numSamples ÷ channelCount) (λ frameIdx p,
    let endpos := (numSamples - 1) - frameIdx * channelCount in
    for_loop 0 channelCount (λ chIdx p,
      x ← load pSrc (endpos - channelCount + chIdx + 1);
      store p (frameIdx * channelCount + chIdx) x) p) pDest.

(** ** Allocation *)

(** The arithmetic of [alloc] on sizes and addresses.  A [size_t] and an
    address are numbers of [bits] bits, with their wrap-around; [kAlignment]
    is 16, or 32 in a build for AVX. *)
Section Alignment.
Variable bits : Z.
Variable kAlignment : Z.

(** [~x] on [size_t]. *)
Definition size_t_not (x : Z) : Z := Z.land (Z.lnot x) (Z.ones bits).

(** The size that [alloc] passes to [std::aligned_alloc] for a buffer of
    [alloc_size] bytes. *)
Definition aligned_alloc_size (alloc_size : Z) : Z :=
  if decide (alloc_size mod kAlignment ≠ 0) then
    (alloc_size + (kAlignment - alloc_size mod kAlignment)) mod 2 ^ bits
  else alloc_size.

(** The size that [alloc] passes to [std::malloc] when it aligns the buffer
    by hand, for [size] samples of four bytes each. *)
Definition unaligned_size (size : SINT) : Z := (4 * size + kAlignment) mod 2 ^ bits.

(** The address that [alloc] returns for the address [pUnaligned] that
    [std::malloc] returned. *)
Definition pAligned (pUnaligned : Z) : Z :=
  (Z.land pUnaligned (size_t_not ((kAlignment - 1) mod 2 ^ bits)) + kAlignment) mod 2 ^ bits.

End Alignment.

(** ** Notions used to state the properties of these operations *)


(** The mean of the two samples of a stereo frame, as [mixStereoToMono]
    computes it. *)
Definition stereo_mean (l r : CSAMPLE) : CSAMPLE := ((l + r) * f32_half)%f32.

(** The index at which the sample of index [k] is found after the reversal
    of the frames of a stereo buffer of [n] samples. *)
Definition reversed_index (n k : Z) : Z := n - 2 - k + 2 * (k mod 2).

(** The number is +0, a positive number or +infinity. *)
Definition f32_nonneg (x : CSAMPLE) : bool :=
  match x with
  | S754_zero false | S754_infinity false | S754_finite false _ _ => true
  | _ => false
  end.

(** The status that [sumAbsPerChannel] returns when [clipL] and [clipR] tell
    whether the counter of the left and of the right channel is above zero. *)
Definition clip_status (NO_CLIPPING CLIPPING_LEFT CLIPPING_RIGHT : Z) (clipL clipR : bool) : Z :=
  let clipping := NO_CLIPPING in
  let clipping := if clipL then Z.lor clipping CLIPPING_LEFT else clipping in
  if clipR then Z.lor clipping CLIPPING_RIGHT else clipping.

(** Some sample of channel [c] of the first [frames] stereo frames is above
    the peak in absolute value. *)
Definition clips (peak : CSAMPLE) (buf : list CSAMPLE) (c frames : Z) : Prop :=
  ∃ i x, 0 ≤ i < frames ∧ load buf (2 * i + c) = Some x ∧ (F32.abs x > peak)%f32 = true.

(** The number is not below zero: it is +0, positive, +infinity or a NaN. *)
Definition f32_not_negative (x : CSAMPLE) : bool := F32.is_nan x || f32_nonneg x.

(** The number is positive, and no smaller than the smallest positive number
    of the format. *)
Definition f32_positive (x : CSAMPLE) : Prop :=
  match x with
  | S754_finite false _ e => -149 ≤ e
  | S754_infinity false => True
  | _ => False
  end.

(** The mix of frame [i] in a crossfade of [n] samples in frames of [C]
    samples. *)
Definition cross_mix (n C i : Z) : CSAMPLE_GAIN :=
  (CSAMPLE_GAIN_ONE / F32.of_Z (n ÷ C) * F32.of_Z i)%f32.

(** The float of the fixed-point sample [s] is finite, not below -1 and
    below 1. *)
Definition normalized_ok (s : SAMPLE) : bool :=
  F32.is_finite (S16ToFloat32 s) &&
  negb (S16ToFloat32 s < F32.of_Z (-1))%f32 && (S16ToFloat32 s < F32.of_Z 1)%f32.

(** The stems that the mask does not exclude, among the first [n] stems. *)
Definition mixed_stems (excludeChannelMask n : Z) : list Z :=
  filter (λ stemIdx, Z.testbit excludeChannelMask stemIdx = false) (seqZ 0 n).

(** The sum, from +0 on and in the order of the stems, of the samples of
    channel [c] of the stems [stems] in frame [i] of a buffer with
    [numChannels] channels. *)
Definition stem_mix (pSrc : list CSAMPLE) (numChannels i c : Z) (stems : list Z) : CSAMPLE :=
  fold_left (λ sum stemIdx,
    sum + default CSAMPLE_ZERO (load pSrc (numChannels * i + stemIdx * 2 + c)))%f32
    stems CSAMPLE_ZERO.

(** * Properties *)

Arguments F32.add : simpl never.
Arguments F32.sub : simpl never.
Arguments F32.mul : simpl never.
Arguments F32.div : simpl never.
Arguments F32.of_Z : simpl never.

(** ** Buffers and loops *)

Section Buffers.
Context {A : Type}.
Implicit Types (p q : list A) (i j : Z).

Lemma load_lookup p (n : nat) : load p (Z.of_nat n) = p !! n.
Proof. unfold load. case_decide; [by rewrite Nat2Z.id | lia]. Qed.

Lemma load_is_Some p i : is_Some (load p i) ↔ 0 ≤ i < Z.of_nat (length p).
Proof.
  unfold load. case_decide.
  - rewrite lookup_lt_is_Some. lia.
  - split; [intros [? ?]; done | lia].
Qed.

Lemma load_None p i : load p i = None ↔ ¬ (0 ≤ i < Z.of_nat (length p)).
Proof. rewrite <- load_is_Some, eq_None_not_Some. done. Qed.

Lemma buffer_ext p q : (∀ i, load p i = load q i) → p = q.
Proof.
  intros H. apply list_eq. intros n. rewrite <- !load_lookup. apply H.
Qed.

Lemma store_Some p i v p' :
  store p i v = Some p' →
  length p' = length p ∧ load p' i = Some v ∧ ∀ j, j ≠ i → load p' j = load p j.
Proof.
  unfold store. case_decide as Hi; [|done]. intros [= <-].
  split; [apply length_insert|]. split.
  - unfold load. case_decide; [|lia]. apply list_lookup_insert_eq. lia.
  - intros j Hj. unfold load. case_decide; [|done].
    apply list_lookup_insert_ne. lia.
Qed.

Lemma store_is_Some p i v : 0 ≤ i < Z.of_nat (length p) → is_Some (store p i v).
Proof. intros. unfold store. case_decide; [eauto | lia]. Qed.

Lemma update_Some p i f x :
  load p i = Some x →
  ∃ p', update p i f = Some p' ∧ length p' = length p ∧
        load p' i = Some (f x) ∧ ∀ j, j ≠ i → load p' j = load p j.
Proof.
  intros Hx. unfold update. rewrite Hx. simpl.
  destruct (store_is_Some p i (f x)) as [p' Hp'].
  { apply load_is_Some. eauto. }
  exists p'. split; [done|]. by apply store_Some in Hp'.
Qed.
End Buffers.

Section Loops.
Context {S : Type}.
Implicit Types (body : Z → S → option S) (I : Z → S → Prop).

Lemma for_range_inv I count lo body s :
  I lo s →
  (∀ i s, lo ≤ i < lo + Z.of_nat count → I i s →
          ∃ s', body i s = Some s' ∧ I (i + 1) s') →
  ∃ s', for_range count lo body s = Some s' ∧ I (lo + Z.of_nat count) s'.
Proof.
  revert lo s. induction count as [|count IH]; intros lo s Hs Hbody.
  - exists s. rewrite Z.add_0_r. done.
  - destruct (Hbody lo s) as (s1 & Hs1 & HI1); [lia | done |].
    destruct (IH (lo + 1) s1) as (s2 & Hs2 & HI2); [done | |].
    { intros i s' Hi. apply Hbody. lia. }
    exists s2. simpl. rewrite Hs1. simpl. split; [done|].
    replace (lo + Z.of_nat (Datatypes.S count)) with (lo + 1 + Z.of_nat count) by lia. done.
Qed.

Lemma for_loop_inv I lo hi body s :
  lo ≤ hi → I lo s →
  (∀ i s, lo ≤ i < hi → I i s → ∃ s', body i s = Some s' ∧ I (i + 1) s') →
  ∃ s', for_loop lo hi body s = Some s' ∧ I hi s'.
Proof.
  intros Hle Hs Hbody. unfold for_loop.
  destruct (for_range_inv I (Z.to_nat (hi - lo)) lo body s) as (s' & H1 & H2); [done | |].
  { intros i s' Hi. apply Hbody. lia. }
  exists s'. split; [done|].
  replace (lo + Z.of_nat (Z.to_nat (hi - lo))) with hi in H2 by lia. done.
Qed.

Lemma for_loop_empty lo hi body s : hi ≤ lo → for_loop lo hi body s = Some s.
Proof. intros. unfold for_loop. by replace (Z.to_nat (hi - lo)) with O by lia. Qed.

Lemma for_range_ext count lo body1 body2 s :
  (∀ i s, lo ≤ i < lo + Z.of_nat count → body1 i s = body2 i s) →
  for_range count lo body1 s = for_range count lo body2 s.
Proof.
  revert lo s. induction count as [|count IH]; intros lo s H; [done|].
  simpl. rewrite H by lia. destruct (body2 lo s) as [s'|]; [simpl | done].
  apply IH. intros. apply H. lia.
Qed.

Lemma for_loop_ext lo hi body1 body2 s :
  (∀ i s, lo ≤ i < hi → body1 i s = body2 i s) →
  for_loop lo hi body1 s = for_loop lo hi body2 s.
Proof. intros H. apply for_range_ext. intros. apply H. lia. Qed.
End Loops.

Section FrameLoops.
Context {A : Type}.
Implicit Types (p buf : list A).

(** A loop whose iteration [i] writes to the samples of frame [i] only, a
    frame being [c] samples wide; [R k x y] relates the sample [x] at
    position [k] before the loop to the sample [y] there after it. *)
Lemma for_loop_frames (c : Z) (R : Z → A → A → Prop) lo hi
    (body : Z → list A → option (list A)) buf :
  0 < c → lo ≤ hi →
  (∀ i p, lo ≤ i < hi → length p = length buf →
     (∀ k, c * i ≤ k < c * i + c → load p k = load buf k) →
     ∃ p', body i p = Some p' ∧ length p' = length buf ∧
       (∀ k, ¬ (c * i ≤ k < c * i + c) → load p' k = load p k) ∧
       (∀ k x, c * i ≤ k < c * i + c → load buf k = Some x →
               ∃ y, load p' k = Some y ∧ R k x y)) →
  ∃ p', for_loop lo hi body buf = Some p' ∧ length p' = length buf ∧
    (∀ k, ¬ (c * lo ≤ k < c * hi) → load p' k = load buf k) ∧
    (∀ k x, c * lo ≤ k < c * hi → load buf k = Some x →
            ∃ y, load p' k = Some y ∧ R k x y).
Proof.
  intros Hc Hle Hbody.
  pose (I := λ (j : Z) p, length p = length buf ∧
    (∀ k, ¬ (c * lo ≤ k < c * j) → load p k = load buf k) ∧
    (∀ k x, c * lo ≤ k < c * j → load buf k = Some x →
            ∃ y, load p k = Some y ∧ R k x y)).
  destruct (for_loop_inv I lo hi body buf) as (p' & Hp' & HI); [done | | | by eauto].
  - split; [done|]. split; [done|]. intros k x Hk. lia.
  - intros i p Hi (Hlen & Hout & Hin).
    destruct (Hbody i p Hi Hlen) as (p' & Hp' & Hlen' & Hout' & Hin').
    { intros k Hk. apply Hout. nia. }
    exists p'. split; [done|]. split; [done|]. split.
    + intros k Hk. rewrite Hout' by nia. apply Hout. nia.
    + intros k x Hk Hx.
      destruct (decide (c * i ≤ k)) as [Hki|Hki].
      * apply Hin'; [nia | done].
      * rewrite Hout' by nia. apply Hin; [nia | done].
Qed.
End FrameLoops.

Lemma clear_spec buf n :
  n ≤ Z.of_nat (length buf) →
  ∃ p', clear buf n = Some p' ∧ length p' = length buf ∧
    (∀ k, 0 ≤ k < n → load p' k = Some CSAMPLE_ZERO) ∧
    (∀ k, ¬ (0 ≤ k < n) → load p' k = load buf k).
Proof.
  intros Hn. unfold clear.
  destruct (Z.le_gt_cases n 0) as [Hn0|Hn0].
  { rewrite for_loop_empty by done. exists buf. split; [done|]. split; [done|]. split; [intros; lia | done]. }
  destruct (for_loop_frames 1 (λ _ _ y, y = CSAMPLE_ZERO) 0 n
              (λ i p, store p i CSAMPLE_ZERO) buf) as (p' & Hp' & Hlen & Hout & Hin);
    [lia | lia | |].
  - intros i p Hi Hlen _.
    destruct (store_is_Some p i CSAMPLE_ZERO) as [p' Hp']; [lia|].
    exists p'. split; [done|]. apply store_Some in Hp' as (Hl & Heq & Hne).
    split; [congruence|]. split.
    + intros k Hk. apply Hne. lia.
    + intros k x Hk _. replace k with i by lia. eauto.
  - exists p'. split; [done|]. split; [done|]. split.
    + intros k Hk. destruct (load_is_Some buf k) as [_ [x Hx]]; [lia|].
      destruct (Hin k x) as (y & Hy & ->); [lia | done | done].
    + intros k Hk. apply Hout. lia.
Qed.


(** ** Facts of single precision arithmetic *)

Module F32Facts.

Lemma eqb_refl x : F32.is_nan x = false → F32.eqb x x = true.
Proof.
  destruct x as [s|s| |s m e]; try done; unfold F32.eqb, SFeqb; simpl.
  - by destruct s.
  - destruct s; rewrite Z.compare_refl, Pos.compare_cont_refl; done.
Qed.

Lemma add_comm x y : F32.add x y = F32.add y x.
Proof.
  unfold F32.add, SFadd.
  destruct x as [sx|sx| |sx mx ex], y as [sy|sy| |sy my ey]; try done.
  - by destruct sx, sy.
  - by destruct sx, sy.
  - rewrite (Z.min_comm ey ex). f_equal. apply Z.add_comm.
Qed.

Lemma eqb_add_zero x s : F32.is_nan x = false → F32.eqb (F32.add x (S754_zero s)) x = true.
Proof.
  destruct x as [sx|sx| |sx mx ex]; try done; intros _.
  - by destruct sx, s.
  - by destruct sx.
  - apply (eqb_refl (S754_finite sx mx ex)). done.
Qed.

Lemma mul_zero_r x s : F32.is_finite x = true → ∃ s', F32.mul x (S754_zero s) = S754_zero s'.
Proof. destruct x; try done; intros _; simpl; eauto. Qed.

End F32Facts.


(** ** Rounding never turns a number of at least the smallest exponent into zero *)

Module Rounding.

Lemma digits2_pos_bounds m :
  2 ^ (Zpos (digits2_pos m) - 1) ≤ Zpos m < 2 ^ Zpos (digits2_pos m).
Proof.
  induction m as [m IH|m IH|]; simpl digits2_pos.
  - rewrite Pos2Z.inj_succ.
    replace (Z.succ (Zpos (digits2_pos m)) - 1) with (Z.succ (Zpos (digits2_pos m) - 1)) by lia.
    rewrite !Z.pow_succ_r by lia. lia.
  - rewrite Pos2Z.inj_succ.
    replace (Z.succ (Zpos (digits2_pos m)) - 1) with (Z.succ (Zpos (digits2_pos m) - 1)) by lia.
    rewrite !Z.pow_succ_r by lia. lia.
  - simpl. lia.
Qed.

Lemma shr_m_of_loc m l : shr_m (shr_record_of_loc m l) = m.
Proof. by destruct l as [|[]]. Qed.

Lemma shr_1_m r : 0 ≤ shr_m r → shr_m (shr_1 r) = shr_m r / 2.
Proof.
  destruct r as [m rb sb]. simpl. intros Hm.
  destruct m as [|[p|p|]|p]; cbn [shr_m]; try lia; try done.
  - apply (Z.div_unique _ _ _ 1); lia.
  - apply (Z.div_unique _ _ _ 0); lia.
Qed.

Lemma shr_m_iter p r :
  0 ≤ shr_m r → shr_m (SpecFloat.iter_pos shr_1 p r) = shr_m r / 2 ^ Zpos p.
Proof.
  revert r. induction p as [p IH|p IH|]; intros r Hr; simpl SpecFloat.iter_pos.
  - assert (0 ≤ shr_m (shr_1 r)) by (rewrite shr_1_m by done; apply Z.div_pos; lia).
    assert (0 ≤ shr_m (SpecFloat.iter_pos shr_1 p (shr_1 r)))
      by (rewrite IH by done; apply Z.div_pos; lia).
    rewrite !IH, shr_1_m by done.
    rewrite !Z.div_div by lia. f_equal.
    replace (Zpos p~1) with (1 + Zpos p + Zpos p) by lia.
    rewrite !Z.pow_add_r by lia. lia.
  - assert (0 ≤ shr_m (SpecFloat.iter_pos shr_1 p r))
      by (rewrite IH by done; apply Z.div_pos; lia).
    rewrite !IH by done. rewrite Z.div_div by lia. f_equal.
    replace (Zpos p~0) with (Zpos p + Zpos p) by lia.
    rewrite !Z.pow_add_r by lia. lia.
  - rewrite shr_1_m by done. done.
Qed.

(** The alignment step keeps a positive mantissa positive and does not
    lower an exponent that is at least the smallest one. *)
Lemma shr_fexp_pos m e l :
  -149 ≤ e →
  ∃ r' e', shr_fexp F32.prec F32.emax (Zpos m) e l = (r', e') ∧
           0 < shr_m r' ∧ e ≤ e'.
Proof.
  intros He. unfold shr_fexp, shr.
  set (d := Zpos (digits2_pos m)).
  assert (Hd : 0 < d) by (unfold d; lia).
  pose proof (digits2_pos_bounds m) as Hm. fold d in Hm.
  change (Zdigits2 (Zpos m)) with d.
  unfold fexp, emin, F32.prec, F32.emax.
  destruct (Z.max (d + e - 24) (3 - 128 - 24) - e) as [|k|k] eqn:Hk.
  - eexists _, _. split; [done|]. rewrite shr_m_of_loc. lia.
  - eexists _, _. split; [done|].
    rewrite shr_m_iter by (rewrite shr_m_of_loc; lia).
    rewrite shr_m_of_loc. split; [|lia].
    apply Z.div_str_pos. split; [lia|].
    etrans; [|apply Hm]. apply Z.pow_le_mono_r; lia.
  - eexists _, _. split; [done|]. rewrite shr_m_of_loc. lia.
Qed.

Lemma round_nearest_even_pos m l : 0 < m → 0 < round_nearest_even m l.
Proof. intros. unfold round_nearest_even. destruct l as [|[]]; try lia. destruct (Z.even m); lia. Qed.

Lemma binary_round_aux_nonzero s m e l :
  -149 ≤ e →
  match binary_round_aux F32.prec F32.emax s (Zpos m) e l with
  | S754_finite _ _ _ | S754_infinity _ => True
  | _ => False
  end.
Proof.
  intros He. unfold binary_round_aux.
  destruct (shr_fexp_pos m e l He) as (r1 & e1 & -> & Hr1 & He1).
  pose proof (round_nearest_even_pos (shr_m r1) (loc_of_shr_record r1) Hr1) as Hpos.
  destruct (round_nearest_even (shr_m r1) (loc_of_shr_record r1)) as [|m1|m1]; try lia.
  destruct (shr_fexp_pos m1 e1 loc_Exact) as (r2 & e2 & -> & Hr2 & He2); [lia|].
  destruct (shr_m r2) as [|m2|m2]; try lia.
  by destruct (e2 <=? F32.emax - F32.prec).
Qed.

Lemma of_Z_nonzero z :
  z ≠ 0 →
  match F32.of_Z z with
  | S754_finite _ _ _ | S754_infinity _ => True
  | _ => False
  end.
Proof.
  intros Hz. unfold F32.of_Z, binary_normalize, binary_round.
  assert (∀ s m, match (let '(mz, ez) := shl_align m 0
              (fexp F32.prec F32.emax (Zpos (digits2_pos m) + 0)) in
            binary_round_aux F32.prec F32.emax s (Zpos mz) ez loc_Exact) with
          | S754_finite _ _ _ | S754_infinity _ => True
          | _ => False
          end) as H.
  { intros s m. unfold shl_align, fexp, emin, F32.prec, F32.emax.
    destruct (Z.max (Zpos (digits2_pos m) + 0 - 24) (3 - 128 - 24) - 0) eqn:Hk;
      apply binary_round_aux_nonzero; lia. }
  destruct z as [|m|m]; [done|..]; apply H.
Qed.

End Rounding.

Lemma of_Z_neq_zero z : z ≠ 0 → (F32.of_Z z == CSAMPLE_ZERO)%f32 = false.
Proof.
  intros Hz. pose proof (Rounding.of_Z_nonzero z Hz) as H.
  destruct (F32.of_Z z) as [| s | |s m e]; try done; by destruct s.
Qed.


(** ** Exact roundings *)

Module Exact.

Lemma iter_shr_1_exact p M :
  SpecFloat.iter_pos shr_1 p
    {| shr_m := Zpos (Pos.iter xO M p); shr_r := false; shr_s := false |} =
  {| shr_m := Zpos M; shr_r := false; shr_s := false |}.
Proof.
  revert M. induction p as [p IH|p IH|]; intros M; simpl.
  - rewrite IH, IH. done.
  - rewrite IH, IH. done.
  - done.
Qed.

Lemma digits2_pos_iter_xO M p :
  Zpos (digits2_pos (Pos.iter xO M p)) = Zpos (digits2_pos M) + Zpos p.
Proof.
  induction p as [|p IH] using Pos.peano_ind.
  - simpl. lia.
  - rewrite Pos.iter_succ. simpl digits2_pos. lia.
Qed.

(** Rounding is exact on a mantissa that ends in [k] zero bits when the
    remaining bits fit the format at the exponent raised by [k]. *)
Lemma binary_round_aux_exact s M k e :
  0 ≤ k →
  fexp F32.prec F32.emax (Zpos (digits2_pos M) + (e + k)) = e + k →
  e + k ≤ 104 →
  binary_round_aux F32.prec F32.emax s (Zpos (shl M k)) e loc_Exact =
  S754_finite s M (e + k).
Proof.
  intros Hk Hcanon Hmax. unfold binary_round_aux, shr_fexp.
  assert (Hd : Zdigits2 (Zpos (shl M k)) = Zpos (digits2_pos M) + k).
  { destruct k as [|p|p]; simpl; [lia | apply digits2_pos_iter_xO | lia]. }
  rewrite Hd.
  replace (Zpos (digits2_pos M) + k + e) with (Zpos (digits2_pos M) + (e + k)) by lia.
  rewrite Hcanon. replace (e + k - e) with k by lia.
  assert (Hshr : shr (shr_record_of_loc (Zpos (shl M k)) loc_Exact) e k =
                 ({| shr_m := Zpos M; shr_r := false; shr_s := false |}, e + k)).
  { destruct k as [|p|p]; simpl.
    - rewrite Z.add_0_r. reflexivity.
    - rewrite iter_shr_1_exact. reflexivity.
    - lia. }
  rewrite Hshr. simpl. rewrite Hcanon, Z.sub_diag. simpl.
  change (F32.emax - F32.prec) with 104.
  rewrite (proj2 (Z.leb_le (e + k) 104)) by lia. done.
Qed.

(** The two shapes of a valid finite number: normal, or subnormal. *)
Lemma valid_finite_cases s m e :
  F32.valid (S754_finite s m e) = true →
  e ≤ 104 ∧ (Zpos (digits2_pos m) = 24 ∧ -149 ≤ e ∨ Zpos (digits2_pos m) < 24 ∧ e = -149).
Proof.
  unfold F32.valid, valid_binary, bounded, canonical_mantissa, fexp, emin, F32.prec, F32.emax.
  rewrite andb_true_iff, Z.eqb_eq, Z.leb_le. lia.
Qed.

Lemma add_self s m e :
  F32.valid (S754_finite s m e) = true → e ≤ 103 →
  F32.add (S754_finite s m e) (S754_finite s m e) =
  if decide (Zpos (digits2_pos m) = 24) then S754_finite s m (e + 1)
  else S754_finite s m~0 e.
Proof.
  intros Hvalid He. apply valid_finite_cases in Hvalid as [_ Hcases].
  unfold F32.add, SFadd. rewrite Z.min_id.
  unfold shl_align at 1 2. rewrite Z.sub_diag. simpl fst.
  assert (cond_Zopp s (Zpos m) + cond_Zopp s (Zpos m) = cond_Zopp s (Zpos m~0)) as ->.
  { destruct s; unfold cond_Zopp; rewrite (Pos2Z.inj_xO m); lia. }
  assert (binary_normalize F32.prec F32.emax (cond_Zopp s (Zpos m~0)) e false =
          binary_round F32.prec F32.emax s m~0 e) as -> by by destruct s.
  unfold binary_round. simpl digits2_pos. rewrite Pos2Z.inj_succ.
  case_decide as Hd.
  - assert (fexp F32.prec F32.emax (Z.succ (Zpos (digits2_pos m)) + e) = e + 1) as ->.
    { unfold fexp, emin, F32.prec, F32.emax. lia. }
    unfold shl_align. replace (e + 1 - e) with 1 by lia.
    apply (binary_round_aux_exact s m 1 e); [lia | | lia].
    unfold fexp, emin, F32.prec, F32.emax. lia.
  - assert (fexp F32.prec F32.emax (Z.succ (Zpos (digits2_pos m)) + e) = e) as ->.
    { unfold fexp, emin, F32.prec, F32.emax. lia. }
    unfold shl_align. rewrite Z.sub_diag.
    rewrite <- (Z.add_0_r e) at 2.
    apply (binary_round_aux_exact s m~0 0 e); [lia | | lia].
    simpl digits2_pos. unfold fexp, emin, F32.prec, F32.emax. lia.
Qed.

Lemma half_of_double s m e :
  F32.valid (S754_finite s m e) = true → e ≤ 103 →
  F32.mul (if decide (Zpos (digits2_pos m) = 24) then S754_finite s m (e + 1)
           else S754_finite s m~0 e) f32_half =
  S754_finite s m e.
Proof.
  intros Hvalid He. apply valid_finite_cases in Hvalid as [_ Hcases].
  unfold F32.mul, f32_half. case_decide as Hd; unfold SFmul; rewrite xorb_false_r.
  - rewrite Pos.mul_comm. change (8388608 * m)%positive with (shl m 23).
    replace (S754_finite s m e) with (S754_finite s m (e + 1 + -24 + 23)) by (f_equal; lia).
    apply binary_round_aux_exact; [lia | | lia].
    unfold fexp, emin, F32.prec, F32.emax. lia.
  - rewrite Pos.mul_comm. change (8388608 * m~0)%positive with (shl m 24).
    replace (S754_finite s m e) with (S754_finite s m (e + -24 + 24)) by (f_equal; lia).
    apply binary_round_aux_exact; [lia | | lia].
    unfold fexp, emin, F32.prec, F32.emax. lia.
Qed.

End Exact.

(** ** The sum of two numbers of the format is a number of the format *)

Module Valid.

Lemma Zdigits2_bounds m :
  0 < m → 2 ^ (Zdigits2 m - 1) ≤ m < 2 ^ Zdigits2 m.
Proof.
  destruct m as [|p|p]; [lia | | lia]. intros _. apply Rounding.digits2_pos_bounds.
Qed.

Lemma Zdigits2_pos m : 0 < m → 0 < Zdigits2 m.
Proof. destruct m; simpl; lia. Qed.

Lemma Zdigits2_unique m d :
  0 < m → 2 ^ (d - 1) ≤ m < 2 ^ d → Zdigits2 m = d.
Proof.
  intros Hm Hd. pose proof (Zdigits2_bounds m Hm) as Hb.
  pose proof (Zdigits2_pos m Hm) as Hpos.
  assert (0 < d).
  { destruct (Z.lt_ge_cases 0 d); [done|].
    assert (2 ^ d ≤ 2 ^ 0) by (apply Z.pow_le_mono_r; lia). simpl in *. lia. }
  destruct (Z.lt_trichotomy (Zdigits2 m) d) as [Hlt|[Heq|Hgt]]; [|done|].
  - assert (2 ^ Zdigits2 m ≤ 2 ^ (d - 1)) by (apply Z.pow_le_mono_r; lia). lia.
  - assert (2 ^ d ≤ 2 ^ (Zdigits2 m - 1)) by (apply Z.pow_le_mono_r; lia). lia.
Qed.

Lemma Zdigits2_div m k :
  0 < m → 0 ≤ k < Zdigits2 m →
  0 < m / 2 ^ k ∧ Zdigits2 (m / 2 ^ k) = Zdigits2 m - k.
Proof.
  intros Hm Hk. pose proof (Zdigits2_bounds m Hm) as Hb.
  assert (Hpow : 0 < 2 ^ k) by (apply Z.pow_pos_nonneg; lia).
  assert (Hlow : 2 ^ (Zdigits2 m - k - 1) ≤ m / 2 ^ k).
  { apply Z.div_le_lower_bound; [done|].
    rewrite <- Z.pow_add_r by lia.
    replace (k + (Zdigits2 m - k - 1)) with (Zdigits2 m - 1) by lia. lia. }
  assert (Hhigh : m / 2 ^ k < 2 ^ (Zdigits2 m - k)).
  { apply Z.div_lt_upper_bound; [done|].
    rewrite <- Z.pow_add_r by lia.
    replace (k + (Zdigits2 m - k)) with (Zdigits2 m) by lia. lia. }
  assert (0 < 2 ^ (Zdigits2 m - k - 1)) by (apply Z.pow_pos_nonneg; lia).
  split; [lia|]. apply Zdigits2_unique; [lia|].
  replace (Zdigits2 m - k - 1) with (Zdigits2 m - k - 1) by lia. lia.
Qed.

Lemma Zdigits2_small m k : 0 < m → Zdigits2 m ≤ k → m / 2 ^ k = 0.
Proof.
  intros Hm Hk. pose proof (Zdigits2_bounds m Hm) as Hb.
  apply Z.div_small. split; [lia|].
  assert (2 ^ Zdigits2 m ≤ 2 ^ k) by (apply Z.pow_le_mono_r; lia). lia.
Qed.

Lemma Zdigits2_succ m :
  0 < m → Zdigits2 m ≤ Zdigits2 (m + 1) ≤ Zdigits2 m + 1.
Proof.
  intros Hm. pose proof (Zdigits2_bounds m Hm) as Hb.
  pose proof (Zdigits2_pos m Hm) as Hpos.
  destruct (decide (m + 1 < 2 ^ Zdigits2 m)).
  - rewrite (Zdigits2_unique (m + 1) (Zdigits2 m)); lia.
  - rewrite (Zdigits2_unique (m + 1) (Zdigits2 m + 1)); [lia | lia |].
    replace (Zdigits2 m + 1 - 1) with (Zdigits2 m) by lia.
    rewrite Z.pow_add_r by lia. lia.
Qed.

(** What a shift to the right does to the mantissa and to the exponent. *)
Lemma shr_spec r e k :
  0 ≤ shr_m r →
  ∃ r', shr r e k = (r', e + Z.max k 0) ∧ shr_m r' = shr_m r / 2 ^ Z.max k 0.
Proof.
  intros Hr. destruct k as [|p|p]; simpl.
  - exists r. rewrite Z.add_0_r, Z.div_1_r. done.
  - eexists. split; [done|]. rewrite Rounding.shr_m_iter by done. done.
  - exists r. rewrite Z.add_0_r, Z.div_1_r. done.
Qed.

Lemma round_nearest_even_bounds m l :
  m ≤ round_nearest_even m l ≤ m + 1.
Proof. unfold round_nearest_even. destruct l as [|[]]; try lia. destruct (Z.even m); lia. Qed.

(** Rounding gives a number of the format when the mantissa is not shorter
    than the format asks for at its exponent. *)
Lemma binary_round_aux_valid s m e l :
  0 < m → e ≤ fexp F32.prec F32.emax (Zdigits2 m + e) →
  F32.valid (binary_round_aux F32.prec F32.emax s m e l) = true.
Proof.
  intros Hm He. unfold binary_round_aux, shr_fexp.
  set (f := fexp F32.prec F32.emax (Zdigits2 m + e)) in *.
  destruct (shr_spec (shr_record_of_loc m l) e (f - e)) as (r1 & -> & Hr1).
  { rewrite Rounding.shr_m_of_loc. lia. }
  rewrite Rounding.shr_m_of_loc in Hr1.
  replace (e + Z.max (f - e) 0) with f by lia.
  replace (Z.max (f - e) 0) with (f - e) in Hr1 by lia.
  pose proof (round_nearest_even_bounds (shr_m r1) (loc_of_shr_record r1)) as Hround.
  set (m2 := round_nearest_even (shr_m r1) (loc_of_shr_record r1)) in *.
  pose proof (Zdigits2_pos m Hm) as Hdpos.
  assert (Hf : f = Z.max (Zdigits2 m + e - 24) (-149)) by done.
  destruct (decide (f - e < Zdigits2 m)) as [Hshort|Hlong].
  - (* the mantissa keeps some of its bits *)
    destruct (Zdigits2_div m (f - e) Hm) as [Hm1 Hd1]; [lia|].
    rewrite <- Hr1 in Hm1, Hd1.
    assert (Hm2 : 0 < m2) by lia.
    assert (Hd2 : Zdigits2 (shr_m r1) ≤ Zdigits2 m2 ≤ Zdigits2 (shr_m r1) + 1).
    { destruct (decide (m2 = shr_m r1)) as [->|]; [lia|].
      replace m2 with (shr_m r1 + 1) by lia. by apply Zdigits2_succ. }
    destruct (shr_spec (shr_record_of_loc m2 loc_Exact) f
                (fexp F32.prec F32.emax (Zdigits2 m2 + f) - f)) as (r3 & -> & Hr3).
    { rewrite Rounding.shr_m_of_loc. lia. }
    rewrite Rounding.shr_m_of_loc in Hr3.
    set (k3 := Z.max (fexp F32.prec F32.emax (Zdigits2 m2 + f) - f) 0) in *.
    assert (Hk3 : (k3 = 0 ∧ fexp F32.prec F32.emax (Zdigits2 m2 + f) = f) ∨
                  (k3 = 1 ∧ fexp F32.prec F32.emax (Zdigits2 m2 + f) = f + 1 ∧
                   2 ≤ Zdigits2 m2)).
    { unfold k3, fexp, emin, F32.prec, F32.emax. lia. }
    destruct Hk3 as [[Hk0 Hc]|(Hk1 & Hc & Hd2')].
    + rewrite Hk0, Z.div_1_r in Hr3. rewrite Hr3, Hk0, Z.add_0_r.
      destruct m2 as [|p2|p2]; try lia.
      destruct (Z.leb_spec f (F32.emax - F32.prec)) as [Hle|Hgt]; [|done].
      unfold F32.valid, valid_binary, bounded, canonical_mantissa.
      change (Zpos (digits2_pos p2)) with (Zdigits2 (Zpos p2)).
      rewrite Hc, Z.eqb_refl. simpl. by apply Z.leb_le.
    + destruct (Zdigits2_div m2 1 Hm2) as [Hm3 Hd3]; [lia|].
      rewrite Hk1 in Hr3. rewrite Hr3, Hk1.
      destruct (m2 / 2 ^ 1) as [|p3|p3]; try lia.
      destruct (Z.leb_spec (f + 1) (F32.emax - F32.prec)) as [Hle|Hgt]; [|done].
      unfold F32.valid, valid_binary, bounded, canonical_mantissa.
      change (Zpos (digits2_pos p3)) with (Zdigits2 (Zpos p3)).
      rewrite Hd3. replace (Zdigits2 m2 - 1 + (f + 1)) with (Zdigits2 m2 + f) by lia.
      rewrite Hc, Z.eqb_refl. simpl. by apply Z.leb_le.
  - (* all the bits are shifted out: the exponent is the smallest one *)
    assert (Hm1 : shr_m r1 = 0) by (rewrite Hr1; apply Zdigits2_small; lia).
    assert (Hfmin : f = -149) by lia.
    rewrite Hm1 in Hround. rewrite Hfmin.
    destruct (decide (m2 = 0)) as [->|]; [done|].
    replace m2 with 1 by lia. done.
Qed.

Lemma binary_round_valid s m e :
  F32.valid (binary_round F32.prec F32.emax s m e) = true.
Proof.
  unfold binary_round, shl_align.
  set (f := fexp F32.prec F32.emax (Zpos (digits2_pos m) + e)).
  assert (Hf : f = Z.max (Zpos (digits2_pos m) + e - 24) (-149)) by done.
  destruct (f - e) as [|k|k] eqn:Hk.
  - apply binary_round_aux_valid; [lia|]. fold f. simpl Zdigits2. lia.
  - apply binary_round_aux_valid; [lia|]. fold f. simpl Zdigits2. lia.
  - apply binary_round_aux_valid; [lia|].
    change (Zdigits2 (Zpos (Pos.iter xO m k))) with (Zpos (digits2_pos (Pos.iter xO m k))).
    rewrite Exact.digits2_pos_iter_xO.
    replace (Zpos (digits2_pos m) + Zpos k + f) with (Zpos (digits2_pos m) + e) by lia.
    fold f. lia.
Qed.

Lemma add_valid x y :
  F32.valid x = true → F32.valid y = true → F32.valid (F32.add x y) = true.
Proof.
  intros Hx Hy. unfold F32.add, SFadd.
  destruct x as [sx|sx| |sx mx ex], y as [sy|sy| |sy my ey]; try done;
    try (by destruct sx, sy).
  unfold binary_normalize.
  destruct (cond_Zopp sx (Zpos (fst (shl_align mx ex (Z.min ex ey)))) +
            cond_Zopp sy (Zpos (fst (shl_align my ey (Z.min ex ey)))));
    [done | apply binary_round_valid | apply binary_round_valid].
Qed.

(** Rounding and addition of finite numbers never give a NaN. *)
Lemma binary_round_aux_not_nan s m e l :
  0 ≤ m → F32.is_nan (binary_round_aux F32.prec F32.emax s m e l) = false.
Proof.
  intros Hm. unfold binary_round_aux, shr_fexp.
  destruct (shr_spec (shr_record_of_loc m l) e
              (fexp F32.prec F32.emax (Zdigits2 m + e) - e)) as (r1 & -> & Hr1).
  { by rewrite Rounding.shr_m_of_loc. }
  rewrite Rounding.shr_m_of_loc in Hr1.
  assert (Hm1 : 0 ≤ shr_m r1) by (rewrite Hr1; apply Z.div_pos; lia).
  pose proof (round_nearest_even_bounds (shr_m r1) (loc_of_shr_record r1)) as Hround.
  set (m2 := round_nearest_even (shr_m r1) (loc_of_shr_record r1)) in *.
  set (e1 := e + Z.max (fexp F32.prec F32.emax (Zdigits2 m + e) - e) 0).
  destruct (shr_spec (shr_record_of_loc m2 loc_Exact) e1
              (fexp F32.prec F32.emax (Zdigits2 m2 + e1) - e1)) as (r3 & -> & Hr3).
  { rewrite Rounding.shr_m_of_loc. lia. }
  rewrite Rounding.shr_m_of_loc in Hr3.
  assert (Hm3 : 0 ≤ shr_m r3) by (rewrite Hr3; apply Z.div_pos; lia).
  destruct (shr_m r3) as [|p|p]; [done | | lia].
  by destruct (_ <=? _).
Qed.

Lemma add_not_nan x y :
  F32.is_finite x = true → F32.is_finite y = true → F32.is_nan (F32.add x y) = false.
Proof.
  intros Hx Hy. unfold F32.add, SFadd.
  destruct x as [sx|sx| |sx mx ex], y as [sy|sy| |sy my ey]; try done;
    try (by destruct sx, sy).
  unfold binary_normalize.
  destruct (cond_Zopp sx (Zpos (fst (shl_align mx ex (Z.min ex ey)))) +
            cond_Zopp sy (Zpos (fst (shl_align my ey (Z.min ex ey))))) as [|m|m];
    [done | |]; unfold binary_round;
    destruct (shl_align m (Z.min ex ey) _) as [mz ez];
    by apply binary_round_aux_not_nan.
Qed.

(** A finite ramp step comes from a finite old gain. *)
Lemma finite_step_finite_gain g0 g1 d :
  F32.is_finite (F32.div (F32.sub g1 g0) d) = true → F32.is_finite g0 = true.
Proof.
  destruct g0 as [s0|s0| |s0 m0 e0]; try done.
  - destruct g1 as [s1|s1| |s1 m1 e1], d as [sd|sd| |sd md ed]; try done;
      by destruct s0, s1.
  - destruct g1 as [s1|s1| |s1 m1 e1], d as [sd|sd| |sd md ed]; done.
Qed.

End Valid.

(** ** Halving: the product with one half is the quotient by two *)

Module Halving.

Lemma div_eucl_unique a b q r :
  0 < b → a = b * q + r → 0 ≤ r < b → Z.div_eucl a b = (q, r).
Proof.
  intros Hb Ha Hr.
  pose proof (Z.div_unique_pos a b q r Hr Ha) as Hq.
  pose proof (Z.mod_unique_pos a b q r Hr Ha) as Hm.
  unfold Z.div, Z.modulo in *. destruct (Z.div_eucl a b). congruence.
Qed.

(** Halving a normal number that stays normal. *)
Lemma halve_normal s m e :
  Zpos (digits2_pos m) = 24 → -147 ≤ e → e ≤ 104 →
  F32.mul (S754_finite s m e) f32_half = S754_finite s m (e - 1) ∧
  F32.div (S754_finite s m e) f32_two = S754_finite s m (e - 1).
Proof.
  intros Hd Hlo Hhi. split.
  - unfold F32.mul, f32_half, SFmul. rewrite xorb_false_r, Pos.mul_comm.
    change (8388608 * m)%positive with (shl m 23).
    replace (e - 1) with (e + -24 + 23) by lia.
    apply Exact.binary_round_aux_exact; [lia | | lia].
    unfold fexp, emin, F32.prec, F32.emax. lia.
  - unfold F32.div, f32_two, SFdiv, SFdiv_core_binary. rewrite xorb_false_r.
    change (Zdigits2 (Zpos m)) with (Zpos (digits2_pos m)). rewrite Hd.
    change (Zdigits2 8388608) with 24.
    assert (Z.min (fexp F32.prec F32.emax (24 + e - (24 + -22))) (e - -22) = e - 2) as ->.
    { unfold fexp, emin, F32.prec, F32.emax. lia. }
    replace (e - -22 - (e - 2)) with 24 by lia.
    change (Z.shiftl (Zpos m) 24) with (Zpos (shl m 24)).
    rewrite (div_eucl_unique _ _ (Zpos (shl m 1)) 0); [| lia | | lia].
    + change (new_location 8388608 0) with loc_Exact.
      replace (e - 1) with (e - 2 + 1) by lia.
      apply Exact.binary_round_aux_exact; [lia | | lia].
      unfold fexp, emin, F32.prec, F32.emax. lia.
    + simpl. lia.
Qed.

(** Halving a normal number down to the smallest exponent. *)
Lemma halve_to_min s m :
  Zpos (digits2_pos m) = 24 →
  F32.mul (S754_finite s m (-148)) f32_half = S754_finite s m (-149) ∧
  F32.div (S754_finite s m (-148)) f32_two = S754_finite s m (-149).
Proof.
  intros Hd. split.
  - unfold F32.mul, f32_half, SFmul. rewrite xorb_false_r, Pos.mul_comm.
    change (8388608 * m)%positive with (shl m 23).
    change (-149) with (-148 + -24 + 23).
    apply Exact.binary_round_aux_exact; [lia | | lia].
    unfold fexp, emin, F32.prec, F32.emax. lia.
  - unfold F32.div, f32_two, SFdiv, SFdiv_core_binary. rewrite xorb_false_r.
    change (Zdigits2 (Zpos m)) with (Zpos (digits2_pos m)). rewrite Hd.
    change (Zdigits2 8388608) with 24.
    change (Z.min (fexp F32.prec F32.emax (24 + -148 - (24 + -22))) (-148 - -22))
      with (-149).
    change (-148 - -22 - -149) with 23.
    change (Z.shiftl (Zpos m) 23) with (Zpos (shl m 23)).
    rewrite (div_eucl_unique _ _ (Zpos m) 0); [| lia | simpl; lia | lia].
    change (new_location 8388608 0) with loc_Exact.
    change (Zpos m) with (Zpos (shl m 0)) at 1. change (-149) with (-149 + 0) at 2.
    apply Exact.binary_round_aux_exact; [lia | | lia].
    unfold fexp, emin, F32.prec, F32.emax. lia.
Qed.

(** At the smallest exponent the last bit of the mantissa is rounded
    away, in the product as in the quotient. *)
Lemma halve_at_min s m :
  Zpos (digits2_pos m) ≤ 24 →
  F32.mul (S754_finite s m (-149)) f32_half = F32.div (S754_finite s m (-149)) f32_two.
Proof.
  intros Hd.
  pose (r1 := shr_1 {| shr_m := Zpos m; shr_r := false; shr_s := false |}).
  assert (Hmul : shr_fexp F32.prec F32.emax (Zpos (shl m 23)) (-149 + -24) loc_Exact
                 = (r1, -149)).
  { unfold shr_fexp.
    change (Zdigits2 (Zpos (shl m 23))) with (Zpos (digits2_pos (Pos.iter xO m 23))).
    rewrite Exact.digits2_pos_iter_xO.
    assert (fexp F32.prec F32.emax (Zpos (digits2_pos m) + 23 + (-149 + -24))
            - (-149 + -24) = 24) as ->.
    { unfold fexp, emin, F32.prec, F32.emax. lia. }
    reflexivity. }
  assert (Hdiv : ∃ q l,
    SFdiv_core_binary F32.prec F32.emax (Zpos m) (-149) 8388608 (-22) = (q, -149, l) ∧
    shr_fexp F32.prec F32.emax q (-149) l = (r1, -149)).
  { unfold SFdiv_core_binary.
    change (Zdigits2 (Zpos m)) with (Zpos (digits2_pos m)).
    change (Zdigits2 8388608) with 24.
    assert (Z.min (fexp F32.prec F32.emax (Zpos (digits2_pos m) + -149 - (24 + -22)))
              (-149 - -22) = -149) as ->.
    { unfold fexp, emin, F32.prec, F32.emax. lia. }
    change (-149 - -22 - -149) with 22.
    change (Z.shiftl (Zpos m) 22) with (Zpos (shl m 22)).
    destruct m as [p|p|].
    - rewrite (div_eucl_unique _ _ (Zpos p) 4194304); [| lia | simpl; lia | lia].
      eexists _, _. split; [reflexivity|].
      unfold shr_fexp. simpl digits2_pos in Hd.
      assert (fexp F32.prec F32.emax (Zdigits2 (Zpos p) + -149) - -149 = 0) as ->.
      { simpl Zdigits2. unfold fexp, emin, F32.prec, F32.emax. lia. }
      done.
    - rewrite (div_eucl_unique _ _ (Zpos p) 0); [| lia | simpl; lia | lia].
      eexists _, _. split; [reflexivity|].
      unfold shr_fexp. simpl digits2_pos in Hd.
      assert (fexp F32.prec F32.emax (Zdigits2 (Zpos p) + -149) - -149 = 0) as ->.
      { simpl Zdigits2. unfold fexp, emin, F32.prec, F32.emax. lia. }
      done.
    - eexists _, _. split; reflexivity. }
  destruct Hdiv as (q & l & Hcore & Hshr).
  unfold F32.mul, f32_half, SFmul, F32.div, f32_two, SFdiv.
  rewrite xorb_false_r, Pos.mul_comm, Hcore.
  change (8388608 * m)%positive with (shl m 23).
  unfold binary_round_aux. rewrite Hmul, Hshr. done.
Qed.

Lemma mul_half_div_two x :
  F32.valid x = true → F32.mul x f32_half = F32.div x f32_two.
Proof.
  intros Hvalid. destruct x as [sx|sx| |s m e]; try done.
  apply Exact.valid_finite_cases in Hvalid as [Hmax Hcases].
  destruct (decide (e = -149)) as [->|Hmin]; [apply halve_at_min; lia|].
  destruct (decide (e = -148)) as [->|Hmin'].
  - destruct (halve_to_min s m) as [-> ->]; [lia | done].
  - destruct (halve_normal s m e) as [-> ->]; [lia | lia | lia | done].
Qed.

End Halving.

(** ** Integer division by two *)

Lemma quot2_even i : 0 ≤ i → (2 * i) ÷ 2 = i.
Proof. intros. rewrite Z.quot_div_nonneg by lia. rewrite Z.mul_comm. apply Z.div_mul. lia. Qed.

Lemma quot2_odd i : 0 ≤ i → (2 * i + 1) ÷ 2 = i.
Proof.
  intros. rewrite Z.quot_div_nonneg by lia.
  symmetry. apply (Z.div_unique _ _ _ 1); lia.
Qed.

Lemma quot2_bounds n : 0 ≤ n → 0 ≤ n ÷ 2 ∧ 2 * (n ÷ 2) ≤ n ∧ n < 2 * (n ÷ 2) + 2.
Proof.
  intros. rewrite Z.quot_div_nonneg by lia.
  pose proof (Z.div_mod n 2). pose proof (Z.mod_pos_bound n 2). lia.
Qed.

Lemma quot2_nonpos n : n ≤ 0 → n ÷ 2 ≤ 0.
Proof.
  intros. rewrite <- (Z.opp_involutive n), Z.quot_opp_l by lia.
  destruct (quot2_bounds (- n)); lia.
Qed.

(** The loop of [applyRampingGain] that ramps the gain, one gain per frame. *)
Lemma applyRampingGain_loop (gain : Z → CSAMPLE_GAIN) buf m :
  2 * m ≤ Z.of_nat (length buf) →
  ∃ p', for_loop 0 m (λ i p,
          p ← update p (i * 2) (λ x, x * gain i)%f32;
          update p (i * 2 + 1) (λ x, x * gain i)%f32) buf = Some p' ∧
    length p' = length buf ∧
    (∀ k, ¬ (0 ≤ k < 2 * m) → load p' k = load buf k) ∧
    (∀ k x, 0 ≤ k < 2 * m → load buf k = Some x →
            load p' k = Some (x * gain (k ÷ 2))%f32).
Proof.
  intros Hm.
  destruct (Z.le_gt_cases m 0) as [Hm0|Hm0].
  { rewrite for_loop_empty by done. exists buf.
    split; [done|]. split; [done|]. split; [done | intros; lia]. }
  destruct (for_loop_frames 2 (λ k x y, y = (x * gain (k ÷ 2))%f32) 0 m
    (λ i p, p ← update p (i * 2) (λ x, x * gain i)%f32;
            update p (i * 2 + 1) (λ x, x * gain i)%f32) buf)
    as (p' & Hp' & Hlen & Hout & Hin); [lia | lia | |].
  - intros i p Hi Hlen Hframe.
    destruct (load_is_Some buf (i * 2)) as [_ [x Hx]]; [lia|].
    destruct (load_is_Some buf (i * 2 + 1)) as [_ [y Hy]]; [lia|].
    destruct (update_Some p (i * 2) (λ x, x * gain i)%f32 x)
      as (p1 & Hp1 & Hlen1 & Heq1 & Hne1).
    { rewrite Hframe by lia. done. }
    destruct (update_Some p1 (i * 2 + 1) (λ x, x * gain i)%f32 y)
      as (p2 & Hp2 & Hlen2 & Heq2 & Hne2).
    { rewrite Hne1, Hframe by lia. done. }
    exists p2. rewrite Hp1. simpl. split; [done|]. split; [congruence|]. split.
    + intros k Hk. rewrite Hne2, Hne1 by lia. done.
    + intros k x' Hk Hx'.
      destruct (decide (k = i * 2)) as [->|Hne].
      * exists (x * gain i)%f32. rewrite Hne2, Heq1 by lia.
        replace (i * 2) with (2 * i) by lia. rewrite quot2_even by lia.
        split; congruence.
      * assert (k = i * 2 + 1) as -> by lia.
        exists (y * gain i)%f32. rewrite Heq2.
        replace (i * 2 + 1) with (2 * i + 1) by lia. rewrite quot2_odd by lia.
        split; congruence.
  - exists p'. split; [done|]. split; [done|]. split; [intros; apply Hout; lia|].
    intros k x Hk Hx. destruct (Hin k x) as (y & Hy & ->); [lia | done | done].
Qed.

(** ** Gain *)

(** C7: for every [n > 0] and every buffer of at least [n] samples,
    [applyGain] with the gain 1.0 leaves the buffer as it is, and [applyGain]
    with the gain 0.0 sets each of the [n] samples to zero (and leaves the
    samples behind them alone). *)
Theorem applyGain_one_zero (buf : list CSAMPLE) (n : SINT) :
  0 < n → n ≤ Z.of_nat (length buf) →
  applyGain buf CSAMPLE_GAIN_ONE n = Some buf ∧
  ∃ p', applyGain buf CSAMPLE_GAIN_ZERO n = Some p' ∧
    length p' = length buf ∧
    (∀ k, 0 ≤ k < n → load p' k = Some CSAMPLE_ZERO) ∧
    (∀ k, n ≤ k → load p' k = load buf k).
Proof.
  intros Hn Hlen. split; [done|].
  destruct (clear_spec buf n Hlen) as (p' & Hp' & Hl & Hin & Hout).
  exists p'. split; [done|]. split; [done|]. split; [done|].
  intros k Hk. apply Hout. lia.
Qed.

Lemma applyGain_one_zero_witness :
  applyGain [F32.of_Z 3; F32.of_Z 5] CSAMPLE_GAIN_ONE 2 = Some [F32.of_Z 3; F32.of_Z 5] ∧
  ∃ p', applyGain [F32.of_Z 3; F32.of_Z 5] CSAMPLE_GAIN_ZERO 2 = Some p' ∧
    length p' = length [F32.of_Z 3; F32.of_Z 5] ∧
    (∀ k, 0 ≤ k < 2 → load p' k = Some CSAMPLE_ZERO) ∧
    (∀ k, 2 ≤ k → load p' k = load [F32.of_Z 3; F32.of_Z 5] k).
Proof. apply applyGain_one_zero; simpl; lia. Defined.

(** A call that gets to the ramping loop multiplies the samples of the
    [n / 2] whole frames by the gain of their frame, and nothing else. *)
Lemma applyRampingGain_ramp buf g0 g1 n :
  applyRampingGain_ramps g0 g1 n = true →
  2 * (n ÷ 2) ≤ Z.of_nat (length buf) →
  ∃ p', applyRampingGain buf g0 g1 n = Some p' ∧
    length p' = length buf ∧
    (∀ k, ¬ (0 ≤ k < 2 * (n ÷ 2)) → load p' k = load buf k) ∧
    (∀ k x, 0 ≤ k < 2 * (n ÷ 2) → load buf k = Some x →
            load p' k = Some (x * ramp_gain g0 g1 n (k ÷ 2))%f32).
Proof.
  unfold applyRampingGain_ramps. rewrite !andb_true_iff, !negb_true_iff.
  intros [[H1 H2] H3] Hlen. unfold applyRampingGain. rewrite H1, H2.
  unfold ramp_step in H3. rewrite H3.
  apply (applyRampingGain_loop (ramp_gain g0 g1 n)). done.
Qed.

(** C10: for every odd [numSamples] and gains with which the call computes a
    nonzero gain delta, [applyRampingGain] modifies the first
    [numSamples - 1] samples only: the ramping loop covers [numSamples / 2]
    whole frames, so the sample at [numSamples - 1], and every sample behind
    it, is left as it was. *)
Theorem applyRampingGain_odd (buf : list CSAMPLE) (g0 g1 : CSAMPLE_GAIN) (n : SINT) :
  Z.odd n = true → n - 1 ≤ Z.of_nat (length buf) →
  applyRampingGain_ramps g0 g1 n = true →
  ∃ p', applyRampingGain buf g0 g1 n = Some p' ∧
    length p' = length buf ∧
    load p' (n - 1) = load buf (n - 1) ∧
    (∀ k, n - 1 ≤ k → load p' k = load buf k) ∧
    (∀ k x, 0 ≤ k < n - 1 → load buf k = Some x →
            load p' k = Some (x * ramp_gain g0 g1 n (k ÷ 2))%f32).
Proof.
  intros Hodd Hlen Hramp.
  assert (Hq : n ≤ 0 ∧ n ÷ 2 ≤ 0 ∨ 0 < n ∧ 2 * (n ÷ 2) = n - 1).
  { destruct (Z.le_gt_cases n 0) as [Hn|Hn].
    - left. split; [done|]. by apply quot2_nonpos.
    - right. split; [lia|]. rewrite Z.quot_div_nonneg by lia.
      pose proof (Z.div_mod n 2). rewrite Zmod_odd, Hodd in H. lia. }
  destruct (applyRampingGain_ramp buf g0 g1 n Hramp) as (p' & Hp' & Hl & Hout & Hin);
    [lia|].
  exists p'. split; [done|]. split; [done|]. split; [apply Hout; lia|].
  split; [intros k Hk; apply Hout; lia|].
  intros k x Hk. apply Hin. lia.
Qed.

Lemma applyRampingGain_odd_witness :
  ∃ p', applyRampingGain [F32.of_Z 1; F32.of_Z 1; F32.of_Z 1] (F32.of_Z 0) (F32.of_Z 1) 3 = Some p' ∧
    length p' = length [F32.of_Z 1; F32.of_Z 1; F32.of_Z 1] ∧
    load p' (3 - 1) = load [F32.of_Z 1; F32.of_Z 1; F32.of_Z 1] (3 - 1) ∧
    (∀ k, 3 - 1 ≤ k → load p' k = load [F32.of_Z 1; F32.of_Z 1; F32.of_Z 1] k) ∧
    (∀ k x, 0 ≤ k < 3 - 1 → load [F32.of_Z 1; F32.of_Z 1; F32.of_Z 1] k = Some x →
            load p' k = Some (x * ramp_gain (F32.of_Z 0) (F32.of_Z 1) 3 (k ÷ 2))%f32).
Proof. apply applyRampingGain_odd; [reflexivity | simpl; lia | reflexivity]. Defined.

(** C2 does not hold as worded: with the gains 0 and 1 on four samples of
    value 1 the step is 0.5 and the call leaves [0.5, 0.5, 1, 1]; the last
    frame is multiplied by the new gain 1 itself, which is no ramp step away
    from it. *)
Lemma applyRampingGain_last_gain_is_new_gain :
  applyRampingGain [F32.of_Z 1; F32.of_Z 1; F32.of_Z 1; F32.of_Z 1] (F32.of_Z 0) (F32.of_Z 1) 4
    = Some [f32_half; f32_half; F32.of_Z 1; F32.of_Z 1] ∧
  ramp_step (F32.of_Z 0) (F32.of_Z 1) 4 = f32_half ∧
  ramp_gain (F32.of_Z 0) (F32.of_Z 1) 4 (4 ÷ 2 - 1) = F32.of_Z 1 ∧
  ¬ ramp_boundary_claim [F32.of_Z 1; F32.of_Z 1; F32.of_Z 1; F32.of_Z 1]
      (F32.of_Z 0) (F32.of_Z 1) 4.
Proof.
  split; [reflexivity|]. split; [reflexivity|]. split; [reflexivity|].
  intros (p' & _ & _ & _ & H). vm_compute in H. discriminate.
Qed.

(** C2, amended: for every even [n >= 2] and gains not both one, not both
    zero and with a nonzero computed delta, [applyRampingGain buf g0 g1 n]
    multiplies both samples of frame [i] by [(g0 + step) + step * i], with
    [step = (g1 - g0) / (n / 2)] and each operation rounded to single
    precision.  The first gain applied, that of frame 0, is [g0 + step], one
    ramp step away from [g0] (when the step is finite); the last one, that
    of frame [n / 2 - 1], is [(g0 + step) + step * (n / 2 - 1)], [n / 2] ramp
    steps away from [g0]. *)
Theorem applyRampingGain_even (buf : list CSAMPLE) (g0 g1 : CSAMPLE_GAIN) (n : SINT) :
  Z.even n = true → 2 ≤ n → n ≤ Z.of_nat (length buf) →
  applyRampingGain_ramps g0 g1 n = true →
  ∃ p', applyRampingGain buf g0 g1 n = Some p' ∧
    length p' = length buf ∧
    (∀ i x y, 0 ≤ i < n ÷ 2 →
       load buf (2 * i) = Some x → load buf (2 * i + 1) = Some y →
       load p' (2 * i) = Some (x * ramp_gain g0 g1 n i)%f32 ∧
       load p' (2 * i + 1) = Some (y * ramp_gain g0 g1 n i)%f32) ∧
    (∀ k, n ≤ k → load p' k = load buf k) ∧
    (F32.is_finite (ramp_step g0 g1 n) = true →
     (ramp_gain g0 g1 n 0 == g0 + ramp_step g0 g1 n)%f32 = true).
Proof.
  intros Heven Hn Hlen Hramp.
  assert (Hq : 2 * (n ÷ 2) = n).
  { rewrite Z.quot_div_nonneg by lia.
    pose proof (Z.div_mod n 2). rewrite Zmod_even, Heven in H. lia. }
  destruct (applyRampingGain_ramp buf g0 g1 n Hramp) as (p' & Hp' & Hl & Hout & Hin);
    [lia|].
  exists p'. split; [done|]. split; [done|]. split; [|split].
  - intros i x y Hi Hx Hy. split.
    + rewrite (Hin (2 * i) x), quot2_even by (done || lia). done.
    + rewrite (Hin (2 * i + 1) y), quot2_odd by (done || lia). done.
  - intros k Hk. apply Hout. lia.
  - intros Hfin. unfold ramp_gain.
    assert (Hnan : F32.is_nan (g0 + ramp_step g0 g1 n)%f32 = false).
    { apply Valid.add_not_nan; [|done]. by eapply Valid.finite_step_finite_gain. }
    destruct (F32Facts.mul_zero_r (ramp_step g0 g1 n) false Hfin) as [s Hs].
    change (F32.of_Z 0) with (S754_zero false). rewrite Hs.
    by apply F32Facts.eqb_add_zero.
Qed.

Lemma applyRampingGain_even_witness :
  ∃ p', applyRampingGain [F32.of_Z 1; F32.of_Z 1; F32.of_Z 1; F32.of_Z 1]
          (F32.of_Z 0) (F32.of_Z 1) 4 = Some p' ∧ length p' = 4%nat.
Proof.
  destruct (applyRampingGain_even [F32.of_Z 1; F32.of_Z 1; F32.of_Z 1; F32.of_Z 1]
              (F32.of_Z 0) (F32.of_Z 1) 4) as (p' & Hp' & Hl & _);
    [reflexivity | lia | simpl; lia | reflexivity |].
  exists p'. split; [exact Hp' | exact Hl].
Defined.

(** A call that gets to the gain-delta computation divides by the divisor
    that [applyRampingGain_divisor] and its like give for it. *)
Lemma applyRampingGain_reaches buf g0 g1 n d :
  applyRampingGain_divisor g0 g1 n = Some d →
  applyRampingGain buf g0 g1 n =
    let gain_delta := ((g1 - g0) / d)%f32 in
    if (gain_delta != F32.of_Z 0)%f32 then
      for_loop 0 (n ÷ 2) (λ i p,
        let gain := ((g0 + gain_delta) + gain_delta * F32.of_Z i)%f32 in
        p ← update p (i * 2) (λ x, x * gain)%f32;
        update p (i * 2 + 1) (λ x, x * gain)%f32) buf
    else for_loop 0 n (λ i p, update p i (λ x, x * g0)%f32) buf.
Proof.
  unfold applyRampingGain_divisor, applyRampingGain.
  repeat (match goal with |- context [if ?b && ?c then _ else _] => destruct (b && c) end);
    intros [= <-]; done.
Qed.

Lemma addWithRampingGain_reaches dest src g0 g1 n d :
  addWithRampingGain_divisor g0 g1 n = Some d →
  addWithRampingGain dest src g0 g1 n =
    let gain_delta := ((g1 - g0) / d)%f32 in
    if (gain_delta != F32.of_Z 0)%f32 then
      for_loop 0 (n ÷ 2) (λ i p,
        let gain := ((g0 + gain_delta) + gain_delta * F32.of_Z i)%f32 in
        s0 ← load src (i * 2);
        p ← update p (i * 2) (λ x, x + s0 * gain)%f32;
        s1 ← load src (i * 2 + 1);
        update p (i * 2 + 1) (λ x, x + s1 * gain)%f32) dest
    else for_loop 0 n (λ i p, s ← load src i; update p i (λ x, x + s * g0)%f32) dest.
Proof.
  unfold addWithRampingGain_divisor, addWithRampingGain.
  repeat (match goal with |- context [if ?b && ?c then _ else _] => destruct (b && c) end);
    intros [= <-]; done.
Qed.

Lemma copyWithRampingGain_reaches dest src g0 g1 n d :
  copyWithRampingGain_divisor g0 g1 n = Some d →
  copyWithRampingGain dest src g0 g1 n =
    let gain_delta := ((g1 - g0) / d)%f32 in
    if (gain_delta != F32.of_Z 0)%f32 then
      for_loop 0 (n ÷ 2) (λ i p,
        let gain := ((g0 + gain_delta) + gain_delta * F32.of_Z i)%f32 in
        s0 ← load src (i * 2);
        p ← store p (i * 2) (s0 * gain)%f32;
        s1 ← load src (i * 2 + 1);
        store p (i * 2 + 1) (s1 * gain)%f32) dest
    else for_loop 0 n (λ i p, s ← load src i; store p i (s * g0)%f32) dest.
Proof.
  unfold copyWithRampingGain_divisor, copyWithRampingGain.
  repeat (match goal with |- context [if ?b && ?c then _ else _] => destruct (b && c) end);
    intros [= <-]; done.
Qed.

Lemma copy1WithRampingGain_reaches dest src g0 g1 n d :
  copy1WithRampingGain_divisor g0 g1 n = Some d →
  copy1WithRampingGain dest src g0 g1 n =
    let gain_delta0 := ((g1 - g0) / d)%f32 in
    for_loop 0 (n ÷ 2) (λ i p,
      let gain0 := ((g0 + gain_delta0) + gain_delta0 * F32.of_Z i)%f32 in
      s0 ← load src (i * 2);
      p ← store p (i * 2) (s0 * gain0)%f32;
      s1 ← load src (i * 2 + 1);
      store p (i * 2 + 1) (s1 * gain0)%f32) dest.
Proof.
  unfold copy1WithRampingGain_divisor, copy1WithRampingGain.
  repeat (match goal with |- context [if ?b && ?c then _ else _] => destruct (b && c) end);
    intros [= <-]; done.
Qed.

(** C8 does not hold as worded: a call of [applyRampingGain] with the gains
    0 and 1 on a single sample gets to the gain-delta computation, where the
    divisor [1 / 2] is zero, and the delta an infinity. *)
Lemma ramping_gain_single_sample_divides_by_zero :
  applyRampingGain_divisor (F32.of_Z 0) (F32.of_Z 1) 1 = Some CSAMPLE_ZERO ∧
  ((F32.of_Z 1 - F32.of_Z 0) / CSAMPLE_ZERO)%f32 = S754_infinity false ∧
  ¬ ramping_divisor_claim.
Proof.
  split; [reflexivity|]. split; [reflexivity|].
  intros H. specialize (H (F32.of_Z 0) (F32.of_Z 1) 1 CSAMPLE_ZERO).
  discriminate H; [lia | by left].
Qed.

Lemma ramping_gain_divisor_value old_gain new_gain numSamples d :
  ramping_gain_divisor old_gain new_gain numSamples d →
  d = F32.of_Z (numSamples ÷ 2).
Proof.
  unfold ramping_gain_divisor, applyRampingGain_divisor, addWithRampingGain_divisor,
    copyWithRampingGain_divisor, copy1WithRampingGain_divisor.
  intros [H|[H|[H|H]]]; revert H;
    repeat (match goal with |- context [if ?b then _ else _] => destruct b end);
    congruence.
Qed.

(** C8, amended: in every call of [applyRampingGain], [addWithRampingGain],
    [copyWithRampingGain] or [copy1WithRampingGain] with [numSamples] of
    magnitude 2 at least that gets to the gain-delta computation, the divisor
    [numSamples / 2] is not zero, as an integer and as the float that the
    delta is divided by. *)
Theorem ramping_gain_divisor_nonzero (old_gain new_gain : CSAMPLE_GAIN) (numSamples : SINT)
    (d : CSAMPLE_GAIN) :
  2 ≤ Z.abs numSamples →
  ramping_gain_divisor old_gain new_gain numSamples d →
  numSamples ÷ 2 ≠ 0 ∧ (d == CSAMPLE_ZERO)%f32 = false.
Proof.
  intros Hn Hd. apply ramping_gain_divisor_value in Hd as ->.
  assert (numSamples ÷ 2 ≠ 0) as Hq.
  { intros Hq. apply Z.quot_small_iff in Hq; lia. }
  split; [done|]. by apply of_Z_neq_zero.
Qed.

Lemma ramping_gain_divisor_nonzero_witness :
  4 ÷ 2 ≠ 0 ∧ (F32.of_Z 2 == CSAMPLE_ZERO)%f32 = false.
Proof.
  apply (ramping_gain_divisor_nonzero (F32.of_Z 0) (F32.of_Z 1) 4 (F32.of_Z 2));
    [simpl; lia | left; reflexivity].
Defined.

(** ** Analysis and normalization *)

(** What [maxAbsAmplitude] computes: the running maximum starts from the
    first sample as it is and goes over the absolute values of the others. *)
Lemma maxAbsAmplitude_fold (first : CSAMPLE) (rest : list CSAMPLE) (n : SINT) :
  1 ≤ n ≤ Z.of_nat (length (first :: rest)) →
  maxAbsAmplitude (first :: rest) n =
  Some (fold_left max_abs_step (take (Z.to_nat (n - 1)) rest) first).
Proof.
  intros Hn. unfold maxAbsAmplitude. change (load (first :: rest) 0) with (Some first).
  simpl mbind.
  destruct (for_loop_inv
    (λ j max, max = fold_left max_abs_step (take (Z.to_nat (j - 1)) rest) first)
    1 n (λ i max, x ← load (first :: rest) i;
                  Some (if (F32.abs x > max)%f32 then F32.abs x else max)) first)
    as (m & Hm & ->); [lia | done | | done].
  intros j max Hj ->.
  destruct (load_is_Some (first :: rest) j) as [_ [x Hx]]; [lia|].
  rewrite Hx. simpl. eexists. split; [done|].
  replace (Z.to_nat (j + 1 - 1)) with (S (Z.to_nat (j - 1))) by lia.
  rewrite (take_S_r _ _ x), fold_left_app; [done|].
  unfold load in Hx. rewrite decide_True in Hx by lia.
  replace (Z.to_nat j) with (S (Z.to_nat (j - 1))) in Hx by lia. done.
Qed.

(** C1 (the code departs from it): [maxAbsAmplitude] is to return the largest
    absolute value of the samples, so never a negative number, and never less
    than the absolute value of the first sample.  The running maximum starts
    from the first sample itself, not from its absolute value: on the buffer
    [-1] the result is -1, which is negative and less than [|-1|]; on the
    buffer [-5, 1] the result is 1, less than [|-5|]. *)
Lemma maxAbsAmplitude_negative_first_sample :
  maxAbsAmplitude [F32.of_Z (-1)] 1 = Some (F32.of_Z (-1)) ∧
  (F32.of_Z (-1) < CSAMPLE_ZERO)%f32 = true ∧
  (F32.of_Z (-1) < F32.abs (F32.of_Z (-1)))%f32 = true ∧
  maxAbsAmplitude [F32.of_Z (-5); F32.of_Z 1] 2 = Some (F32.of_Z 1) ∧
  (F32.of_Z 1 < F32.abs (F32.of_Z (-5)))%f32 = true.
Proof. vm_compute. done. Qed.

(** C5 (the code departs from it): [copyWithRampingNormalization] is to
    return the target amplitude divided by the peak absolute amplitude of the
    mono fold.  With two output channels, unity gains and the source
    [-1, -1], the mono fold is [-1], of peak 1, so that the gain to return is
    1 / 1 = 1; the call returns -1, the target divided by the first sample of
    the fold, and leaves the source inverted in the destination.  The defect
    is the one of [maxAbsAmplitude]. *)
Lemma copyWithRampingNormalization_negative_first_sample :
  mixMultichannelToMono 2 [CSAMPLE_ZERO; CSAMPLE_ZERO] [F32.of_Z (-1); F32.of_Z (-1)] 2
    = Some [F32.of_Z (-1); CSAMPLE_ZERO] ∧
  copyWithRampingNormalization 2 [CSAMPLE_ZERO; CSAMPLE_ZERO] [F32.of_Z (-1); F32.of_Z (-1)]
      (F32.of_Z 1) (F32.of_Z 1) 2
    = Some ([F32.of_Z 1; F32.of_Z 1], F32.of_Z (-1)) ∧
  (F32.of_Z 1 / F32.abs (F32.of_Z (-1)))%f32 = F32.of_Z 1.
Proof. vm_compute. done. Qed.

(** ** Crossfade *)

Lemma crossfadeOutAt_spec p src idx mix x s :
  load p idx = Some x → load src idx = Some s →
  ∃ p', crossfadeOutAt p src idx mix = Some p' ∧ length p' = length p ∧
    load p' idx = Some (crossfadeOut_mix x s mix) ∧
    ∀ j, j ≠ idx → load p' j = load p j.
Proof.
  intros Hx Hs. unfold crossfadeOutAt.
  destruct (update_Some p idx (λ x, x * (CSAMPLE_GAIN_ONE - mix))%f32 x Hx)
    as (p1 & -> & Hl1 & He1 & Hn1).
  simpl. rewrite Hs. simpl.
  destruct (update_Some p1 idx (λ x, x + s * mix)%f32 _ He1)
    as (p2 & -> & Hl2 & He2 & Hn2).
  exists p2. split; [done|]. split; [congruence|]. split; [done|].
  intros j Hj. rewrite Hn2, Hn1 by done. done.
Qed.

Lemma crossfadeInAt_spec p src idx mix x s :
  load p idx = Some x → load src idx = Some s →
  ∃ p', crossfadeInAt p src idx mix = Some p' ∧ length p' = length p ∧
    load p' idx = Some (crossfadeIn_mix x s mix) ∧
    ∀ j, j ≠ idx → load p' j = load p j.
Proof.
  intros Hx Hs. unfold crossfadeInAt.
  destruct (update_Some p idx (λ x, x * mix)%f32 x Hx)
    as (p1 & -> & Hl1 & He1 & Hn1).
  simpl. rewrite Hs. simpl.
  destruct (update_Some p1 idx (λ x, x + s * (CSAMPLE_GAIN_ONE - mix))%f32 _ He1)
    as (p2 & -> & Hl2 & He2 & Hn2).
  exists p2. split; [done|]. split; [congruence|]. split; [done|].
  intros j Hj. rewrite Hn2, Hn1 by done. done.
Qed.

Section ChannelLoop.
(** A loop over the frames of a stereo buffer that rewrites one channel. *)
Variable src : list CSAMPLE.
Variable at_index : list CSAMPLE → list CSAMPLE → Z → CSAMPLE_GAIN → option (list CSAMPLE).
Variable mixed : CSAMPLE → CSAMPLE → CSAMPLE_GAIN → CSAMPLE.
Hypothesis at_index_spec : ∀ p idx mix x s,
  load p idx = Some x → load src idx = Some s →
  ∃ p', at_index p src idx mix = Some p' ∧ length p' = length p ∧
    load p' idx = Some (mixed x s mix) ∧
    ∀ j, j ≠ idx → load p' j = load p j.

Lemma channel_loop (mix : Z → CSAMPLE_GAIN) (index : Z → Z) (ch : Z) buf m :
  (∀ i, index i = 2 * i + ch) → 0 ≤ ch < 2 →
  2 * m ≤ Z.of_nat (length buf) → 2 * m ≤ Z.of_nat (length src) →
  ∃ p', for_loop 0 m (λ i p, at_index p src (index i) (mix i)) buf = Some p' ∧
    length p' = length buf ∧
    (∀ k, ¬ (0 ≤ k < 2 * m ∧ k = 2 * (k ÷ 2) + ch) → load p' k = load buf k) ∧
    (∀ k x s, 0 ≤ k < 2 * m → k = 2 * (k ÷ 2) + ch →
       load buf k = Some x → load src k = Some s →
       load p' k = Some (mixed x s (mix (k ÷ 2)))).
Proof.
  intros Hindex Hch Hbuf Hsrc.
  destruct (Z.le_gt_cases m 0) as [Hm0|Hm0].
  { rewrite for_loop_empty by done. exists buf.
    split; [done|]. split; [done|]. split; [done | intros; lia]. }
  destruct (for_loop_frames 2
    (λ k x y, if decide (k = 2 * (k ÷ 2) + ch)
              then ∃ s, load src k = Some s ∧ y = mixed x s (mix (k ÷ 2))
              else y = x) 0 m
    (λ i p, at_index p src (index i) (mix i)) buf)
    as (p' & Hp' & Hlen & Hout & Hin); [lia | lia | |].
  - intros i p Hi Hlen Hframe. rewrite Hindex.
    assert (Hq : (2 * i + ch) ÷ 2 = i).
    { destruct (decide (ch = 0)) as [->|]; [rewrite Z.add_0_r; apply quot2_even; lia|].
      replace ch with 1 by lia. apply quot2_odd. lia. }
    destruct (load_is_Some buf (2 * i + ch)) as [_ [x Hx]]; [lia|].
    destruct (load_is_Some src (2 * i + ch)) as [_ [s Hs]]; [lia|].
    destruct (at_index_spec p (2 * i + ch) (mix i) x s)
      as (p1 & Hp1 & Hl1 & He1 & Hn1); [by rewrite Hframe by lia | done |].
    exists p1. split; [done|]. split; [congruence|]. split.
    + intros k Hk. apply Hn1. lia.
    + intros k x' Hk Hx'. case_decide as Hkch.
      * assert (k = 2 * i + ch) as ->.
        { destruct (quot2_bounds k); lia. }
        exists (mixed x s (mix i)). split; [done|].
        exists s. rewrite Hq. split; [done|]. congruence.
      * exists x'. split; [|done]. rewrite Hn1, Hframe; [done | lia |].
        intros ->. rewrite Hq in Hkch. done.
  - exists p'. split; [done|]. split; [done|]. split.
    + intros k Hk.
      destruct (decide (0 ≤ k < 2 * m)) as [Hr|Hr]; [|apply Hout; lia].
      destruct (load_is_Some buf k) as [_ [x Hx]]; [lia|].
      destruct (Hin k x) as (y & Hy & HR); [lia | done |].
      rewrite decide_False in HR by tauto. congruence.
    + intros k x s Hk Hkch Hx Hs.
      destruct (Hin k x) as (y & Hy & HR); [lia | done |].
      rewrite decide_True in HR by done. destruct HR as (s' & Hs' & ->).
      congruence.
Qed.
End ChannelLoop.

Lemma stereo_crossfade_loops
    (at_index : list CSAMPLE → list CSAMPLE → Z → CSAMPLE_GAIN → option (list CSAMPLE))
    (mixed : CSAMPLE → CSAMPLE → CSAMPLE_GAIN → CSAMPLE)
    (src : list CSAMPLE) (mix : Z → CSAMPLE_GAIN) (buf : list CSAMPLE) (m : Z) :
  (∀ p idx mix x s,
    load p idx = Some x → load src idx = Some s →
    ∃ p', at_index p src idx mix = Some p' ∧ length p' = length p ∧
      load p' idx = Some (mixed x s mix) ∧
      ∀ j, j ≠ idx → load p' j = load p j) →
  0 ≤ m → 2 * m ≤ Z.of_nat (length buf) → 2 * m ≤ Z.of_nat (length src) →
  ∃ p', (p ← for_loop 0 m (λ i p, at_index p src (i * 2) (mix i)) buf;
         for_loop 0 m (λ i p, at_index p src (i * 2 + 1) (mix i)) p) = Some p' ∧
    length p' = length buf ∧
    (∀ k, ¬ (0 ≤ k < 2 * m) → load p' k = load buf k) ∧
    (∀ k x s, 0 ≤ k < 2 * m → load buf k = Some x → load src k = Some s →
       load p' k = Some (mixed x s (mix (k ÷ 2)))).
Proof.
  intros Hspec Hm Hbuf Hsrc.
  destruct (channel_loop src at_index mixed Hspec mix (λ i, i * 2) 0 buf m)
    as (p1 & Hp1 & Hl1 & Hout1 & Hin1); [intros; lia | lia | done | done |].
  destruct (channel_loop src at_index mixed Hspec mix (λ i, i * 2 + 1) 1 p1 m)
    as (p2 & Hp2 & Hl2 & Hout2 & Hin2); [intros; lia | lia | lia | done |].
  exists p2. rewrite Hp1. simpl. split; [done|]. split; [congruence|]. split.
  - intros k Hk. rewrite Hout2, Hout1 by tauto. done.
  - intros k x s Hk Hx Hs.
    destruct (decide (k = 2 * (k ÷ 2) + 1)) as [Hodd|Heven].
    + apply Hin2; [done | done | | done]. rewrite Hout1; [done|]. lia.
    + rewrite Hout2 by tauto. apply Hin1; [done | | done | done].
      destruct (quot2_bounds k); lia.
Qed.

(** C3 does not hold as worded: fading the stereo frame [1, 1] out into
    [0, 0] leaves [1, 1], the mix of the only frame being 0; the reference
    [mix * A + (1 - mix) * B] of the claim is 0 there.  The weights of the
    reference are swapped. *)
Lemma crossfade_weights_swapped :
  linearCrossfadeBuffersOut [F32.of_Z 1; F32.of_Z 1] [F32.of_Z 0; F32.of_Z 0] 2 ChannelCount_stereo
    = Some [F32.of_Z 1; F32.of_Z 1] ∧
  ¬ crossfade_complement_claim [F32.of_Z 1; F32.of_Z 1] [F32.of_Z 0; F32.of_Z 0] 2.
Proof.
  split; [reflexivity|].
  intros (p_out & p_in & Hout & _ & H).
  vm_compute in Hout. injection Hout as <-.
  destruct (H 0 (F32.of_Z 1) (F32.of_Z 0)) as [_ H0]; [lia | reflexivity | reflexivity |].
  vm_compute in H0. discriminate.
Qed.

(** C3, amended: for all stereo buffers [A] and [B] of the same even length
    [n], [linearCrossfadeBuffersOut] on [A] with [B] to fade in and
    [linearCrossfadeBuffersIn] on [B] with [A] to fade out leave the same
    samples, and in frame [i] these are [A * (1 - mix) + B * mix] with
    [mix = (1 / (n / 2)) * i], each operation rounded to single precision:
    the buffer that fades out has the weight [1 - mix]. *)
Theorem linearCrossfade_stereo_complement (A B : list CSAMPLE) (n : SINT) :
  Z.even n = true → 0 ≤ n →
  Z.of_nat (length A) = n → Z.of_nat (length B) = n →
  ∃ p,
    linearCrossfadeBuffersOut A B n ChannelCount_stereo = Some p ∧
    linearCrossfadeBuffersIn B A n ChannelCount_stereo = Some p ∧
    ∀ k a b, 0 ≤ k < n → load A k = Some a → load B k = Some b →
      let mix := stereo_cross_mix n (k ÷ 2) in
      load p k = Some (a * (CSAMPLE_GAIN_ONE - mix) + b * mix)%f32.
Proof.
  intros Heven Hn HA HB.
  assert (Hq : 2 * (n ÷ 2) = n).
  { rewrite Z.quot_div_nonneg by lia.
    pose proof (Z.div_mod n 2). rewrite Zmod_even, Heven in H. lia. }
  destruct (stereo_crossfade_loops crossfadeOutAt crossfadeOut_mix B
              (stereo_cross_mix n) A (n ÷ 2))
    as (p & Hp & Hlp & Houtp & Hinp); [intros; by apply crossfadeOutAt_spec | lia | lia | lia |].
  destruct (stereo_crossfade_loops crossfadeInAt crossfadeIn_mix A
              (stereo_cross_mix n) B (n ÷ 2))
    as (q & Hq' & Hlq & Houtq & Hinq); [intros; by apply crossfadeInAt_spec | lia | lia | lia |].
  assert (p = q) as <-.
  { apply buffer_ext. intros k.
    destruct (decide (0 ≤ k < n)) as [Hk|Hk].
    - destruct (load_is_Some A k) as [_ [a Ha]]; [lia|].
      destruct (load_is_Some B k) as [_ [b Hb]]; [lia|].
      rewrite (Hinp k a b), (Hinq k b a) by (done || lia).
      unfold crossfadeOut_mix, crossfadeIn_mix. f_equal. apply F32Facts.add_comm.
    - rewrite (proj2 (load_None p k)), (proj2 (load_None q k)) by lia. done. }
  exists p. split; [exact Hp|]. split; [exact Hq'|].
  intros k a b Hk Ha Hb. apply (Hinp k a b); [lia | done | done].
Qed.

Lemma linearCrossfade_stereo_complement_witness :
  ∃ p,
    linearCrossfadeBuffersOut [F32.of_Z 1; F32.of_Z 1] [F32.of_Z 0; F32.of_Z 0] 2
      ChannelCount_stereo = Some p ∧
    linearCrossfadeBuffersIn [F32.of_Z 0; F32.of_Z 0] [F32.of_Z 1; F32.of_Z 1] 2
      ChannelCount_stereo = Some p.
Proof.
  destruct (linearCrossfade_stereo_complement
              [F32.of_Z 1; F32.of_Z 1] [F32.of_Z 0; F32.of_Z 0] 2)
    as (p & Hout & Hin & _); [reflexivity | lia | reflexivity | reflexivity |].
  exists p. split; [exact Hout | exact Hin].
Defined.

(** ** Mixdown to stereo *)

(** C9: on every source, frame count and channel count that pass the
    assertions of both overloads, [mixMultichannelToStereo] with the mask 0
    gives the destination the contents that the overload without a mask
    gives it. *)
Theorem mixMultichannelToStereo_mask_zero (pDest pSrc : list CSAMPLE) (numFrames : SINT)
    (numChannels : Z) :
  mixMultichannelToStereo_asserts numChannels = true →
  mixMultichannelToStereo_masked_asserts numChannels = true →
  mixMultichannelToStereo_masked pDest pSrc numFrames numChannels 0 =
  mixMultichannelToStereo pDest pSrc numFrames numChannels.
Proof.
  intros _ Hmasked. unfold mixMultichannelToStereo_masked_asserts in Hmasked.
  apply andb_true_iff in Hmasked as [_ Hstems]. apply Z.ltb_lt in Hstems.
  unfold mixMultichannelToStereo_masked, mixMultichannelToStereo.
  destruct (clear pDest (numFrames * ChannelCount_stereo)) as [p|]; [simpl | done].
  apply for_loop_ext. intros stemIdx p' Hstem.
  unfold int_shr. rewrite decide_True by lia. simpl.
  rewrite Z.shiftr_0_l. simpl. done.
Qed.

Lemma mixMultichannelToStereo_mask_zero_witness :
  mixMultichannelToStereo_masked [CSAMPLE_ZERO; CSAMPLE_ZERO]
    [F32.of_Z 1; F32.of_Z 2; F32.of_Z 3; F32.of_Z 4] 1 4 0 =
  mixMultichannelToStereo [CSAMPLE_ZERO; CSAMPLE_ZERO]
    [F32.of_Z 1; F32.of_Z 2; F32.of_Z 3; F32.of_Z 4] 1 4.
Proof. apply mixMultichannelToStereo_mask_zero; reflexivity. Defined.

(** ** Conversion *)

Lemma forall_from_spec bits base P z :
  forall_from bits base P = true → base ≤ z < base + 2 ^ Z.of_nat bits → P z = true.
Proof.
  revert base. induction bits as [|bits IH]; intros base H Hz.
  - simpl in *. by replace z with base by lia.
  - cbn [forall_from] in H. apply andb_true_iff in H as [H1 H2].
    rewrite Nat2Z.inj_succ, Z.pow_succ_r in Hz by lia.
    destruct (decide (z < base + 2 ^ Z.of_nat bits)).
    + apply (IH base); [done | lia].
    + apply (IH (base + 2 ^ Z.of_nat bits)); [done | lia].
Qed.

Lemma roundtrip_all : forall_from 16 SAMPLE_MINIMUM roundtrip_ok = true.
Proof. vm_compute. reflexivity. Qed.

Lemma roundtrip_sample s :
  SAMPLE_MINIMUM ≤ s ≤ SAMPLE_MAXIMUM → Float32ToS16 (S16ToFloat32 s) = Some s.
Proof.
  intros Hs. pose proof (forall_from_spec _ _ _ s roundtrip_all) as H.
  unfold roundtrip_ok in H.
  destruct (Float32ToS16 (S16ToFloat32 s)) as [s'|].
  - f_equal. apply Z.eqb_eq, H. unfold SAMPLE_MINIMUM, SAMPLE_MAXIMUM in *. simpl. lia.
  - discriminate H. unfold SAMPLE_MINIMUM, SAMPLE_MAXIMUM in *. simpl. lia.
Qed.

Section StoreLoop.
Context {A B : Type}.

(** A loop that writes to [dest[i]] a value computed from [src[i]]. *)
Lemma store_loop (g : B → option A) (src : list B) (dest : list A) n :
  n ≤ Z.of_nat (length dest) → n ≤ Z.of_nat (length src) →
  (∀ k s, 0 ≤ k < n → load src k = Some s → is_Some (g s)) →
  ∃ p', for_loop 0 n (λ i p, s ← load src i; v ← g s; store p i v) dest = Some p' ∧
    length p' = length dest ∧
    (∀ k, ¬ (0 ≤ k < n) → load p' k = load dest k) ∧
    (∀ k s, 0 ≤ k < n → load src k = Some s → load p' k = g s).
Proof.
  intros Hdest Hsrc Hg.
  destruct (Z.le_gt_cases n 0) as [Hn0|Hn0].
  { rewrite for_loop_empty by done. exists dest.
    split; [done|]. split; [done|]. split; [done | intros; lia]. }
  destruct (for_loop_frames 1 (λ k _ y, ∃ s, load src k = Some s ∧ g s = Some y) 0 n
    (λ i p, s ← load src i; v ← g s; store p i v) dest)
    as (p' & Hp' & Hlen & Hout & Hin); [lia | lia | |].
  - intros i p Hi Hlen _.
    destruct (load_is_Some src i) as [_ [s Hs]]; [lia|].
    destruct (Hg i s) as [v Hv]; [lia | done |].
    destruct (store_is_Some p i v) as [p1 Hp1]; [lia|].
    exists p1. rewrite Hs. simpl. rewrite Hv. simpl. split; [done|].
    apply store_Some in Hp1 as (Hl1 & He1 & Hn1).
    split; [congruence|]. split.
    + intros k Hk. apply Hn1. lia.
    + intros k x Hk _. replace k with i by lia. eauto.
  - exists p'. split; [done|]. split; [done|]. split; [intros; apply Hout; lia|].
    intros k s Hk Hs.
    destruct (load_is_Some dest k) as [_ [x Hx]]; [lia|].
    destruct (Hin k x) as (y & Hy & s' & Hs' & Hgs); [lia | done |].
    congruence.
Qed.
End StoreLoop.

(** C4: for fixed-point samples from -32768 to 32767, [convertS16ToFloat32]
    (a division by 32768) followed by [convertFloat32ToS16] (a multiplication
    by 32768, clamped and truncated) gives the samples back; -32768 goes to
    -1.0 and back, and the float 1.0 is clamped to 32767. *)
Theorem convert_roundtrip (pSrc : list SAMPLE) (pFloat : list CSAMPLE) (pDest : list SAMPLE)
    (numSamples : SINT) :
  Z.of_nat (length pSrc) = numSamples →
  Z.of_nat (length pFloat) = numSamples →
  Z.of_nat (length pDest) = numSamples →
  Forall (λ s, SAMPLE_MINIMUM ≤ s ≤ SAMPLE_MAXIMUM) pSrc →
  (∃ pFloat',
     convertS16ToFloat32 pFloat pSrc numSamples = Some pFloat' ∧
     (∀ k s, load pSrc k = Some s → load pFloat' k = Some (S16ToFloat32 s)) ∧
     convertFloat32ToS16 pDest pFloat' numSamples = Some pSrc) ∧
  S16ToFloat32 SAMPLE_MINIMUM = F32.of_Z (-1) ∧
  Float32ToS16 (F32.of_Z (-1)) = Some SAMPLE_MINIMUM ∧
  convertFloat32ToS16 [0] [F32.of_Z 1] 1 = Some [SAMPLE_MAXIMUM].
Proof.
  intros Hsrc Hfloat Hdest Hall.
  assert (Hrange : ∀ k s, load pSrc k = Some s → SAMPLE_MINIMUM ≤ s ≤ SAMPLE_MAXIMUM).
  { intros k s Hs. rewrite Forall_forall in Hall. apply Hall.
    unfold load in Hs. case_decide; [|done]. by eapply list_elem_of_lookup_2. }
  split; [|by vm_compute].
  destruct (store_loop (λ s, Some (S16ToFloat32 s)) pSrc pFloat numSamples)
    as (f & Hf & Hlf & _ & Hinf); [lia | lia | by eauto |].
  destruct (store_loop Float32ToS16 f pDest numSamples)
    as (r & Hr & Hlr & _ & Hinr); [lia | lia | |].
  { intros k x Hk Hx.
    destruct (load_is_Some pSrc k) as [_ [s Hs]]; [lia|].
    rewrite (Hinf k s) in Hx by done. injection Hx as <-.
    rewrite roundtrip_sample by eauto. done. }
  exists f. split; [exact Hf|]. split.
  { intros k s Hs. apply Hinf; [|done]. apply mk_is_Some, load_is_Some in Hs. lia. }
  assert (r = pSrc) as <-; [|exact Hr].
  apply buffer_ext. intros k.
  destruct (decide (0 ≤ k < numSamples)) as [Hk|Hk].
  - destruct (load_is_Some pSrc k) as [_ [s Hs]]; [lia|].
    rewrite (Hinr k (S16ToFloat32 s)), Hs by eauto.
    apply roundtrip_sample. eauto.
  - rewrite (proj2 (load_None r k)), (proj2 (load_None pSrc k)) by lia. done.
Qed.

Lemma convert_roundtrip_witness :
  ∃ pFloat',
    convertS16ToFloat32 [CSAMPLE_ZERO; CSAMPLE_ZERO; CSAMPLE_ZERO] [-32768; 12345; 32767] 3
      = Some pFloat' ∧
    convertFloat32ToS16 [0; 0; 0] pFloat' 3 = Some [-32768; 12345; 32767].
Proof.
  destruct (convert_roundtrip [-32768; 12345; 32767]
              [CSAMPLE_ZERO; CSAMPLE_ZERO; CSAMPLE_ZERO] [0; 0; 0] 3)
    as [(pFloat' & Hfloat & _ & Hback) _];
    [reflexivity | reflexivity | reflexivity | |].
  - repeat constructor; discriminate.
  - exists pFloat'. split; [exact Hfloat | exact Hback].
Defined.





(** ** Mixdown *)

Lemma accumulate_loop (src p : list CSAMPLE) (i start C : Z) (x0 : CSAMPLE) :
  0 ≤ start → start + C ≤ Z.of_nat (length src) → load p i = Some x0 →
  ∃ p', for_loop 0 C (λ ch p, s ← load src (start + ch); update p i (λ x, x + s)%f32) p
          = Some p' ∧
    length p' = length p ∧
    load p' i = Some (fold_left F32.add (take (Z.to_nat C) (drop (Z.to_nat start) src)) x0) ∧
    ∀ j, j ≠ i → load p' j = load p j.
Proof.
  intros Hstart Hlen Hx0.
  destruct (Z.le_gt_cases C 0) as [HC|HC].
  { rewrite for_loop_empty by done. exists p.
    replace (Z.to_nat C) with O by lia. simpl. done. }
  destruct (for_loop_inv
    (λ ch q, length q = length p ∧
       load q i = Some (fold_left F32.add (take (Z.to_nat ch) (drop (Z.to_nat start) src)) x0) ∧
       ∀ j, j ≠ i → load q j = load p j)
    0 C (λ ch p, s ← load src (start + ch); update p i (λ x, x + s)%f32) p)
    as (p' & Hp' & HI); [lia | done | | by eauto].
  intros ch q Hch (Hlq & Hq & Hother).
  destruct (load_is_Some src (start + ch)) as [_ [s Hs]]; [lia|].
  destruct (update_Some q i (λ x, x + s)%f32 _ Hq) as (q' & Hq' & Hlq' & Heq' & Hne').
  exists q'. rewrite Hs. simpl. split; [done|]. split; [congruence|]. split.
  - rewrite Heq'. f_equal.
    replace (Z.to_nat (ch + 1)) with (S (Z.to_nat ch)) by lia.
    rewrite (take_S_r _ _ s), fold_left_app; [done|].
    rewrite lookup_drop. unfold load in Hs. rewrite decide_True in Hs by lia.
    rewrite <- Hs. f_equal. lia.
  - intros j Hj. rewrite Hne' by done. by apply Hother.
Qed.

Lemma mixMultichannelToMono_frames (C : Z) (dest src : list CSAMPLE) (n : SINT) :
  0 < C → n ≤ Z.of_nat (length src) → n ÷ C ≤ Z.of_nat (length dest) →
  ∃ p', mixMultichannelToMono C dest src n = Some p' ∧
    length p' = length dest ∧
    (∀ i, 0 ≤ i < n ÷ C →
       load p' i = Some (frame_sum (frame C src i) * mixScale C)%f32) ∧
    (∀ i, ¬ (0 ≤ i < n ÷ C) → load p' i = load dest i).
Proof.
  intros HC Hsrc Hdest. unfold mixMultichannelToMono.
  rewrite decide_False by lia. fold (mixScale C).
  destruct (Z.le_gt_cases (n ÷ C) 0) as [Hq|Hq].
  { rewrite for_loop_empty by done. exists dest.
    split; [done|]. split; [done|]. split; [intros; lia | done]. }
  assert (Hn : 0 ≤ n).
  { destruct (Z.le_gt_cases 0 n); [done|].
    pose proof (Z.quot_opp_l n C). pose proof (Z.quot_pos (- n) C). lia. }
  assert (Hframes : C * (n ÷ C) ≤ n).
  { rewrite Z.quot_div_nonneg by lia. apply Z.mul_div_le. lia. }
  destruct (for_loop_frames 1
    (λ k _ y, y = (frame_sum (frame C src k) * mixScale C)%f32) 0 (n ÷ C)
    (λ i p,
      p ← store p i CSAMPLE_ZERO;
      p ← for_loop 0 C (λ ch p,
             s ← load src (i * C + ch); update p i (λ x, x + s)%f32) p;
      update p i (λ x, x * mixScale C)%f32) dest)
    as (p' & Hp' & Hlen & Hout & Hin); [lia | lia | |].
  - intros i p Hi Hlp _.
    destruct (store_is_Some p i CSAMPLE_ZERO) as [p1 Hp1]; [lia|].
    rewrite Hp1. simpl. apply store_Some in Hp1 as (Hl1 & He1 & Hn1).
    destruct (accumulate_loop src p1 i (i * C) C CSAMPLE_ZERO)
      as (p2 & Hp2 & Hl2 & He2 & Hn2); [nia | nia | done |].
    rewrite Hp2. simpl.
    destruct (update_Some p2 i (λ x, x * mixScale C)%f32 _ He2)
      as (p3 & Hp3 & Hl3 & He3 & Hn3).
    exists p3. split; [done|]. split; [congruence|]. split.
    + intros k Hk. rewrite Hn3, Hn2, Hn1 by lia. done.
    + intros k x Hk _. replace k with i by lia. eauto.
  - exists p'. split; [done|]. split; [done|]. split; [|intros; apply Hout; lia].
    intros i Hi.
    destruct (load_is_Some dest i) as [_ [x Hx]]; [lia|].
    destruct (Hin i x) as (y & Hy & ->); [lia | done | done].
Qed.

(** Half the sum of a number with itself is the number, when the sum does
    not overflow; the sum starts from +0, so that -0 is not given back. *)
Lemma stereo_mean_of_equal (v : CSAMPLE) :
  F32.valid v = true → double_fits v = true → v ≠ S754_zero true →
  (frame_sum [v; v] * f32_half)%f32 = v.
Proof.
  intros Hvalid Hfits Hzero. unfold frame_sum. simpl fold_left.
  destruct v as [[]| [] | |s m e]; try done.
  simpl in Hfits. apply Z.leb_le in Hfits.
  change (CSAMPLE_ZERO + S754_finite s m e)%f32 with (S754_finite s m e).
  rewrite Exact.add_self by done. by apply Exact.half_of_double.
Qed.

Lemma stereo_mean_of_zeros (s0 s1 : bool) :
  (frame_sum [S754_zero s0; S754_zero s1] * f32_half)%f32 = CSAMPLE_ZERO.
Proof. by destruct s0, s1. Qed.

(** C6 does not hold as worded: with two output channels, the frame whose
    channels both are the largest finite float is mixed to +infinity, not to
    that float, for the sum overflows before it is scaled; and with three
    output channels the frame [5, 0, 0] is mixed to [5 * (1 / 3)], which is
    one unit in the last place above [5 / 3]. *)
Lemma mixdown_overflows_and_rounds :
  mixMultichannelToMono 2 [CSAMPLE_ZERO] [f32_max; f32_max] 2 = Some [S754_infinity false] ∧
  ¬ mixdown_mean_claim 2 [CSAMPLE_ZERO] [f32_max; f32_max] 2 ∧
  ¬ mixdown_mean_claim 3 [CSAMPLE_ZERO] [F32.of_Z 5; CSAMPLE_ZERO; CSAMPLE_ZERO] 3.
Proof.
  split; [reflexivity|]. split.
  - intros (p' & Hp' & H). vm_compute in Hp'. injection Hp' as <-.
    destruct (H 0) as (_ & _ & Heq); [done|].
    specialize (Heq f32_max). discriminate Heq.
    repeat constructor.
  - intros (p' & Hp' & H). vm_compute in Hp'. injection Hp' as <-.
    destruct (H 0) as (Hmean & _); [done|].
    vm_compute in Hmean. discriminate.
Qed.

(** C6, amended: for every positive channel count [C], every source of at
    least [numSamples] samples and every destination of at least
    [numSamples / C], [mixMultichannelToMono] writes for each frame [i]
    [dest[i] = (0 + src[i*C] + ... + src[i*C + C-1]) * (1 / C)], each
    operation rounded to single precision, and leaves the rest of the
    destination alone.  With two output channels the scale is exactly one
    half and the value written is [(0 + src[2*i] + src[2*i + 1]) / 2], the
    mean of the frame in single precision; a frame of zeros gives 0, and a
    frame whose channels both are [v] gives [v], for every [v] other than -0
    whose double is not beyond the largest finite float. *)
Theorem mixMultichannelToMono_mean (C : Z) (dest src : list CSAMPLE) (n : SINT) :
  0 < C → n ≤ Z.of_nat (length src) → n ÷ C ≤ Z.of_nat (length dest) →
  ∃ p', mixMultichannelToMono C dest src n = Some p' ∧
    length p' = length dest ∧
    (∀ i, ¬ (0 ≤ i < n ÷ C) → load p' i = load dest i) ∧
    (∀ i, 0 ≤ i < n ÷ C →
       load p' i = Some (frame_sum (frame C src i) * mixScale C)%f32) ∧
    (C = 2 →
     mixScale C = f32_half ∧
     ∀ i, 0 ≤ i < n ÷ C →
       (∀ x y, frame C src i = [x; y] → F32.valid x = true → F32.valid y = true →
               load p' i = Some (frame_sum [x; y] / F32.of_Z C)%f32) ∧
       (∀ s0 s1, frame C src i = [S754_zero s0; S754_zero s1] →
                 load p' i = Some CSAMPLE_ZERO) ∧
       (∀ v, frame C src i = [v; v] →
             F32.valid v = true → double_fits v = true → v ≠ S754_zero true →
             load p' i = Some v)).
Proof.
  intros HC Hsrc Hdest.
  destruct (mixMultichannelToMono_frames C dest src n HC Hsrc Hdest)
    as (p' & Hp' & Hlen & Hin & Hout).
  exists p'. split; [done|]. split; [done|]. split; [done|]. split; [done|].
  intros ->. split; [reflexivity|]. intros i Hi. rewrite (Hin i Hi).
  change (mixScale 2) with f32_half. split; [|split].
  - intros x y -> Hx Hy. rewrite Halving.mul_half_div_two; [done|].
    unfold frame_sum. simpl fold_left. by repeat apply Valid.add_valid.
  - intros s0 s1 ->. by rewrite stereo_mean_of_zeros.
  - intros v -> Hvalid Hfits Hzero. by rewrite stereo_mean_of_equal.
Qed.

Lemma mixMultichannelToMono_mean_witness :
  ∃ p', mixMultichannelToMono 2 [CSAMPLE_ZERO] [F32.of_Z 3; F32.of_Z 3] 2 = Some p' ∧
    load p' 0 = Some (F32.of_Z 3).
Proof.
  destruct (mixMultichannelToMono_mean 2 [CSAMPLE_ZERO] [F32.of_Z 3; F32.of_Z 3] 2)
    as (p' & Hp' & _ & _ & _ & Hstereo); [lia | by vm_compute | by vm_compute |].
  exists p'. split; [exact Hp'|].
  destruct (Hstereo eq_refl) as [_ H]. destruct (H 0) as (_ & _ & Hv); [done|].
  apply Hv; [reflexivity | reflexivity | reflexivity | discriminate].
Defined.


(** * The other operations of the file *)

(** ** Writes to a buffer, computed *)

Section Writes.
Context {A : Type}.
Implicit Types (p : list A) (i k : Z).

Lemma store_insert p i v :
  0 ≤ i < Z.of_nat (length p) → store p i v = Some (<[Z.to_nat i := v]> p).
Proof. intros. unfold store. case_decide; [done | lia]. Qed.

Lemma load_insert p i v k :
  0 ≤ i < Z.of_nat (length p) →
  load (<[Z.to_nat i := v]> p) k = if decide (k = i) then Some v else load p k.
Proof.
  intros Hi. destruct (store_Some p i v _ (store_insert p i v Hi)) as (_ & Heq & Hne).
  case_decide as Hk; [by subst | by apply Hne].
Qed.

Lemma load_in p i : 0 ≤ i < Z.of_nat (length p) → ∃ x, load p i = Some x.
Proof. intros Hi. by apply load_is_Some in Hi as [x Hx]; eauto. Qed.

Lemma update_insert p i f x :
  load p i = Some x → update p i f = Some (<[Z.to_nat i := f x]> p).
Proof.
  intros Hx. unfold update. rewrite Hx. simpl. apply store_insert.
  apply load_is_Some. eauto.
Qed.

(** A loop whose iteration [i] writes the [c] samples of frame [i] and
    nothing else; [val i j] is what it writes to sample [j] of the frame.  The
    iteration may read the frame, which it finds as it was before the loop. *)
Lemma frame_loop (c : Z) (val : Z → Z → option A) lo hi
    (body : Z → list A → option (list A)) (buf : list A) :
  0 < c →
  (∀ i p, lo ≤ i < hi → length p = length buf →
     (∀ j, 0 ≤ j < c → load p (c * i + j) = load buf (c * i + j)) →
     ∃ p', body i p = Some p' ∧ length p' = length buf ∧
       (∀ k, ¬ (c * i ≤ k < c * i + c) → load p' k = load p k) ∧
       (∀ j, 0 ≤ j < c → load p' (c * i + j) = val i j)) →
  ∃ p', for_loop lo hi body buf = Some p' ∧ length p' = length buf ∧
    (∀ k, ¬ (c * lo ≤ k < c * hi) → load p' k = load buf k) ∧
    (∀ i j, lo ≤ i < hi → 0 ≤ j < c → load p' (c * i + j) = val i j).
Proof.
  intros Hc Hbody.
  destruct (Z.le_gt_cases hi lo) as [Hle|Hlt].
  { rewrite for_loop_empty by done. exists buf. repeat split; try done; intros; lia. }
  pose (I := λ (n : Z) p, length p = length buf ∧
    (∀ k, ¬ (c * lo ≤ k < c * n) → load p k = load buf k) ∧
    (∀ i j, lo ≤ i < n → 0 ≤ j < c → load p (c * i + j) = val i j)).
  destruct (for_loop_inv I lo hi body buf) as (p' & Hp' & HI); [lia | | | by eauto].
  - split; [done|]. split; [done|]. intros; lia.
  - intros i p Hi (Hlen & Hout & Hin).
    destruct (Hbody i p Hi Hlen) as (p' & Hp' & Hlen' & Hout' & Hin').
    { intros j Hj. apply Hout. nia. }
    exists p'. split; [done|]. split; [done|]. split.
    + intros k Hk. rewrite Hout' by nia. apply Hout. nia.
    + intros i' j Hi' Hj. destruct (decide (i' = i)) as [->|Hne]; [by apply Hin'|].
      rewrite Hout' by nia. apply Hin; [lia | done].
Qed.
End Writes.

Section DownLoops.
Context {S : Type}.
Implicit Types (body : Z → S → option S) (I : Z → S → Prop).

(** [I n] holds before the loop, and an iteration with index [i] takes
    [I (i + 1)] to [I i]. *)
Lemma while_down_inv I (count : nat) body s :
  I (Z.of_nat count) s →
  (∀ i s, 0 ≤ i < Z.of_nat count → I (i + 1) s → ∃ s', body i s = Some s' ∧ I i s') →
  ∃ s', while_down count body s = Some s' ∧ I 0 s'.
Proof.
  revert s. induction count as [|count IH]; intros s Hs Hbody.
  - exists s. done.
  - destruct (Hbody (Z.of_nat count) s) as (s1 & Hs1 & HI1); [lia | |].
    { by replace (Z.of_nat count + 1) with (Z.of_nat (Datatypes.S count)) by lia. }
    destruct (IH s1) as (s2 & Hs2 & HI2); [done | |].
    { intros i s' Hi. apply Hbody. lia. }
    exists s2. simpl. rewrite Hs1. done.
Qed.
End DownLoops.

(** Runs the stores of a loop body whose loads are known. *)
Ltac run_stores :=
  repeat first
    [ rewrite store_insert by (rewrite ?length_insert; lia)
    | progress simpl ].

Ltac loads_of_inserts :=
  repeat (rewrite load_insert by (rewrite ?length_insert; lia));
  repeat case_decide; try lia; try done.

(** ** Interleaving *)

Lemma interleaveBuffer_frames (dest s1 s2 : list CSAMPLE) (F : SINT) :
  2 * F ≤ Z.of_nat (length dest) → F ≤ Z.of_nat (length s1) → F ≤ Z.of_nat (length s2) →
  ∃ p', interleaveBuffer dest s1 s2 F = Some p' ∧ length p' = length dest ∧
    (∀ k, ¬ (0 ≤ k < 2 * F) → load p' k = load dest k) ∧
    (∀ i, 0 ≤ i < F → load p' (2 * i) = load s1 i ∧ load p' (2 * i + 1) = load s2 i).
Proof.
  intros Hd H1 H2. unfold interleaveBuffer.
  destruct (frame_loop 2 (λ i j, if decide (j = 0) then load s1 i else load s2 i) 0 F
    (λ i p, x ← load s1 i; p ← store p (2 * i) x; y ← load s2 i; store p (2 * i + 1) y) dest)
    as (p' & Hp' & Hlen & Hout & Hin); [lia | |].
  - intros i p Hi Hlen _.
    destruct (load_in s1 i) as [x Hx]; [lia|]. destruct (load_in s2 i) as [y Hy]; [lia|].
    rewrite Hx, Hy. run_stores. eexists. split; [done|].
    split; [by rewrite !length_insert|]. split.
    + intros k Hk. loads_of_inserts.
    + intros j Hj. loads_of_inserts.
  - exists p'. split; [done|]. split; [done|]. split; [intros k Hk; apply Hout; lia|].
    intros i Hi. split.
    + replace (2 * i) with (2 * i + 0) by lia. by rewrite Hin by lia.
    + by rewrite Hin by lia.
Qed.

Lemma deinterleaveBuffer_frames (d1 d2 src : list CSAMPLE) (F : SINT) :
  F ≤ Z.of_nat (length d1) → F ≤ Z.of_nat (length d2) → 2 * F ≤ Z.of_nat (length src) →
  ∃ p1 p2, deinterleaveBuffer d1 d2 src F = Some (p1, p2) ∧
    length p1 = length d1 ∧ length p2 = length d2 ∧
    (∀ k, ¬ (0 ≤ k < F) → load p1 k = load d1 k ∧ load p2 k = load d2 k) ∧
    (∀ i, 0 ≤ i < F → load p1 i = load src (2 * i) ∧ load p2 i = load src (2 * i + 1)).
Proof.
  intros H1 H2 Hs. unfold deinterleaveBuffer.
  destruct (Z.le_gt_cases F 0) as [HF|HF].
  { rewrite for_loop_empty by done. exists d1, d2. repeat split; try done; intros; lia. }
  pose (I := λ (n : Z) (s : list CSAMPLE * list CSAMPLE),
    length s.1 = length d1 ∧ length s.2 = length d2 ∧
    (∀ k, ¬ (0 ≤ k < n) → load s.1 k = load d1 k ∧ load s.2 k = load d2 k) ∧
    (∀ i, 0 ≤ i < n → load s.1 i = load src (2 * i) ∧ load s.2 i = load src (2 * i + 1))).
  edestruct (for_loop_inv I 0 F) as ([p1 p2] & Hp' & HI); [| | | rewrite Hp'; by eauto].
  - lia.
  - repeat split; try done; intros; lia.
  - intros i [p1 p2] Hi (Hl1 & Hl2 & Hout & Hin). simpl in *.
    destruct (load_in src (i * 2)) as [x Hx]; [lia|].
    destruct (load_in src (i * 2 + 1)) as [y Hy]; [lia|].
    rewrite Hx, Hy. run_stores. eexists. split; [done|]. unfold I. simpl.
    split; [by rewrite length_insert|]. split; [by rewrite length_insert|]. split.
    + intros k Hk. destruct (Hout k) as [E1 E2]; [lia|]. rewrite <- E1, <- E2. loads_of_inserts.
    + intros k Hk. replace (i * 2) with (2 * i) in * by lia.
      replace (2 * i + 1) with (2 * i + 1) in * by lia.
      destruct (decide (k = i)) as [->|Hne].
      * rewrite !load_insert by lia. rewrite !decide_True by done.
        replace (i * 2 + 1) with (2 * i + 1) in Hy by lia. done.
      * rewrite !load_insert by lia. rewrite !decide_False by done. apply Hin. lia.
Qed.

(** X1.  Deinterleaving what [interleaveBuffer] wrote gives back the two
    channels: the first [numFrames] samples of the two destinations of
    [deinterleaveBuffer] are those of the two sources of [interleaveBuffer],
    and the rest of each destination is as it was. *)
Theorem interleave_then_deinterleave (pDest pSrc1 pSrc2 pDest1 pDest2 : list CSAMPLE)
    (numFrames : SINT) :
  2 * numFrames ≤ Z.of_nat (length pDest) →
  numFrames ≤ Z.of_nat (length pSrc1) → numFrames ≤ Z.of_nat (length pSrc2) →
  numFrames ≤ Z.of_nat (length pDest1) → numFrames ≤ Z.of_nat (length pDest2) →
  ∃ p p1 p2,
    interleaveBuffer pDest pSrc1 pSrc2 numFrames = Some p ∧
    deinterleaveBuffer pDest1 pDest2 p numFrames = Some (p1, p2) ∧
    (∀ i, 0 ≤ i < numFrames → load p1 i = load pSrc1 i ∧ load p2 i = load pSrc2 i) ∧
    (∀ i, ¬ (0 ≤ i < numFrames) → load p1 i = load pDest1 i ∧ load p2 i = load pDest2 i).
Proof.
  intros Hd Hs1 Hs2 Hd1 Hd2.
  destruct (interleaveBuffer_frames pDest pSrc1 pSrc2 numFrames)
    as (p & Hp & Hlen & _ & Hin); [done..|].
  destruct (deinterleaveBuffer_frames pDest1 pDest2 p numFrames)
    as (p1 & p2 & Hp12 & _ & _ & Hout' & Hin'); [lia..|].
  exists p, p1, p2. split; [done|]. split; [done|]. split; [|done].
  intros i Hi. destruct (Hin' i Hi) as [-> ->]. by apply Hin.
Qed.

Lemma interleave_then_deinterleave_witness :
  ∃ p p1 p2,
    interleaveBuffer (replicate 4 CSAMPLE_ZERO) [F32.of_Z 1; F32.of_Z 2] [F32.of_Z 3; F32.of_Z 4] 2
      = Some p ∧
    deinterleaveBuffer [CSAMPLE_ZERO; CSAMPLE_ZERO] [CSAMPLE_ZERO; CSAMPLE_ZERO] p 2 = Some (p1, p2) ∧
    (∀ i, 0 ≤ i < 2 → load p1 i = load [F32.of_Z 1; F32.of_Z 2] i ∧
                       load p2 i = load [F32.of_Z 3; F32.of_Z 4] i) ∧
    (∀ i, ¬ (0 ≤ i < 2) → load p1 i = load [CSAMPLE_ZERO; CSAMPLE_ZERO] i ∧
                          load p2 i = load [CSAMPLE_ZERO; CSAMPLE_ZERO] i).
Proof. apply interleave_then_deinterleave; simpl; lia. Defined.

(** X2.  Interleaving what [deinterleaveBuffer] wrote gives back the stereo
    buffer: the first [2 * numFrames] samples of the destination of
    [interleaveBuffer] are those of the source of [deinterleaveBuffer]. *)
Theorem deinterleave_then_interleave (pDest1 pDest2 pSrc pDest : list CSAMPLE)
    (numFrames : SINT) :
  numFrames ≤ Z.of_nat (length pDest1) → numFrames ≤ Z.of_nat (length pDest2) →
  2 * numFrames ≤ Z.of_nat (length pSrc) → 2 * numFrames ≤ Z.of_nat (length pDest) →
  ∃ p1 p2 p,
    deinterleaveBuffer pDest1 pDest2 pSrc numFrames = Some (p1, p2) ∧
    interleaveBuffer pDest p1 p2 numFrames = Some p ∧
    (∀ k, 0 ≤ k < 2 * numFrames → load p k = load pSrc k) ∧
    (∀ k, ¬ (0 ≤ k < 2 * numFrames) → load p k = load pDest k).
Proof.
  intros Hd1 Hd2 Hs Hd.
  destruct (deinterleaveBuffer_frames pDest1 pDest2 pSrc numFrames)
    as (p1 & p2 & Hp12 & Hl1 & Hl2 & _ & Hin); [done..|].
  destruct (interleaveBuffer_frames pDest p1 p2 numFrames)
    as (p & Hp & _ & Hout' & Hin'); [lia..|].
  exists p1, p2, p. split; [done|]. split; [done|]. split; [|done].
  intros k Hk. destruct (Hin' (k / 2)) as [E0 E1]; [Z.div_mod_to_equations; lia|].
  destruct (Hin (k / 2)) as [F0 F1]; [Z.div_mod_to_equations; lia|].
  destruct (Z.eq_dec (k mod 2) 0) as [Hm|Hm].
  - assert (k = 2 * (k / 2)) as -> by (Z.div_mod_to_equations; lia). congruence.
  - assert (k = 2 * (k / 2) + 1) as -> by (Z.div_mod_to_equations; lia). congruence.
Qed.

Lemma deinterleave_then_interleave_witness :
  ∃ p1 p2 p,
    deinterleaveBuffer [CSAMPLE_ZERO] [CSAMPLE_ZERO] [F32.of_Z 1; F32.of_Z 2] 1 = Some (p1, p2) ∧
    interleaveBuffer [CSAMPLE_ZERO; CSAMPLE_ZERO] p1 p2 1 = Some p ∧
    (∀ k, 0 ≤ k < 2 * 1 → load p k = load [F32.of_Z 1; F32.of_Z 2] k) ∧
    (∀ k, ¬ (0 ≤ k < 2 * 1) → load p k = load [CSAMPLE_ZERO; CSAMPLE_ZERO] k).
Proof. apply deinterleave_then_interleave; simpl; lia. Defined.

(** ** Mono and stereo *)

Lemma copyMonoToDualMono_frames (dest src : list CSAMPLE) (F : SINT) :
  2 * F ≤ Z.of_nat (length dest) → F ≤ Z.of_nat (length src) →
  ∃ p', copyMonoToDualMono dest src F = Some p' ∧ length p' = length dest ∧
    (∀ k, ¬ (0 ≤ k < 2 * F) → load p' k = load dest k) ∧
    (∀ i, 0 ≤ i < F → load p' (2 * i) = load src i ∧ load p' (2 * i + 1) = load src i).
Proof.
  intros Hd Hs. unfold copyMonoToDualMono.
  destruct (frame_loop 2 (λ i _, load src i) 0 F
    (λ i p, s ← load src i; p ← store p (i * 2) s; store p (i * 2 + 1) s) dest)
    as (p' & Hp' & Hlen & Hout & Hin); [lia | |].
  - intros i p Hi Hlen _.
    destruct (load_in src i) as [x Hx]; [lia|].
    rewrite Hx. run_stores. eexists. split; [done|].
    split; [by rewrite !length_insert|]. split.
    + intros k Hk. loads_of_inserts.
    + intros j Hj. loads_of_inserts.
  - exists p'. split; [done|]. split; [done|]. split; [intros k Hk; apply Hout; lia|].
    intros i Hi. split.
    + replace (2 * i) with (2 * i + 0) by lia. by rewrite Hin by lia.
    + by rewrite Hin by lia.
Qed.

Lemma doubleMonoToDualMono_frames (buf : list CSAMPLE) (F : SINT) :
  2 * F ≤ Z.of_nat (length buf) →
  ∃ p', doubleMonoToDualMono buf F = Some p' ∧ length p' = length buf ∧
    (∀ k, ¬ (0 ≤ k < 2 * F) → load p' k = load buf k) ∧
    (∀ i, 0 ≤ i < F → load p' (2 * i) = load buf i ∧ load p' (2 * i + 1) = load buf i).
Proof.
  intros Hlen. unfold doubleMonoToDualMono.
  pose (I := λ (n : Z) (p : list CSAMPLE), length p = length buf ∧
    (∀ k, ¬ (2 * n ≤ k < 2 * F) → load p k = load buf k) ∧
    (∀ i, n ≤ i < F → load p (2 * i) = load buf i ∧ load p (2 * i + 1) = load buf i)).
  edestruct (while_down_inv I (Z.to_nat F)) as (p' & Hp' & Hl & Hout & Hin);
    [| | exists p'; split; [exact Hp'|]].
  - split; [done|]. split; [done|]. intros; lia.
  - intros i p Hi (Hl & Hout & Hin).
    destruct (load_in buf i) as [x Hx]; [lia|].
    rewrite (Hout i), Hx by lia. run_stores. eexists. split; [done|]. unfold I.
    split; [by rewrite !length_insert|]. split.
    + intros k Hk. loads_of_inserts. apply Hout. lia.
    + intros i' Hi'. destruct (decide (i' = i)) as [->|Hne].
      * split; loads_of_inserts.
      * destruct (Hin i') as [E0 E1]; [lia|].
        split; [rewrite <- E0 | rewrite <- E1]; loads_of_inserts.
  - split; [done|]. split; [intros k Hk; apply Hout; lia|]. intros i Hi. apply Hin. lia.
Qed.

(** X3.  [doubleMonoToDualMono], which spreads the mono samples within their
    own buffer from the last frame to the first, leaves what
    [copyMonoToDualMono] writes from a copy of the buffer: each of the first
    [numFrames] samples duplicated into the two channels of its frame. *)
Theorem doubleMonoToDualMono_is_copyMonoToDualMono (pBuffer : list CSAMPLE) (numFrames : SINT) :
  2 * numFrames ≤ Z.of_nat (length pBuffer) →
  ∃ p, doubleMonoToDualMono pBuffer numFrames = Some p ∧
       copyMonoToDualMono pBuffer pBuffer numFrames = Some p ∧
       ∀ i, 0 ≤ i < numFrames →
         load p (2 * i) = load pBuffer i ∧ load p (2 * i + 1) = load pBuffer i.
Proof.
  intros Hlen.
  destruct (doubleMonoToDualMono_frames pBuffer numFrames) as (p & Hp & Hl & Hout & Hin); [done|].
  destruct (copyMonoToDualMono_frames pBuffer pBuffer numFrames)
    as (q & Hq & Hl' & Hout' & Hin'); [lia..|].
  exists p. split; [done|]. split; [|done]. rewrite Hq. f_equal.
  apply buffer_ext. intros k.
  destruct (decide (0 ≤ k < 2 * numFrames)) as [Hk|Hk].
  - destruct (Hin (k / 2)) as [E0 E1]; [Z.div_mod_to_equations; lia|].
    destruct (Hin' (k / 2)) as [F0 F1]; [Z.div_mod_to_equations; lia|].
    destruct (Z.eq_dec (k mod 2) 0) as [Hm|Hm].
    + assert (k = 2 * (k / 2)) as -> by (Z.div_mod_to_equations; lia). congruence.
    + assert (k = 2 * (k / 2) + 1) as -> by (Z.div_mod_to_equations; lia). congruence.
  - by rewrite Hout, Hout'.
Qed.

Lemma doubleMonoToDualMono_is_copyMonoToDualMono_witness :
  ∃ p, doubleMonoToDualMono [F32.of_Z 1; F32.of_Z 2; F32.of_Z 3; F32.of_Z 4] 2 = Some p ∧
       copyMonoToDualMono [F32.of_Z 1; F32.of_Z 2; F32.of_Z 3; F32.of_Z 4]
         [F32.of_Z 1; F32.of_Z 2; F32.of_Z 3; F32.of_Z 4] 2 = Some p ∧
       ∀ i, 0 ≤ i < 2 →
         load p (2 * i) = load [F32.of_Z 1; F32.of_Z 2; F32.of_Z 3; F32.of_Z 4] i ∧
         load p (2 * i + 1) = load [F32.of_Z 1; F32.of_Z 2; F32.of_Z 3; F32.of_Z 4] i.
Proof. apply doubleMonoToDualMono_is_copyMonoToDualMono. simpl. lia. Defined.

Lemma mixStereoToMono_scale :
  (CSAMPLE_GAIN_ONE / (CSAMPLE_GAIN_ONE + CSAMPLE_GAIN_ONE))%f32 = f32_half.
Proof. reflexivity. Qed.

Lemma mixStereoToMono_frames (dest src : list CSAMPLE) (n : SINT) :
  n ≤ Z.of_nat (length dest) → n ≤ Z.of_nat (length src) →
  ∃ p', mixStereoToMono dest src n = Some p' ∧ length p' = length dest ∧
    (∀ k, ¬ (0 ≤ k < 2 * (n ÷ 2)) → load p' k = load dest k) ∧
    (∀ i l r, 0 ≤ i < n ÷ 2 → load src (2 * i) = Some l → load src (2 * i + 1) = Some r →
       load p' (2 * i) = Some (stereo_mean l r) ∧ load p' (2 * i + 1) = Some (stereo_mean l r)).
Proof.
  intros Hd Hs. unfold mixStereoToMono. rewrite mixStereoToMono_scale.
  destruct (Z.le_gt_cases n 0) as [Hn|Hn].
  { pose proof (quot2_nonpos n Hn). rewrite for_loop_empty by lia.
    exists dest. repeat split; try done; intros; lia. }
  pose proof (quot2_bounds n ltac:(lia)) as (Hq0 & Hq1 & Hq2).
  edestruct (frame_loop 2 (λ i (_ : Z),
      l ← load src (2 * i); r ← load src (2 * i + 1); Some (stereo_mean l r)) 0 (n ÷ 2))
    as (p' & Hp' & Hlen & Hout & Hin); [lia | | exists p'; split; [exact Hp'|] ].
  - intros i p Hi Hlen _.
    destruct (load_in src (2 * i)) as [l Hl]; [lia|].
    destruct (load_in src (2 * i + 1)) as [r Hr]; [lia|].
    replace (i * 2) with (2 * i) by lia. rewrite Hl, Hr. run_stores.
    rewrite load_insert by lia. rewrite decide_True by done. run_stores.
    eexists. split; [done|]. split; [by rewrite !length_insert|]. split.
    + intros k Hk. loads_of_inserts.
    + intros j Hj. loads_of_inserts.
  - split; [done|]. split; [intros k Hk; apply Hout; lia|].
    intros i l r Hi Hl Hr. split.
    + replace (2 * i) with (2 * i + 0) at 1 by lia. rewrite Hin by lia. by rewrite Hl, Hr.
    + rewrite Hin by lia. by rewrite Hl, Hr.
Qed.

Lemma mixStereoToMono_inplace_frames (buf : list CSAMPLE) (n : SINT) :
  n ≤ Z.of_nat (length buf) →
  ∃ p', mixStereoToMono_inplace buf n = Some p' ∧ length p' = length buf ∧
    (∀ k, ¬ (0 ≤ k < 2 * (n ÷ 2)) → load p' k = load buf k) ∧
    (∀ i l r, 0 ≤ i < n ÷ 2 → load buf (2 * i) = Some l → load buf (2 * i + 1) = Some r →
       load p' (2 * i) = Some (stereo_mean l r) ∧ load p' (2 * i + 1) = Some (stereo_mean l r)).
Proof.
  intros Hd. unfold mixStereoToMono_inplace. rewrite mixStereoToMono_scale.
  destruct (Z.le_gt_cases n 0) as [Hn|Hn].
  { pose proof (quot2_nonpos n Hn). rewrite for_loop_empty by lia.
    exists buf. repeat split; try done; intros; lia. }
  pose proof (quot2_bounds n ltac:(lia)) as (Hq0 & Hq1 & Hq2).
  edestruct (frame_loop 2 (λ i (_ : Z),
      l ← load buf (2 * i); r ← load buf (2 * i + 1); Some (stereo_mean l r)) 0 (n ÷ 2))
    as (p' & Hp' & Hlen & Hout & Hin); [lia | | exists p'; split; [exact Hp'|] ].
  - intros i p Hi Hlen Hframe.
    destruct (load_in buf (2 * i)) as [l Hl]; [lia|].
    destruct (load_in buf (2 * i + 1)) as [r Hr]; [lia|].
    replace (i * 2) with (2 * i) by lia.
    pose proof (Hframe 0 ltac:(lia)) as H0. rewrite Z.add_0_r in H0.
    rewrite H0, (Hframe 1) by lia. rewrite Hl, Hr. run_stores.
    rewrite load_insert by lia. rewrite decide_True by done. run_stores.
    eexists. split; [done|]. split; [by rewrite !length_insert|]. split.
    + intros k Hk. loads_of_inserts.
    + intros j Hj. loads_of_inserts.
  - split; [done|]. split; [intros k Hk; apply Hout; lia|].
    intros i l r Hi Hl Hr. split.
    + replace (2 * i) with (2 * i + 0) at 1 by lia. rewrite Hin by lia. by rewrite Hl, Hr.
    + rewrite Hin by lia. by rewrite Hl, Hr.
Qed.

(** X4.  The overload of [mixStereoToMono] that works on one buffer leaves
    what the overload with a destination writes from a copy of the buffer:
    both channels of frame [i] hold [(l + r) * 0.5], the mean of the two
    samples [l] and [r] that the frame had. *)
Theorem mixStereoToMono_inplace_is_copy (pBuffer : list CSAMPLE) (numSamples : SINT) :
  numSamples ≤ Z.of_nat (length pBuffer) →
  ∃ p, mixStereoToMono_inplace pBuffer numSamples = Some p ∧
       mixStereoToMono pBuffer pBuffer numSamples = Some p ∧
       ∀ i l r, 0 ≤ i < numSamples ÷ 2 →
         load pBuffer (2 * i) = Some l → load pBuffer (2 * i + 1) = Some r →
         load p (2 * i) = Some ((l + r) * f32_half)%f32 ∧
         load p (2 * i + 1) = Some ((l + r) * f32_half)%f32.
Proof.
  intros Hlen.
  destruct (mixStereoToMono_inplace_frames pBuffer numSamples) as (p & Hp & Hl & Hout & Hin); [done|].
  destruct (mixStereoToMono_frames pBuffer pBuffer numSamples)
    as (q & Hq & Hl' & Hout' & Hin'); [lia..|].
  exists p. split; [done|]. split; [|exact Hin]. rewrite Hq. f_equal.
  apply buffer_ext. intros k.
  destruct (decide (0 ≤ k < 2 * (numSamples ÷ 2))) as [Hk|Hk]; [|by rewrite Hout, Hout'].
  assert (0 < numSamples) as Hn.
  { destruct (Z.le_gt_cases numSamples 0) as [H|H]; [|lia]. pose proof (quot2_nonpos _ H). lia. }
  pose proof (quot2_bounds numSamples ltac:(lia)) as (Hq0 & Hq1 & Hq2).
  destruct (load_in pBuffer (2 * (k / 2))) as [l Hl0]; [Z.div_mod_to_equations; lia|].
  destruct (load_in pBuffer (2 * (k / 2) + 1)) as [r Hr0]; [Z.div_mod_to_equations; lia|].
  destruct (Hin (k / 2) l r) as [E0 E1]; [Z.div_mod_to_equations; lia | done..|].
  destruct (Hin' (k / 2) l r) as [F0 F1]; [Z.div_mod_to_equations; lia | done..|].
  destruct (Z.eq_dec (k mod 2) 0) as [Hm|Hm].
  - assert (k = 2 * (k / 2)) as -> by (Z.div_mod_to_equations; lia). congruence.
  - assert (k = 2 * (k / 2) + 1) as -> by (Z.div_mod_to_equations; lia). congruence.
Qed.

Lemma mixStereoToMono_inplace_is_copy_witness :
  ∃ p, mixStereoToMono_inplace [F32.of_Z 1; F32.of_Z 3] 2 = Some p ∧
       mixStereoToMono [F32.of_Z 1; F32.of_Z 3] [F32.of_Z 1; F32.of_Z 3] 2 = Some p ∧
       ∀ i l r, 0 ≤ i < 2 ÷ 2 →
         load [F32.of_Z 1; F32.of_Z 3] (2 * i) = Some l →
         load [F32.of_Z 1; F32.of_Z 3] (2 * i + 1) = Some r →
         load p (2 * i) = Some ((l + r) * f32_half)%f32 ∧
         load p (2 * i + 1) = Some ((l + r) * f32_half)%f32.
Proof. apply mixStereoToMono_inplace_is_copy. simpl. lia. Defined.

Lemma mean_of_equal (v : CSAMPLE) :
  F32.valid v = true → double_fits v = true → stereo_mean v v = v.
Proof.
  intros Hvalid Hfits. unfold stereo_mean.
  destruct v as [[]| [] | |s m e]; try done.
  simpl in Hfits. apply Z.leb_le in Hfits.
  rewrite Exact.add_self by done. by apply Exact.half_of_double.
Qed.

(** X5.  Spreading a mono buffer to dual mono with [copyMonoToDualMono] and
    mixing the result down with [mixStereoToMono] gives the mono sample back
    in both channels of its frame, for every sample that a float register can
    hold and whose double does not overflow. *)
Theorem dual_mono_mixes_down_to_itself (pStereo pSrc pDest : list CSAMPLE) (numFrames : SINT) :
  0 ≤ numFrames →
  2 * numFrames ≤ Z.of_nat (length pStereo) → numFrames ≤ Z.of_nat (length pSrc) →
  2 * numFrames ≤ Z.of_nat (length pDest) →
  ∃ p q, copyMonoToDualMono pStereo pSrc numFrames = Some p ∧
         mixStereoToMono pDest p (2 * numFrames) = Some q ∧
         ∀ i v, 0 ≤ i < numFrames → load pSrc i = Some v →
           F32.valid v = true → double_fits v = true →
           load q (2 * i) = Some v ∧ load q (2 * i + 1) = Some v.
Proof.
  intros HF Hst Hs Hd.
  destruct (copyMonoToDualMono_frames pStereo pSrc numFrames) as (p & Hp & Hl & _ & Hin); [done..|].
  destruct (mixStereoToMono_frames pDest p (2 * numFrames)) as (q & Hq & _ & _ & Hin'); [lia..|].
  exists p, q. split; [done|]. split; [done|].
  intros i v Hi Hv Hvalid Hfits. destruct (Hin i Hi) as [E0 E1].
  rewrite <- (mean_of_equal v) by done.
  apply Hin'; [rewrite quot2_even by lia; lia | congruence..].
Qed.

Lemma dual_mono_mixes_down_to_itself_witness :
  ∃ p q, copyMonoToDualMono [CSAMPLE_ZERO; CSAMPLE_ZERO] [F32.of_Z 3] 1 = Some p ∧
         mixStereoToMono [CSAMPLE_ZERO; CSAMPLE_ZERO] p (2 * 1) = Some q ∧
         ∀ i v, 0 ≤ i < 1 → load [F32.of_Z 3] i = Some v →
           F32.valid v = true → double_fits v = true →
           load q (2 * i) = Some v ∧ load q (2 * i + 1) = Some v.
Proof. apply dual_mono_mixes_down_to_itself; simpl; lia. Defined.

(** ** Stereo pairs of a multichannel buffer *)

Lemma copyOneStereoFromMulti_frames (dest src : list CSAMPLE) (F C ch : Z) :
  0 ≤ ch → ch + 2 ≤ C →
  2 * F ≤ Z.of_nat (length dest) → F * C ≤ Z.of_nat (length src) →
  ∃ p', copyOneStereoFromMulti dest src F C ch = Some p' ∧ length p' = length dest ∧
    (∀ k, ¬ (0 ≤ k < 2 * F) → load p' k = load dest k) ∧
    (∀ i, 0 ≤ i < F → load p' (2 * i) = load src (i * C + ch) ∧
                       load p' (2 * i + 1) = load src (i * C + ch + 1)).
Proof.
  intros Hch HC Hd Hs. unfold copyOneStereoFromMulti.
  edestruct (frame_loop 2 (λ i j, load src (i * C + ch + j)) 0 F)
    as (p' & Hp' & Hlen & Hout & Hin); [lia | | exists p'; split; [exact Hp'|] ].
  - intros i p Hi Hlen _.
    destruct (load_in src (i * C + ch)) as [x Hx]; [nia|].
    destruct (load_in src (i * C + ch + 1)) as [y Hy]; [nia|].
    rewrite Hx, Hy. run_stores. eexists. split; [done|].
    split; [by rewrite !length_insert|]. split.
    + intros k Hk. loads_of_inserts.
    + intros j Hj. assert (j = 0 ∨ j = 1) as [-> | ->] by lia.
      * rewrite !Z.add_0_r, Hx. loads_of_inserts.
      * rewrite Hy. loads_of_inserts.
  - split; [done|]. split; [intros k Hk; apply Hout; lia|].
    intros i Hi. split.
    + replace (2 * i) with (2 * i + 0) by lia. rewrite Hin by lia. by rewrite Z.add_0_r.
    + by rewrite Hin by lia.
Qed.

Lemma stripMultiToStereo_frames (buf : list CSAMPLE) (F C : Z) :
  2 ≤ C → F * C ≤ Z.of_nat (length buf) →
  ∃ p', stripMultiToStereo buf F C = Some p' ∧ length p' = length buf ∧
    (∀ k, ¬ (0 ≤ k < 2 * F) → load p' k = load buf k) ∧
    (∀ i, 0 ≤ i < F → load p' (2 * i) = load buf (i * C) ∧
                       load p' (2 * i + 1) = load buf (i * C + 1)).
Proof.
  intros HC Hlen. unfold stripMultiToStereo.
  destruct (Z.le_gt_cases F 0) as [HF|HF].
  { rewrite for_loop_empty by done. exists buf. repeat split; try done; intros; lia. }
  pose (I := λ (n : Z) (p : list CSAMPLE), length p = length buf ∧
    (∀ k, ¬ (0 ≤ k < 2 * n) → load p k = load buf k) ∧
    (∀ i, 0 ≤ i < n → load p (2 * i) = load buf (i * C) ∧
                       load p (2 * i + 1) = load buf (i * C + 1))).
  edestruct (for_loop_inv I 0 F) as (p' & Hp' & HI); [| | | exists p'; split; [exact Hp' | exact HI] ].
  - lia.
  - split; [done|]. split; [done|]. intros; lia.
  - intros i p Hi (Hl & Hout & Hin).
    destruct (load_in buf (i * C)) as [x Hx]; [nia|].
    destruct (load_in buf (i * C + 1)) as [y Hy]; [nia|].
    assert (2 * i ≤ i * C ∧ i * C + 1 < Z.of_nat (length buf)) as Hstride by nia.
    rewrite (Hout (i * C)), Hx by lia. run_stores.
    rewrite load_insert by lia. rewrite decide_False by lia.
    rewrite (Hout (i * C + 1)), Hy by lia. run_stores.
    eexists. split; [done|]. unfold I.
    split; [by rewrite !length_insert|]. split.
    + intros k Hk. loads_of_inserts. apply Hout. lia.
    + intros i' Hi'. destruct (decide (i' = i)) as [->|Hne].
      * rewrite Hx, Hy. split; loads_of_inserts.
      * destruct (Hin i') as [E0 E1]; [lia|].
        split; [rewrite <- E0 | rewrite <- E1]; loads_of_inserts.
Qed.

(** X6.  [stripMultiToStereo], which packs the first stereo pair of every
    frame to the front of its own buffer, leaves what
    [copyOneStereoFromMulti] writes for source channel 0 from a copy of the
    buffer: frame [i] of the result is the first two samples of the frame [i]
    of [numChannels] samples. *)
Theorem stripMultiToStereo_is_copyOneStereoFromMulti (pBuffer : list CSAMPLE)
    (numFrames : SINT) (numChannels : Z) :
  2 ≤ numChannels → numFrames * numChannels ≤ Z.of_nat (length pBuffer) →
  ∃ p, stripMultiToStereo pBuffer numFrames numChannels = Some p ∧
       copyOneStereoFromMulti pBuffer pBuffer numFrames numChannels 0 = Some p ∧
       ∀ i, 0 ≤ i < numFrames →
         load p (2 * i) = load pBuffer (i * numChannels) ∧
         load p (2 * i + 1) = load pBuffer (i * numChannels + 1).
Proof.
  intros HC Hlen.
  destruct (stripMultiToStereo_frames pBuffer numFrames numChannels)
    as (p & Hp & Hl & Hout & Hin); [done..|].
  destruct (Z.le_gt_cases numFrames 0) as [HF|HF].
  { exists p. split; [done|]. split; [|done].
    unfold stripMultiToStereo in Hp. unfold copyOneStereoFromMulti.
    rewrite for_loop_empty in Hp |- * by done. done. }
  destruct (copyOneStereoFromMulti_frames pBuffer pBuffer numFrames numChannels 0)
    as (q & Hq & Hl' & Hout' & Hin'); [lia | lia | nia | lia |].
  exists p. split; [done|]. split; [|done]. rewrite Hq. f_equal.
  apply buffer_ext. intros k.
  destruct (decide (0 ≤ k < 2 * numFrames)) as [Hk|Hk]; [|by rewrite Hout, Hout'].
  destruct (Hin (k / 2)) as [E0 E1]; [Z.div_mod_to_equations; lia|].
  destruct (Hin' (k / 2)) as [F0 F1]; [Z.div_mod_to_equations; lia|].
  rewrite Z.add_0_r in F0, F1.
  destruct (Z.eq_dec (k mod 2) 0) as [Hm|Hm].
  - assert (k = 2 * (k / 2)) as -> by (Z.div_mod_to_equations; lia). congruence.
  - assert (k = 2 * (k / 2) + 1) as -> by (Z.div_mod_to_equations; lia). congruence.
Qed.

Lemma stripMultiToStereo_is_copyOneStereoFromMulti_witness :
  ∃ p, stripMultiToStereo [F32.of_Z 1; F32.of_Z 2; F32.of_Z 3; F32.of_Z 4;
                           F32.of_Z 5; F32.of_Z 6; F32.of_Z 7; F32.of_Z 8] 2 4 = Some p ∧
       copyOneStereoFromMulti
         [F32.of_Z 1; F32.of_Z 2; F32.of_Z 3; F32.of_Z 4;
          F32.of_Z 5; F32.of_Z 6; F32.of_Z 7; F32.of_Z 8]
         [F32.of_Z 1; F32.of_Z 2; F32.of_Z 3; F32.of_Z 4;
          F32.of_Z 5; F32.of_Z 6; F32.of_Z 7; F32.of_Z 8] 2 4 0 = Some p ∧
       ∀ i, 0 ≤ i < 2 →
         load p (2 * i) = load [F32.of_Z 1; F32.of_Z 2; F32.of_Z 3; F32.of_Z 4;
                                F32.of_Z 5; F32.of_Z 6; F32.of_Z 7; F32.of_Z 8] (i * 4) ∧
         load p (2 * i + 1) = load [F32.of_Z 1; F32.of_Z 2; F32.of_Z 3; F32.of_Z 4;
                                    F32.of_Z 5; F32.of_Z 6; F32.of_Z 7; F32.of_Z 8] (i * 4 + 1).
Proof. apply stripMultiToStereo_is_copyOneStereoFromMulti; simpl; lia. Defined.

Lemma insertStereoToMulti_frames (dest src : list CSAMPLE) (F C off : Z) :
  0 ≤ off → off + 2 ≤ C →
  F * C ≤ Z.of_nat (length dest) → 2 * F ≤ Z.of_nat (length src) →
  ∃ p', insertStereoToMulti dest src F C off = Some p' ∧ length p' = length dest ∧
    (∀ i, 0 ≤ i < F → load p' (i * C + off) = load src (2 * i) ∧
                       load p' (i * C + off + 1) = load src (2 * i + 1)) ∧
    (∀ k, ¬ (0 ≤ k < F * C ∧ off ≤ k mod C ≤ off + 1) → load p' k = load dest k).
Proof.
  intros Hoff HC Hd Hs. unfold insertStereoToMulti.
  edestruct (frame_loop C (λ i j,
      if decide (j = off) then load src (2 * i)
      else if decide (j = off + 1) then load src (2 * i + 1)
      else load dest (C * i + j)) 0 F (λ i p,
        x ← load src (i * 2); p ← store p (i * C + off) x;
        y ← load src (i * 2 + 1); store p (i * C + off + 1) y) dest)
    as (p' & Hp' & Hlen & Hout & Hin); [lia | | exists p'; split; [exact Hp'|] ].
  - intros i p Hi Hlen Hframe.
    destruct (load_in src (i * 2)) as [x Hx]; [lia|].
    destruct (load_in src (i * 2 + 1)) as [y Hy]; [lia|].
    rewrite Hx, Hy. simpl.
    rewrite store_insert by nia. simpl.
    rewrite store_insert by (rewrite length_insert; nia).
    eexists. split; [done|]. split; [by rewrite !length_insert|].
    replace (2 * i) with (i * 2) by lia. rewrite Hx, Hy. split.
    + intros k Hk.
      rewrite load_insert by (rewrite length_insert; nia). rewrite decide_False by nia.
      rewrite load_insert by nia. by rewrite decide_False by nia.
    + intros j Hj.
      rewrite load_insert by (rewrite length_insert; nia).
      rewrite load_insert by nia.
      repeat case_decide; try nia; try done. by apply Hframe.
  - split; [done|]. split.
    + intros i Hi. split.
      * replace (i * C + off) with (C * i + off) by lia. rewrite Hin by lia.
        by rewrite decide_True by done.
      * replace (i * C + off + 1) with (C * i + (off + 1)) by lia. rewrite Hin by lia.
        rewrite decide_False by lia. by rewrite decide_True by done.
    + intros k Hk. destruct (decide (0 ≤ k < F * C)) as [Hin_range|Hout_range].
      * assert (k = C * (k / C) + k mod C) as Hkdiv by (apply Z.div_mod; lia).
        pose proof (Z.mod_pos_bound k C ltac:(lia)) as Hmod.
        assert (0 ≤ k / C < F) as Hdiv.
        { split; [apply Z.div_pos; lia|]. apply Z.div_lt_upper_bound; lia. }
        rewrite Hkdiv at 1. rewrite Hin by lia.
        rewrite !decide_False by lia. by rewrite <- Hkdiv.
      * apply Hout. lia.
Qed.

(** X7.  Taking with [copyOneStereoFromMulti] the stereo pair that
    [insertStereoToMulti] put at the same channel offset gives back the
    stereo buffer, and the insertion leaves the other channels of every frame
    as they were. *)
Theorem insert_then_copyOneStereo (pMulti pSrc pDest : list CSAMPLE) (numFrames : SINT)
    (numChannels channelOffset : Z) :
  0 ≤ channelOffset → channelOffset + 2 ≤ numChannels →
  numFrames * numChannels ≤ Z.of_nat (length pMulti) →
  2 * numFrames ≤ Z.of_nat (length pSrc) → 2 * numFrames ≤ Z.of_nat (length pDest) →
  ∃ p q, insertStereoToMulti pMulti pSrc numFrames numChannels channelOffset = Some p ∧
         copyOneStereoFromMulti pDest p numFrames numChannels channelOffset = Some q ∧
         (∀ k, 0 ≤ k < 2 * numFrames → load q k = load pSrc k) ∧
         (∀ k, ¬ (0 ≤ k < numFrames * numChannels ∧
                  channelOffset ≤ k mod numChannels ≤ channelOffset + 1) →
               load p k = load pMulti k).
Proof.
  intros Hoff HC Hm Hs Hd.
  destruct (insertStereoToMulti_frames pMulti pSrc numFrames numChannels channelOffset)
    as (p & Hp & Hl & Hin & Hout); [done..|].
  destruct (copyOneStereoFromMulti_frames pDest p numFrames numChannels channelOffset)
    as (q & Hq & _ & _ & Hin'); [lia..|].
  exists p, q. split; [done|]. split; [done|]. split; [|done].
  intros k Hk.
  destruct (Hin (k / 2)) as [E0 E1]; [Z.div_mod_to_equations; lia|].
  destruct (Hin' (k / 2)) as [F0 F1]; [Z.div_mod_to_equations; lia|].
  destruct (Z.eq_dec (k mod 2) 0) as [Hmod|Hmod].
  - assert (k = 2 * (k / 2)) as -> by (Z.div_mod_to_equations; lia). congruence.
  - assert (k = 2 * (k / 2) + 1) as -> by (Z.div_mod_to_equations; lia). congruence.
Qed.

Lemma insert_then_copyOneStereo_witness :
  ∃ p q, insertStereoToMulti (replicate 4 CSAMPLE_ZERO) [F32.of_Z 1; F32.of_Z 2] 1 4 2 = Some p ∧
         copyOneStereoFromMulti [CSAMPLE_ZERO; CSAMPLE_ZERO] p 1 4 2 = Some q ∧
         (∀ k, 0 ≤ k < 2 * 1 → load q k = load [F32.of_Z 1; F32.of_Z 2] k) ∧
         (∀ k, ¬ (0 ≤ k < 1 * 4 ∧ 2 ≤ k mod 4 ≤ 2 + 1) →
               load p k = load (replicate 4 CSAMPLE_ZERO) k).
Proof. apply insert_then_copyOneStereo; simpl; lia. Defined.

(** ** Reversal *)

Lemma reversed_index_range n k :
  n mod 2 = 0 → 0 ≤ k < n → 0 ≤ reversed_index n k < n.
Proof. unfold reversed_index. intros. Z.div_mod_to_equations. lia. Qed.

Lemma reversed_index_involutive n k :
  n mod 2 = 0 → reversed_index n (reversed_index n k) = k.
Proof. unfold reversed_index. intros. Z.div_mod_to_equations. lia. Qed.

Lemma reverse_samples (buf : list CSAMPLE) (n : SINT) :
  n mod 2 = 0 → n ≤ Z.of_nat (length buf) →
  ∃ p', reverse buf n = Some p' ∧ length p' = length buf ∧
    (∀ k, 0 ≤ k < n → load p' k = load buf (reversed_index n k)) ∧
    (∀ k, ¬ (0 ≤ k < n) → load p' k = load buf k).
Proof.
  intros Heven Hlen. unfold reverse.
  destruct (Z.le_gt_cases n 0) as [Hn|Hn].
  { rewrite for_loop_empty by (Z.quot_rem_to_equations; lia).
    exists buf. repeat split; try done; intros; lia. }
  assert (0 ≤ n ÷ 4 ∧ 4 * (n ÷ 4) ≤ n ∧ (n = 4 * (n ÷ 4) ∨ n = 4 * (n ÷ 4) + 2)) as Hq.
  { Z.quot_rem_to_equations. Z.div_mod_to_equations. lia. }
  pose (I := λ (j : Z) (p : list CSAMPLE), length p = length buf ∧
    (∀ k, 0 ≤ k < 2 * j ∨ n - 2 * j ≤ k < n → load p k = load buf (reversed_index n k)) ∧
    (∀ k, ¬ (0 ≤ k < 2 * j ∨ n - 2 * j ≤ k < n) → load p k = load buf k)).
  edestruct (for_loop_inv I 0 (n ÷ 4)) as (p' & Hp' & Hl & Hin & Hout);
    [| | | exists p'; split; [exact Hp'|] ].
  - lia.
  - split; [done|]. split; [intros; lia | done].
  - intros j p Hj (Hl & Hin & Hout).
    destruct (load_in buf (j * 2)) as [a Ha]; [lia|].
    destruct (load_in buf (j * 2 + 1)) as [b Hb]; [lia|].
    destruct (load_in buf (n - 1 - j * 2 - 1)) as [c Hc]; [lia|].
    destruct (load_in buf (n - 1 - j * 2)) as [d Hd]; [lia|].
    rewrite (Hout (j * 2)), Ha by lia. simpl.
    rewrite (Hout (j * 2 + 1)), Hb by lia. simpl.
    rewrite (Hout (n - 1 - j * 2 - 1)), Hc by lia. run_stores.
    rewrite load_insert by lia. rewrite decide_False by lia.
    rewrite (Hout (n - 1 - j * 2)), Hd by lia. run_stores.
    eexists. split; [done|]. unfold I.
    split; [by rewrite !length_insert|]. split.
    + intros k Hk.
      repeat (rewrite load_insert by (rewrite ?length_insert; lia)).
      repeat case_decide; subst; unfold reversed_index.
      * rewrite <- Hb. f_equal. Z.div_mod_to_equations. lia.
      * rewrite <- Ha. f_equal. Z.div_mod_to_equations. lia.
      * rewrite <- Hd. f_equal. Z.div_mod_to_equations. lia.
      * rewrite <- Hc. f_equal. Z.div_mod_to_equations. lia.
      * apply Hin. lia.
    + intros k Hk. loads_of_inserts. apply Hout. lia.
  - split; [done|]. split; [|intros k Hk; apply Hout; lia].
    intros k Hk. destruct (decide (0 ≤ k < 2 * (n ÷ 4) ∨ n - 2 * (n ÷ 4) ≤ k < n)) as [Hside|Hmid].
    + by apply Hin.
    + rewrite Hout by done. f_equal. unfold reversed_index. Z.div_mod_to_equations. lia.
Qed.

(** X8.  Reversing the frames of a stereo buffer twice with [reverse] gives
    the buffer back; one reversal moves the sample of index [k] to the same
    channel of the mirrored frame.  The number of samples has to be even. *)
Theorem reverse_involutive (pBuffer : list CSAMPLE) (numSamples : SINT) :
  numSamples mod 2 = 0 → numSamples ≤ Z.of_nat (length pBuffer) →
  ∃ p, reverse pBuffer numSamples = Some p ∧
       reverse p numSamples = Some pBuffer ∧
       ∀ k, 0 ≤ k < numSamples → load p k = load pBuffer (reversed_index numSamples k).
Proof.
  intros Heven Hlen.
  destruct (reverse_samples pBuffer numSamples) as (p & Hp & Hl & Hin & Hout); [done..|].
  destruct (reverse_samples p numSamples) as (q & Hq & Hl' & Hin' & Hout'); [done | lia |].
  exists p. split; [done|]. split; [|done]. rewrite Hq. f_equal.
  apply buffer_ext. intros k.
  destruct (decide (0 ≤ k < numSamples)) as [Hk|Hk].
  - rewrite Hin' by done. rewrite Hin by by apply reversed_index_range.
    by rewrite reversed_index_involutive.
  - by rewrite Hout', Hout.
Qed.

Lemma reverse_involutive_witness :
  ∃ p, reverse [F32.of_Z 1; F32.of_Z 2; F32.of_Z 3; F32.of_Z 4; F32.of_Z 5; F32.of_Z 6] 6 = Some p ∧
       reverse p 6 = Some [F32.of_Z 1; F32.of_Z 2; F32.of_Z 3; F32.of_Z 4; F32.of_Z 5; F32.of_Z 6] ∧
       ∀ k, 0 ≤ k < 6 →
         load p k = load [F32.of_Z 1; F32.of_Z 2; F32.of_Z 3; F32.of_Z 4; F32.of_Z 5; F32.of_Z 6]
                         (reversed_index 6 k).
Proof. apply reverse_involutive; [reflexivity | simpl; lia]. Defined.

(** The loop over the channels of one frame of [copyReverse]. *)
Lemma copyReverse_frame (src p : list CSAMPLE) (a b C : Z) (f g : Z → Z) :
  (∀ c, f c = a + c) → (∀ c, g c = b + c) →
  0 ≤ a → a + C ≤ Z.of_nat (length src) → 0 ≤ b → b + C ≤ Z.of_nat (length p) →
  ∃ p', for_loop 0 C (λ chIdx p, x ← load src (f chIdx); store p (g chIdx) x) p = Some p' ∧
    length p' = length p ∧
    (∀ c, 0 ≤ c < C → load p' (b + c) = load src (a + c)) ∧
    (∀ k, ¬ (b ≤ k < b + C) → load p' k = load p k).
Proof.
  intros Hf Hg Ha Hsrc Hb Hp.
  destruct (Z.le_gt_cases C 0) as [HC|HC].
  { rewrite for_loop_empty by done. exists p. repeat split; try done; intros; lia. }
  pose (I := λ (n : Z) (q : list CSAMPLE), length q = length p ∧
    (∀ c, 0 ≤ c < n → load q (b + c) = load src (a + c)) ∧
    (∀ k, ¬ (b ≤ k < b + n) → load q k = load p k)).
  edestruct (for_loop_inv I 0 C) as (p' & Hp' & HI); [| | | exists p'; split; [exact Hp' | exact HI] ].
  - lia.
  - split; [done|]. split; [intros; lia | done].
  - intros c q Hc (Hl & Hin & Hout). rewrite Hf, Hg.
    destruct (load_in src (a + c)) as [x Hx]; [lia|].
    rewrite Hx. run_stores. eexists. split; [done|]. unfold I.
    split; [by rewrite !length_insert|]. split.
    + intros c' Hc'. rewrite load_insert by lia.
      case_decide as Heq; [by assert (c' = c) as -> by lia | apply Hin; lia].
    + intros k Hk. loads_of_inserts. apply Hout. lia.
Qed.

Lemma copyReverse_samples (dest src : list CSAMPLE) (n C : Z) :
  0 < C → 0 ≤ n → n mod C = 0 →
  n ≤ Z.of_nat (length dest) → n ≤ Z.of_nat (length src) →
  ∃ p', copyReverse dest src n C = Some p' ∧ length p' = length dest ∧
    (∀ i c, 0 ≤ i < n / C → 0 ≤ c < C →
       load p' (C * i + c) = load src (n - C * (i + 1) + c)) ∧
    (∀ k, ¬ (0 ≤ k < n) → load p' k = load dest k).
Proof.
  intros HC Hn Hmod Hd Hs. unfold copyReverse. rewrite decide_False by lia.
  assert (n ÷ C = n / C) as -> by (apply Z.quot_div_nonneg; lia).
  assert (n = C * (n / C)) as HnC by (apply Z.div_exact; lia).
  assert (0 ≤ n / C) as HF by (apply Z.div_pos; lia).
  edestruct (frame_loop C (λ i c, load src (n - C * (i + 1) + c)) 0 (n / C))
    as (p' & Hp' & Hlen & Hout & Hin); [lia | | exists p'; split; [exact Hp'|] ].
  - intros i p Hi Hlen _.
    edestruct (copyReverse_frame src p (n - C * (i + 1)) (C * i) C)
      as (p' & Hp' & Hl' & Hin' & Hout'); [| | | | | | exists p'; split; [exact Hp'|] ].
    + intros c. simpl. lia.
    + intros c. simpl. lia.
    + nia.
    + nia.
    + nia.
    + nia.
    + split; [congruence|]. split; [intros k Hk; apply Hout'; lia | done].
  - split; [done|]. split; [done|]. intros k Hk. apply Hout. lia.
Qed.

(** X9.  On a stereo buffer (two channels, an even number of samples)
    [reverse] leaves in the buffer what [copyReverse] writes from a copy of
    it. *)
Theorem reverse_is_copyReverse_stereo (pBuffer : list CSAMPLE) (numSamples : SINT) :
  0 ≤ numSamples → numSamples mod 2 = 0 → numSamples ≤ Z.of_nat (length pBuffer) →
  ∃ p, reverse pBuffer numSamples = Some p ∧
       copyReverse pBuffer pBuffer numSamples 2 = Some p.
Proof.
  intros Hn Heven Hlen.
  destruct (reverse_samples pBuffer numSamples) as (p & Hp & Hl & Hin & Hout); [done..|].
  destruct (copyReverse_samples pBuffer pBuffer numSamples 2)
    as (q & Hq & Hl' & Hin' & Hout'); [lia | done..|].
  exists p. split; [done|]. rewrite Hq. f_equal.
  apply buffer_ext. intros k.
  destruct (decide (0 ≤ k < numSamples)) as [Hk|Hk]; [|by rewrite Hout, Hout'].
  rewrite Hin by done.
  assert (k = 2 * (k / 2) + k mod 2) as Hkdiv by (apply Z.div_mod; lia).
  rewrite Hkdiv at 1. rewrite Hin' by (Z.div_mod_to_equations; lia).
  f_equal. unfold reversed_index. Z.div_mod_to_equations. lia.
Qed.

Lemma reverse_is_copyReverse_stereo_witness :
  ∃ p, reverse [F32.of_Z 1; F32.of_Z 2; F32.of_Z 3; F32.of_Z 4] 4 = Some p ∧
       copyReverse [F32.of_Z 1; F32.of_Z 2; F32.of_Z 3; F32.of_Z 4]
         [F32.of_Z 1; F32.of_Z 2; F32.of_Z 3; F32.of_Z 4] 4 2 = Some p.
Proof. apply reverse_is_copyReverse_stereo; [lia | reflexivity | simpl; lia]. Defined.

(** X10.  Reversing with [copyReverse] what [copyReverse] wrote gives back
    the first [numSamples] samples of the source, frames of [channelCount]
    samples staying whole; the number of samples has to be a multiple of the
    channel count, as the function asserts. *)
Theorem copyReverse_twice (pDest1 pDest2 pSrc : list CSAMPLE) (numSamples : SINT)
    (channelCount : Z) :
  0 < channelCount → 0 ≤ numSamples → numSamples mod channelCount = 0 →
  numSamples ≤ Z.of_nat (length pSrc) →
  numSamples ≤ Z.of_nat (length pDest1) → numSamples ≤ Z.of_nat (length pDest2) →
  ∃ p q, copyReverse pDest1 pSrc numSamples channelCount = Some p ∧
         copyReverse pDest2 p numSamples channelCount = Some q ∧
         (∀ i c, 0 ≤ i < numSamples / channelCount → 0 ≤ c < channelCount →
            load p (channelCount * i + c) =
            load pSrc (channelCount * (numSamples / channelCount - 1 - i) + c)) ∧
         (∀ k, 0 ≤ k < numSamples → load q k = load pSrc k).
Proof.
  intros HC Hn Hmod Hs Hd1 Hd2.
  destruct (copyReverse_samples pDest1 pSrc numSamples channelCount)
    as (p & Hp & Hl & Hin & _); [done..|].
  destruct (copyReverse_samples pDest2 p numSamples channelCount)
    as (q & Hq & _ & Hin' & _); [done | done | done | done | lia |].
  assert (numSamples = channelCount * (numSamples / channelCount)) as HnC
    by (apply Z.div_exact; lia).
  exists p, q. split; [done|]. split; [done|]. split.
  - intros i c Hi Hc. rewrite Hin by done. f_equal. nia.
  - intros k Hk.
    assert (k = channelCount * (k / channelCount) + k mod channelCount) as Hkdiv
      by (apply Z.div_mod; lia).
    pose proof (Z.mod_pos_bound k channelCount HC) as Hkmod.
    assert (0 ≤ k / channelCount < numSamples / channelCount) as Hdiv.
    { split; [apply Z.div_pos; lia|]. apply Z.div_lt_upper_bound; lia. }
    rewrite Hkdiv at 1. rewrite Hin' by done.
    replace (numSamples - channelCount * (k / channelCount + 1) + k mod channelCount)
      with (channelCount * (numSamples / channelCount - 1 - k / channelCount) + k mod channelCount)
      by nia.
    rewrite Hin by lia. f_equal. nia.
Qed.

Lemma copyReverse_twice_witness :
  ∃ p q, copyReverse (replicate 6 CSAMPLE_ZERO)
           [F32.of_Z 1; F32.of_Z 2; F32.of_Z 3; F32.of_Z 4; F32.of_Z 5; F32.of_Z 6] 6 3 = Some p ∧
         copyReverse (replicate 6 CSAMPLE_ZERO) p 6 3 = Some q ∧
         (∀ i c, 0 ≤ i < 6 / 3 → 0 ≤ c < 3 →
            load p (3 * i + c) =
            load [F32.of_Z 1; F32.of_Z 2; F32.of_Z 3; F32.of_Z 4; F32.of_Z 5; F32.of_Z 6]
                 (3 * (6 / 3 - 1 - i) + c)) ∧
         (∀ k, 0 ≤ k < 6 → load q k =
            load [F32.of_Z 1; F32.of_Z 2; F32.of_Z 3; F32.of_Z 4; F32.of_Z 5; F32.of_Z 6] k).
Proof. apply copyReverse_twice; [lia | lia | reflexivity | simpl; lia..]. Defined.

(** ** Accumulation and scaled copies *)

Section SampleLoops.
Context {A : Type}.

(** A loop whose iteration [i] writes sample [i] only; [val i] is what it
    writes.  The iteration may read the sample, which it finds as it was
    before the loop. *)
Lemma sample_loop (val : Z → option A) n (body : Z → list A → option (list A)) (buf : list A) :
  n ≤ Z.of_nat (length buf) →
  (∀ i p, 0 ≤ i < n → length p = length buf → load p i = load buf i →
     ∃ v, val i = Some v ∧ body i p = store p i v) →
  ∃ p', for_loop 0 n body buf = Some p' ∧ length p' = length buf ∧
    (∀ k, ¬ (0 ≤ k < n) → load p' k = load buf k) ∧
    (∀ i, 0 ≤ i < n → load p' i = val i).
Proof.
  intros Hn Hbody.
  destruct (frame_loop 1 (λ i _, val i) 0 n body buf) as (p' & Hp' & Hlen & Hout & Hin); [lia | |].
  - intros i p Hi Hlen Hframe.
    destruct (Hbody i p Hi Hlen) as (v & Hv & ->).
    { specialize (Hframe 0). rewrite Z.add_0_r, Z.mul_1_l in Hframe. apply Hframe. lia. }
    rewrite store_insert by lia. eexists. split; [done|].
    split; [by rewrite length_insert|]. split.
    + intros k Hk. loads_of_inserts.
    + intros j Hj. loads_of_inserts.
  - exists p'. split; [done|]. split; [done|]. split; [intros k Hk; apply Hout; lia|].
    intros i Hi. specialize (Hin i 0). rewrite Z.add_0_r, Z.mul_1_l in Hin. apply Hin; lia.
Qed.
End SampleLoops.

Lemma update_store (p : list CSAMPLE) i f x : load p i = Some x → update p i f = store p i (f x).
Proof. intros Hx. unfold update. by rewrite Hx. Qed.

Lemma add_samples (dest src : list CSAMPLE) n :
  n ≤ Z.of_nat (length dest) → n ≤ Z.of_nat (length src) →
  ∃ p', add dest src n = Some p' ∧ length p' = length dest ∧
    (∀ k, ¬ (0 ≤ k < n) → load p' k = load dest k) ∧
    (∀ i, 0 ≤ i < n → load p' i = (x ← load dest i; s ← load src i; Some (x + s)%f32)).
Proof.
  intros Hd Hs. apply sample_loop; [done|].
  intros i p Hi Hlen Hp.
  destruct (load_in dest i) as [x Hx]; [lia|]. destruct (load_in src i) as [s Hs']; [lia|].
  rewrite Hx, Hs'. eexists. split; [done|]. simpl.
  by rewrite (update_store p i _ x) by congruence.
Qed.

Lemma addWithGain_samples (dest src : list CSAMPLE) g n :
  (g == CSAMPLE_GAIN_ZERO)%f32 = false →
  n ≤ Z.of_nat (length dest) → n ≤ Z.of_nat (length src) →
  ∃ p', addWithGain dest src g n = Some p' ∧ length p' = length dest ∧
    (∀ k, ¬ (0 ≤ k < n) → load p' k = load dest k) ∧
    (∀ i, 0 ≤ i < n → load p' i = (x ← load dest i; s ← load src i; Some (x + s * g)%f32)).
Proof.
  intros Hg Hd Hs. unfold addWithGain. rewrite Hg. apply sample_loop; [done|].
  intros i p Hi Hlen Hp.
  destruct (load_in dest i) as [x Hx]; [lia|]. destruct (load_in src i) as [s Hs']; [lia|].
  rewrite Hx, Hs'. eexists. split; [done|]. simpl.
  by rewrite (update_store p i _ x) by congruence.
Qed.

Lemma copy1WithGain_samples (dest src : list CSAMPLE) g n :
  (g == CSAMPLE_GAIN_ZERO)%f32 = false →
  n ≤ Z.of_nat (length dest) → n ≤ Z.of_nat (length src) →
  ∃ p', copy1WithGain dest src g n = Some p' ∧ length p' = length dest ∧
    (∀ k, ¬ (0 ≤ k < n) → load p' k = load dest k) ∧
    (∀ i, 0 ≤ i < n → load p' i = (s ← load src i; Some (s * g)%f32)).
Proof.
  intros Hg Hd Hs. unfold copy1WithGain. rewrite Hg. apply sample_loop; [done|].
  intros i p Hi Hlen Hp.
  destruct (load_in src i) as [s Hs']; [lia|].
  rewrite Hs'. eexists. split; done.
Qed.

(** The sum of a scaled copy: [addWithGain] adds what [copy1WithGain] writes. *)
Lemma addWithGain_adds_copy (dest tmp src : list CSAMPLE) g n :
  (g == CSAMPLE_GAIN_ZERO)%f32 = false →
  n ≤ Z.of_nat (length dest) → n ≤ Z.of_nat (length tmp) → n ≤ Z.of_nat (length src) →
  ∃ t p, copy1WithGain tmp src g n = Some t ∧ add dest t n = Some p ∧
         addWithGain dest src g n = Some p.
Proof.
  intros Hg Hd Ht Hs.
  destruct (copy1WithGain_samples tmp src g n) as (t & Htmp & Hlt & _ & Hint); [done..|].
  destruct (add_samples dest t n) as (p & Hp & Hlp & Houtp & Hinp); [lia..|].
  destruct (addWithGain_samples dest src g n) as (q & Hq & Hlq & Houtq & Hinq); [done..|].
  exists t, p. split; [done|]. split; [done|]. rewrite Hq. f_equal.
  apply buffer_ext. intros k.
  destruct (decide (0 ≤ k < n)) as [Hk|Hk]; [|by rewrite Houtp, Houtq].
  rewrite Hinp, Hinq, Hint by done.
  destruct (load dest k); [simpl | done]. by destruct (load src k).
Qed.

Lemma add2WithGain_samples (dest src1 src2 : list CSAMPLE) g1 g2 n :
  (g1 == CSAMPLE_GAIN_ZERO)%f32 = false → (g2 == CSAMPLE_GAIN_ZERO)%f32 = false →
  n ≤ Z.of_nat (length dest) → n ≤ Z.of_nat (length src1) → n ≤ Z.of_nat (length src2) →
  ∃ p', add2WithGain dest src1 g1 src2 g2 n = Some p' ∧ length p' = length dest ∧
    (∀ k, ¬ (0 ≤ k < n) → load p' k = load dest k) ∧
    (∀ i, 0 ≤ i < n → load p' i =
       (x ← load dest i; s1 ← load src1 i; s2 ← load src2 i;
        Some (x + (s1 * g1 + s2 * g2))%f32)).
Proof.
  intros Hg1 Hg2 Hd Hs1 Hs2. unfold add2WithGain. rewrite Hg1, Hg2. apply sample_loop; [done|].
  intros i p Hi Hlen Hp.
  destruct (load_in dest i) as [x Hx]; [lia|].
  destruct (load_in src1 i) as [s1 Hs1']; [lia|]. destruct (load_in src2 i) as [s2 Hs2']; [lia|].
  rewrite Hx, Hs1', Hs2'. eexists. split; [done|]. simpl.
  by rewrite (update_store p i _ x) by congruence.
Qed.

Lemma copy2WithGain_samples (dest src0 src1 : list CSAMPLE) g0 g1 n :
  (g0 == CSAMPLE_GAIN_ZERO)%f32 = false → (g1 == CSAMPLE_GAIN_ZERO)%f32 = false →
  n ≤ Z.of_nat (length dest) → n ≤ Z.of_nat (length src0) → n ≤ Z.of_nat (length src1) →
  ∃ p', copy2WithGain dest src0 g0 src1 g1 n = Some p' ∧ length p' = length dest ∧
    (∀ k, ¬ (0 ≤ k < n) → load p' k = load dest k) ∧
    (∀ i, 0 ≤ i < n → load p' i =
       (s0 ← load src0 i; s1 ← load src1 i; Some (s0 * g0 + s1 * g1)%f32)).
Proof.
  intros Hg0 Hg1 Hd Hs0 Hs1. unfold copy2WithGain. rewrite Hg0, Hg1. apply sample_loop; [done|].
  intros i p Hi Hlen Hp.
  destruct (load_in src0 i) as [s0 Hs0']; [lia|]. destruct (load_in src1 i) as [s1 Hs1']; [lia|].
  rewrite Hs0', Hs1'. eexists. split; done.
Qed.

(** [add2WithGain] adds what [copy2WithGain] writes, unless both gains are zero. *)
Lemma add2WithGain_adds_copy (dest tmp src1 src2 : list CSAMPLE) g1 g2 n :
  (g1 == CSAMPLE_GAIN_ZERO)%f32 && (g2 == CSAMPLE_GAIN_ZERO)%f32 = false →
  n ≤ Z.of_nat (length dest) → n ≤ Z.of_nat (length tmp) →
  n ≤ Z.of_nat (length src1) → n ≤ Z.of_nat (length src2) →
  ∃ t p, copy2WithGain tmp src1 g1 src2 g2 n = Some t ∧ add dest t n = Some p ∧
         add2WithGain dest src1 g1 src2 g2 n = Some p.
Proof.
  intros Hg Hd Ht Hs1 Hs2.
  destruct (g1 == CSAMPLE_GAIN_ZERO)%f32 eqn:Hg1.
  { simpl in Hg. unfold copy2WithGain, add2WithGain. rewrite Hg1.
    by apply addWithGain_adds_copy. }
  destruct (g2 == CSAMPLE_GAIN_ZERO)%f32 eqn:Hg2.
  { unfold copy2WithGain, add2WithGain. rewrite Hg1, Hg2. by apply addWithGain_adds_copy. }
  destruct (copy2WithGain_samples tmp src1 src2 g1 g2 n) as (t & Htmp & Hlt & _ & Hint); [done..|].
  destruct (add_samples dest t n) as (p & Hp & Hlp & Houtp & Hinp); [lia..|].
  destruct (add2WithGain_samples dest src1 src2 g1 g2 n) as (q & Hq & Hlq & Houtq & Hinq); [done..|].
  exists t, p. split; [done|]. split; [done|]. rewrite Hq. f_equal.
  apply buffer_ext. intros k.
  destruct (decide (0 ≤ k < n)) as [Hk|Hk]; [|by rewrite Houtp, Houtq].
  rewrite Hinp, Hinq, Hint by done.
  destruct (load dest k); [simpl | done]. destruct (load src1 k); [simpl | done].
  by destruct (load src2 k).
Qed.

(** X11.  [addWithGain] with a gain that is not zero adds to the destination
    what [copy1WithGain] writes with that gain: the accumulating operation is
    the scaled copy followed by [add]. *)
Theorem addWithGain_is_add_of_copy1WithGain (pDest pTmp pSrc : list CSAMPLE)
    (gain : CSAMPLE_GAIN) (numSamples : SINT) :
  (gain == CSAMPLE_GAIN_ZERO)%f32 = false →
  numSamples ≤ Z.of_nat (length pDest) → numSamples ≤ Z.of_nat (length pTmp) →
  numSamples ≤ Z.of_nat (length pSrc) →
  ∃ t p, copy1WithGain pTmp pSrc gain numSamples = Some t ∧
         add pDest t numSamples = Some p ∧
         addWithGain pDest pSrc gain numSamples = Some p.
Proof. apply addWithGain_adds_copy. Qed.

Lemma addWithGain_is_add_of_copy1WithGain_witness :
  ∃ t p, copy1WithGain [CSAMPLE_ZERO] [F32.of_Z 3] (F32.of_Z 2) 1 = Some t ∧
         add [F32.of_Z 1] t 1 = Some p ∧
         addWithGain [F32.of_Z 1] [F32.of_Z 3] (F32.of_Z 2) 1 = Some p.
Proof. apply addWithGain_is_add_of_copy1WithGain; [reflexivity | simpl; lia..]. Defined.

(** X12.  [add2WithGain] adds to the destination what [copy2WithGain] writes
    with the same sources and gains, through every path of the two functions
    but the one where both gains are zero (there the one leaves the
    destination alone, while the sum with the cleared buffer would turn a
    sample -0 into +0). *)
Theorem add2WithGain_is_add_of_copy2WithGain (pDest pTmp pSrc1 pSrc2 : list CSAMPLE)
    (gain1 gain2 : CSAMPLE_GAIN) (numSamples : SINT) :
  (gain1 == CSAMPLE_GAIN_ZERO)%f32 && (gain2 == CSAMPLE_GAIN_ZERO)%f32 = false →
  numSamples ≤ Z.of_nat (length pDest) → numSamples ≤ Z.of_nat (length pTmp) →
  numSamples ≤ Z.of_nat (length pSrc1) → numSamples ≤ Z.of_nat (length pSrc2) →
  ∃ t p, copy2WithGain pTmp pSrc1 gain1 pSrc2 gain2 numSamples = Some t ∧
         add pDest t numSamples = Some p ∧
         add2WithGain pDest pSrc1 gain1 pSrc2 gain2 numSamples = Some p.
Proof. apply add2WithGain_adds_copy. Qed.

Lemma add2WithGain_is_add_of_copy2WithGain_witness :
  ∃ t p, copy2WithGain [CSAMPLE_ZERO] [F32.of_Z 3] (F32.of_Z 2) [F32.of_Z 5] (F32.of_Z 0) 1 = Some t ∧
         add [F32.of_Z 1] t 1 = Some p ∧
         add2WithGain [F32.of_Z 1] [F32.of_Z 3] (F32.of_Z 2) [F32.of_Z 5] (F32.of_Z 0) 1 = Some p.
Proof. apply add2WithGain_is_add_of_copy2WithGain; [reflexivity | simpl; lia..]. Defined.

Lemma add3WithGain_samples (dest src1 src2 src3 : list CSAMPLE) g1 g2 g3 n :
  (g1 == CSAMPLE_GAIN_ZERO)%f32 = false → (g2 == CSAMPLE_GAIN_ZERO)%f32 = false →
  (g3 == CSAMPLE_GAIN_ZERO)%f32 = false →
  n ≤ Z.of_nat (length dest) → n ≤ Z.of_nat (length src1) → n ≤ Z.of_nat (length src2) →
  n ≤ Z.of_nat (length src3) →
  ∃ p', add3WithGain dest src1 g1 src2 g2 src3 g3 n = Some p' ∧ length p' = length dest ∧
    (∀ k, ¬ (0 ≤ k < n) → load p' k = load dest k) ∧
    (∀ i, 0 ≤ i < n → load p' i =
       (x ← load dest i; s1 ← load src1 i; s2 ← load src2 i; s3 ← load src3 i;
        Some (x + (s1 * g1 + s2 * g2 + s3 * g3))%f32)).
Proof.
  intros Hg1 Hg2 Hg3 Hd Hs1 Hs2 Hs3. unfold add3WithGain. rewrite Hg1, Hg2, Hg3.
  apply sample_loop; [done|].
  intros i p Hi Hlen Hp.
  destruct (load_in dest i) as [x Hx]; [lia|].
  destruct (load_in src1 i) as [s1 Hs1']; [lia|]. destruct (load_in src2 i) as [s2 Hs2']; [lia|].
  destruct (load_in src3 i) as [s3 Hs3']; [lia|].
  rewrite Hx, Hs1', Hs2', Hs3'. eexists. split; [done|]. simpl.
  by rewrite (update_store p i _ x) by congruence.
Qed.

Lemma copy3WithGain_samples (dest src0 src1 src2 : list CSAMPLE) g0 g1 g2 n :
  (g0 == CSAMPLE_GAIN_ZERO)%f32 = false → (g1 == CSAMPLE_GAIN_ZERO)%f32 = false →
  (g2 == CSAMPLE_GAIN_ZERO)%f32 = false →
  n ≤ Z.of_nat (length dest) → n ≤ Z.of_nat (length src0) → n ≤ Z.of_nat (length src1) →
  n ≤ Z.of_nat (length src2) →
  ∃ p', copy3WithGain dest src0 g0 src1 g1 src2 g2 n = Some p' ∧ length p' = length dest ∧
    (∀ k, ¬ (0 ≤ k < n) → load p' k = load dest k) ∧
    (∀ i, 0 ≤ i < n → load p' i =
       (s0 ← load src0 i; s1 ← load src1 i; s2 ← load src2 i;
        Some (s0 * g0 + s1 * g1 + s2 * g2)%f32)).
Proof.
  intros Hg0 Hg1 Hg2 Hd Hs0 Hs1 Hs2. unfold copy3WithGain. rewrite Hg0, Hg1, Hg2.
  apply sample_loop; [done|].
  intros i p Hi Hlen Hp.
  destruct (load_in src0 i) as [s0 Hs0']; [lia|]. destruct (load_in src1 i) as [s1 Hs1']; [lia|].
  destruct (load_in src2 i) as [s2 Hs2']; [lia|].
  rewrite Hs0', Hs1', Hs2'. eexists. split; done.
Qed.

(** X13.  [add3WithGain] adds to the destination what [copy3WithGain] writes
    with the same sources and gains, unless all three gains are zero: the two
    functions drop the sources of gain zero in the same order. *)
Theorem add3WithGain_is_add_of_copy3WithGain (pDest pTmp pSrc1 pSrc2 pSrc3 : list CSAMPLE)
    (gain1 gain2 gain3 : CSAMPLE_GAIN) (numSamples : SINT) :
  (gain1 == CSAMPLE_GAIN_ZERO)%f32 && (gain2 == CSAMPLE_GAIN_ZERO)%f32 &&
    (gain3 == CSAMPLE_GAIN_ZERO)%f32 = false →
  numSamples ≤ Z.of_nat (length pDest) → numSamples ≤ Z.of_nat (length pTmp) →
  numSamples ≤ Z.of_nat (length pSrc1) → numSamples ≤ Z.of_nat (length pSrc2) →
  numSamples ≤ Z.of_nat (length pSrc3) →
  ∃ t p, copy3WithGain pTmp pSrc1 gain1 pSrc2 gain2 pSrc3 gain3 numSamples = Some t ∧
         add pDest t numSamples = Some p ∧
         add3WithGain pDest pSrc1 gain1 pSrc2 gain2 pSrc3 gain3 numSamples = Some p.
Proof.
  intros Hg Hd Ht Hs1 Hs2 Hs3.
  destruct (gain1 == CSAMPLE_GAIN_ZERO)%f32 eqn:Hg1.
  { unfold copy3WithGain, add3WithGain. rewrite Hg1. by apply add2WithGain_adds_copy. }
  destruct (gain2 == CSAMPLE_GAIN_ZERO)%f32 eqn:Hg2.
  { unfold copy3WithGain, add3WithGain. rewrite Hg1, Hg2. apply add2WithGain_adds_copy; try done.
    by rewrite Hg1. }
  destruct (gain3 == CSAMPLE_GAIN_ZERO)%f32 eqn:Hg3.
  { unfold copy3WithGain, add3WithGain. rewrite Hg1, Hg2, Hg3.
    apply add2WithGain_adds_copy; try done. by rewrite Hg1. }
  destruct (copy3WithGain_samples pTmp pSrc1 pSrc2 pSrc3 gain1 gain2 gain3 numSamples)
    as (t & Htmp & Hlt & _ & Hint); [done..|].
  destruct (add_samples pDest t numSamples) as (p & Hp & Hlp & Houtp & Hinp); [lia..|].
  destruct (add3WithGain_samples pDest pSrc1 pSrc2 pSrc3 gain1 gain2 gain3 numSamples)
    as (q & Hq & Hlq & Houtq & Hinq); [done..|].
  exists t, p. split; [done|]. split; [done|]. rewrite Hq. f_equal.
  apply buffer_ext. intros k.
  destruct (decide (0 ≤ k < numSamples)) as [Hk|Hk]; [|by rewrite Houtp, Houtq].
  rewrite Hinp, Hinq, Hint by done.
  destruct (load pDest k); [simpl | done]. destruct (load pSrc1 k); [simpl | done].
  destruct (load pSrc2 k); [simpl | done]. by destruct (load pSrc3 k).
Qed.

Lemma add3WithGain_is_add_of_copy3WithGain_witness :
  ∃ t p, copy3WithGain [CSAMPLE_ZERO] [F32.of_Z 3] (F32.of_Z 2) [F32.of_Z 5] (F32.of_Z 0)
           [F32.of_Z 7] (F32.of_Z 4) 1 = Some t ∧
         add [F32.of_Z 1] t 1 = Some p ∧
         add3WithGain [F32.of_Z 1] [F32.of_Z 3] (F32.of_Z 2) [F32.of_Z 5] (F32.of_Z 0)
           [F32.of_Z 7] (F32.of_Z 4) 1 = Some p.
Proof. apply add3WithGain_is_add_of_copy3WithGain; [reflexivity | simpl; lia..]. Defined.

(** ** Copies with a ramping gain *)

Lemma empty_frames n : n ≤ 0 → n ÷ 2 ≤ 0 ∧ 2 * (n ÷ 2) ≤ 0.
Proof. intros Hn. pose proof (quot2_nonpos n Hn). lia. Qed.

Lemma copy1WithRampingGain_frames (dest src : list CSAMPLE) g0 g1 n :
  (g0 == CSAMPLE_GAIN_ZERO)%f32 && (g1 == CSAMPLE_GAIN_ZERO)%f32 = false →
  n ≤ Z.of_nat (length dest) → n ≤ Z.of_nat (length src) →
  ∃ p', copy1WithRampingGain dest src g0 g1 n = Some p' ∧ length p' = length dest ∧
    (∀ k, ¬ (0 ≤ k < 2 * (n ÷ 2)) → load p' k = load dest k) ∧
    (∀ i j, 0 ≤ i < n ÷ 2 → 0 ≤ j < 2 →
       load p' (2 * i + j) = (s ← load src (2 * i + j); Some (s * ramp_gain g0 g1 n i)%f32)).
Proof.
  intros Hg Hd Hs. unfold copy1WithRampingGain. rewrite Hg.
  destruct (Z.le_gt_cases n 0) as [Hn|Hn].
  { destruct (empty_frames n Hn). rewrite for_loop_empty by lia.
    exists dest. repeat split; try done; intros; lia. }
  pose proof (quot2_bounds n ltac:(lia)) as (Hq0 & Hq1 & Hq2).
  edestruct (frame_loop 2 (λ i j, s ← load src (2 * i + j); Some (s * ramp_gain g0 g1 n i)%f32) 0 (n ÷ 2))
    as (p' & Hp' & Hlen' & Hout & Hin); [lia | |
      exists p'; split; [exact Hp'|]; split; [done|];
      split; [intros k Hk; apply Hout; lia | exact Hin] ].
  intros i p Hi Hlen _.
  destruct (load_in src (i * 2)) as [a Ha]; [lia|].
  destruct (load_in src (i * 2 + 1)) as [b Hb]; [lia|].
  rewrite Ha, Hb. run_stores. eexists. split; [done|].
  split; [by rewrite !length_insert|]. split.
  - intros k Hk. loads_of_inserts.
  - intros j Hj. assert (j = 0 ∨ j = 1) as [-> | ->] by lia.
    + replace (2 * i + 0) with (i * 2) by lia. rewrite Ha. loads_of_inserts.
    + replace (2 * i + 1) with (i * 2 + 1) by lia. rewrite Hb. loads_of_inserts.
Qed.

Lemma copy2WithRampingGain_frames (dest src0 src1 : list CSAMPLE) g0in g0out g1in g1out n :
  (g0in == CSAMPLE_GAIN_ZERO)%f32 && (g0out == CSAMPLE_GAIN_ZERO)%f32 = false →
  (g1in == CSAMPLE_GAIN_ZERO)%f32 && (g1out == CSAMPLE_GAIN_ZERO)%f32 = false →
  n ≤ Z.of_nat (length dest) → n ≤ Z.of_nat (length src0) → n ≤ Z.of_nat (length src1) →
  ∃ p', copy2WithRampingGain dest src0 g0in g0out src1 g1in g1out n = Some p' ∧
    length p' = length dest ∧
    (∀ k, ¬ (0 ≤ k < 2 * (n ÷ 2)) → load p' k = load dest k) ∧
    (∀ i j, 0 ≤ i < n ÷ 2 → 0 ≤ j < 2 →
       load p' (2 * i + j) =
       (a ← load src0 (2 * i + j); b ← load src1 (2 * i + j);
        Some (a * ramp_gain g0in g0out n i + b * ramp_gain g1in g1out n i)%f32)).
Proof.
  intros Hg0 Hg1 Hd Hs0 Hs1. unfold copy2WithRampingGain. rewrite Hg0, Hg1.
  destruct (Z.le_gt_cases n 0) as [Hn|Hn].
  { destruct (empty_frames n Hn). rewrite for_loop_empty by lia.
    exists dest. repeat split; try done; intros; lia. }
  pose proof (quot2_bounds n ltac:(lia)) as (Hq0 & Hq1 & Hq2).
  edestruct (frame_loop 2 (λ i j, a ← load src0 (2 * i + j); b ← load src1 (2 * i + j);
      Some (a * ramp_gain g0in g0out n i + b * ramp_gain g1in g1out n i)%f32) 0 (n ÷ 2))
    as (p' & Hp' & Hlen' & Hout & Hin); [lia | |
      exists p'; split; [exact Hp'|]; split; [done|];
      split; [intros k Hk; apply Hout; lia | exact Hin] ].
  intros i p Hi Hlen _.
  destruct (load_in src0 (i * 2)) as [a0 Ha0]; [lia|].
  destruct (load_in src0 (i * 2 + 1)) as [a1 Ha1]; [lia|].
  destruct (load_in src1 (i * 2)) as [b0 Hb0]; [lia|].
  destruct (load_in src1 (i * 2 + 1)) as [b1 Hb1]; [lia|].
  rewrite Ha0, Ha1, Hb0, Hb1. run_stores. eexists. split; [done|].
  split; [by rewrite !length_insert|]. split.
  - intros k Hk. loads_of_inserts.
  - intros j Hj. assert (j = 0 ∨ j = 1) as [-> | ->] by lia.
    + replace (2 * i + 0) with (i * 2) by lia. rewrite Ha0, Hb0. loads_of_inserts.
    + replace (2 * i + 1) with (i * 2 + 1) by lia. rewrite Ha1, Hb1. loads_of_inserts.
Qed.

Lemma copy3WithRampingGain_frames (dest src0 src1 src2 : list CSAMPLE)
    g0in g0out g1in g1out g2in g2out n :
  (g0in == CSAMPLE_GAIN_ZERO)%f32 && (g0out == CSAMPLE_GAIN_ZERO)%f32 = false →
  (g1in == CSAMPLE_GAIN_ZERO)%f32 && (g1out == CSAMPLE_GAIN_ZERO)%f32 = false →
  (g2in == CSAMPLE_GAIN_ZERO)%f32 && (g2out == CSAMPLE_GAIN_ZERO)%f32 = false →
  n ≤ Z.of_nat (length dest) → n ≤ Z.of_nat (length src0) → n ≤ Z.of_nat (length src1) →
  n ≤ Z.of_nat (length src2) →
  ∃ p', copy3WithRampingGain dest src0 g0in g0out src1 g1in g1out src2 g2in g2out n = Some p' ∧
    length p' = length dest ∧
    (∀ k, ¬ (0 ≤ k < 2 * (n ÷ 2)) → load p' k = load dest k) ∧
    (∀ i j, 0 ≤ i < n ÷ 2 → 0 ≤ j < 2 →
       load p' (2 * i + j) =
       (a ← load src0 (2 * i + j); b ← load src1 (2 * i + j); c ← load src2 (2 * i + j);
        Some (a * ramp_gain g0in g0out n i + b * ramp_gain g1in g1out n i
              + c * ramp_gain g2in g2out n i)%f32)).
Proof.
  intros Hg0 Hg1 Hg2 Hd Hs0 Hs1 Hs2. unfold copy3WithRampingGain. rewrite Hg0, Hg1, Hg2.
  destruct (Z.le_gt_cases n 0) as [Hn|Hn].
  { destruct (empty_frames n Hn). rewrite for_loop_empty by lia.
    exists dest. repeat split; try done; intros; lia. }
  pose proof (quot2_bounds n ltac:(lia)) as (Hq0 & Hq1 & Hq2).
  edestruct (frame_loop 2 (λ i j, a ← load src0 (2 * i + j); b ← load src1 (2 * i + j); c ← load src2 (2 * i + j);
      Some (a * ramp_gain g0in g0out n i + b * ramp_gain g1in g1out n i
            + c * ramp_gain g2in g2out n i)%f32) 0 (n ÷ 2))
    as (p' & Hp' & Hlen' & Hout & Hin); [lia | |
      exists p'; split; [exact Hp'|]; split; [done|];
      split; [intros k Hk; apply Hout; lia | exact Hin] ].
  intros i p Hi Hlen _.
  destruct (load_in src0 (i * 2)) as [a0 Ha0]; [lia|].
  destruct (load_in src0 (i * 2 + 1)) as [a1 Ha1]; [lia|].
  destruct (load_in src1 (i * 2)) as [b0 Hb0]; [lia|].
  destruct (load_in src1 (i * 2 + 1)) as [b1 Hb1]; [lia|].
  destruct (load_in src2 (i * 2)) as [c0 Hc0]; [lia|].
  destruct (load_in src2 (i * 2 + 1)) as [c1 Hc1]; [lia|].
  rewrite Ha0, Ha1, Hb0, Hb1, Hc0, Hc1. run_stores. eexists. split; [done|].
  split; [by rewrite !length_insert|]. split.
  - intros k Hk. loads_of_inserts.
  - intros j Hj. assert (j = 0 ∨ j = 1) as [-> | ->] by lia.
    + replace (2 * i + 0) with (i * 2) by lia. rewrite Ha0, Hb0, Hc0. loads_of_inserts.
    + replace (2 * i + 1) with (i * 2 + 1) by lia. rewrite Ha1, Hb1, Hc1. loads_of_inserts.
Qed.

(** The sample of index [k] as the sample [k mod 2] of the frame [k / 2]. *)
Lemma stereo_index k : k = 2 * (k / 2) + k mod 2 ∧ 0 ≤ k mod 2 < 2.
Proof. Z.div_mod_to_equations. lia. Qed.

(** X14.  When neither of the two sources is silent (gains zero at both ends
    of the ramp), [copy2WithRampingGain] writes the sum of what
    [copy1WithRampingGain] writes for each source with its own ramp: the mix
    of two ramped sources is [add] of the two ramped copies, over the whole
    frames of the buffer. *)
Theorem copy2WithRampingGain_is_sum_of_copies (pDest pTmp pSrc0 pSrc1 : list CSAMPLE)
    (gain0in gain0out gain1in gain1out : CSAMPLE_GAIN) (iNumSamples : Z) :
  (gain0in == CSAMPLE_GAIN_ZERO)%f32 && (gain0out == CSAMPLE_GAIN_ZERO)%f32 = false →
  (gain1in == CSAMPLE_GAIN_ZERO)%f32 && (gain1out == CSAMPLE_GAIN_ZERO)%f32 = false →
  iNumSamples ≤ Z.of_nat (length pDest) → iNumSamples ≤ Z.of_nat (length pTmp) →
  iNumSamples ≤ Z.of_nat (length pSrc0) → iNumSamples ≤ Z.of_nat (length pSrc1) →
  ∃ t0 t1 p,
    copy1WithRampingGain pDest pSrc0 gain0in gain0out iNumSamples = Some t0 ∧
    copy1WithRampingGain pTmp pSrc1 gain1in gain1out iNumSamples = Some t1 ∧
    add t0 t1 (2 * (iNumSamples ÷ 2)) = Some p ∧
    copy2WithRampingGain pDest pSrc0 gain0in gain0out pSrc1 gain1in gain1out iNumSamples
      = Some p.
Proof.
  intros Hg0 Hg1 Hd Ht Hs0 Hs1.
  destruct (copy1WithRampingGain_frames pDest pSrc0 gain0in gain0out iNumSamples)
    as (t0 & Ht0 & Hl0 & Hout0 & Hin0); [done..|].
  destruct (copy1WithRampingGain_frames pTmp pSrc1 gain1in gain1out iNumSamples)
    as (t1 & Ht1 & Hl1 & Hout1 & Hin1); [done..|].
  assert (2 * (iNumSamples ÷ 2) ≤ iNumSamples ∨ iNumSamples ≤ 0 ∧ 2 * (iNumSamples ÷ 2) ≤ 0)
    as Hframes.
  { destruct (Z.le_gt_cases iNumSamples 0) as [Hn|Hn].
    - right. split; [done|]. by apply empty_frames.
    - left. apply quot2_bounds. lia. }
  destruct (add_samples t0 t1 (2 * (iNumSamples ÷ 2))) as (p & Hp & Hlp & Houtp & Hinp); [lia..|].
  destruct (copy2WithRampingGain_frames pDest pSrc0 pSrc1 gain0in gain0out gain1in gain1out
              iNumSamples) as (q & Hq & Hlq & Houtq & Hinq); [done..|].
  exists t0, t1, p. split; [done|]. split; [done|]. split; [done|]. rewrite Hq. f_equal.
  apply buffer_ext. intros k.
  destruct (decide (0 ≤ k < 2 * (iNumSamples ÷ 2))) as [Hk|Hk].
  - rewrite Hinp by done. destruct (stereo_index k) as [Hkdiv Hkmod].
    rewrite Hkdiv. rewrite Hinq, Hin0, Hin1 by lia.
    destruct (load pSrc0 _); [simpl | done]. by destruct (load pSrc1 _).
  - by rewrite Houtq, Houtp, Hout0.
Qed.

Lemma copy2WithRampingGain_is_sum_of_copies_witness :
  ∃ t0 t1 p,
    copy1WithRampingGain [CSAMPLE_ZERO; CSAMPLE_ZERO] [F32.of_Z 1; F32.of_Z 2]
      (F32.of_Z 0) (F32.of_Z 1) 2 = Some t0 ∧
    copy1WithRampingGain [CSAMPLE_ZERO; CSAMPLE_ZERO] [F32.of_Z 3; F32.of_Z 4]
      (F32.of_Z 1) (F32.of_Z 0) 2 = Some t1 ∧
    add t0 t1 (2 * (2 ÷ 2)) = Some p ∧
    copy2WithRampingGain [CSAMPLE_ZERO; CSAMPLE_ZERO] [F32.of_Z 1; F32.of_Z 2]
      (F32.of_Z 0) (F32.of_Z 1) [F32.of_Z 3; F32.of_Z 4] (F32.of_Z 1) (F32.of_Z 0) 2 = Some p.
Proof.
  apply copy2WithRampingGain_is_sum_of_copies; [reflexivity | reflexivity | simpl; lia..].
Defined.

(** X15.  When none of the three sources is silent, [copy3WithRampingGain]
    writes what [copy2WithRampingGain] writes for the first two sources plus
    what [copy1WithRampingGain] writes for the third. *)
Theorem copy3WithRampingGain_is_sum_of_copies (pDest pTmp pSrc0 pSrc1 pSrc2 : list CSAMPLE)
    (gain0in gain0out gain1in gain1out gain2in gain2out : CSAMPLE_GAIN) (iNumSamples : Z) :
  (gain0in == CSAMPLE_GAIN_ZERO)%f32 && (gain0out == CSAMPLE_GAIN_ZERO)%f32 = false →
  (gain1in == CSAMPLE_GAIN_ZERO)%f32 && (gain1out == CSAMPLE_GAIN_ZERO)%f32 = false →
  (gain2in == CSAMPLE_GAIN_ZERO)%f32 && (gain2out == CSAMPLE_GAIN_ZERO)%f32 = false →
  iNumSamples ≤ Z.of_nat (length pDest) → iNumSamples ≤ Z.of_nat (length pTmp) →
  iNumSamples ≤ Z.of_nat (length pSrc0) → iNumSamples ≤ Z.of_nat (length pSrc1) →
  iNumSamples ≤ Z.of_nat (length pSrc2) →
  ∃ t01 t2 p,
    copy2WithRampingGain pDest pSrc0 gain0in gain0out pSrc1 gain1in gain1out iNumSamples
      = Some t01 ∧
    copy1WithRampingGain pTmp pSrc2 gain2in gain2out iNumSamples = Some t2 ∧
    add t01 t2 (2 * (iNumSamples ÷ 2)) = Some p ∧
    copy3WithRampingGain pDest pSrc0 gain0in gain0out pSrc1 gain1in gain1out
      pSrc2 gain2in gain2out iNumSamples = Some p.
Proof.
  intros Hg0 Hg1 Hg2 Hd Ht Hs0 Hs1 Hs2.
  destruct (copy2WithRampingGain_frames pDest pSrc0 pSrc1 gain0in gain0out gain1in gain1out
              iNumSamples) as (t01 & Ht01 & Hl01 & Hout01 & Hin01); [done..|].
  destruct (copy1WithRampingGain_frames pTmp pSrc2 gain2in gain2out iNumSamples)
    as (t2 & Ht2 & Hl2 & Hout2 & Hin2); [done..|].
  assert (2 * (iNumSamples ÷ 2) ≤ iNumSamples ∨ iNumSamples ≤ 0 ∧ 2 * (iNumSamples ÷ 2) ≤ 0)
    as Hframes.
  { destruct (Z.le_gt_cases iNumSamples 0) as [Hn|Hn].
    - right. split; [done|]. by apply empty_frames.
    - left. apply quot2_bounds. lia. }
  destruct (add_samples t01 t2 (2 * (iNumSamples ÷ 2))) as (p & Hp & Hlp & Houtp & Hinp); [lia..|].
  destruct (copy3WithRampingGain_frames pDest pSrc0 pSrc1 pSrc2
              gain0in gain0out gain1in gain1out gain2in gain2out iNumSamples)
    as (q & Hq & Hlq & Houtq & Hinq); [done..|].
  exists t01, t2, p. split; [done|]. split; [done|]. split; [done|]. rewrite Hq. f_equal.
  apply buffer_ext. intros k.
  destruct (decide (0 ≤ k < 2 * (iNumSamples ÷ 2))) as [Hk|Hk].
  - rewrite Hinp by done. destruct (stereo_index k) as [Hkdiv Hkmod].
    rewrite Hkdiv. rewrite Hinq, Hin01, Hin2 by lia.
    destruct (load pSrc0 _); [simpl | done]. destruct (load pSrc1 _); [simpl | done].
    by destruct (load pSrc2 _).
  - by rewrite Houtq, Houtp, Hout01.
Qed.

Lemma copy3WithRampingGain_is_sum_of_copies_witness :
  ∃ t01 t2 p,
    copy2WithRampingGain [CSAMPLE_ZERO; CSAMPLE_ZERO] [F32.of_Z 1; F32.of_Z 2]
      (F32.of_Z 0) (F32.of_Z 1) [F32.of_Z 3; F32.of_Z 4] (F32.of_Z 1) (F32.of_Z 0) 2 = Some t01 ∧
    copy1WithRampingGain [CSAMPLE_ZERO; CSAMPLE_ZERO] [F32.of_Z 5; F32.of_Z 6]
      (F32.of_Z 1) (F32.of_Z 1) 2 = Some t2 ∧
    add t01 t2 (2 * (2 ÷ 2)) = Some p ∧
    copy3WithRampingGain [CSAMPLE_ZERO; CSAMPLE_ZERO] [F32.of_Z 1; F32.of_Z 2]
      (F32.of_Z 0) (F32.of_Z 1) [F32.of_Z 3; F32.of_Z 4] (F32.of_Z 1) (F32.of_Z 0)
      [F32.of_Z 5; F32.of_Z 6] (F32.of_Z 1) (F32.of_Z 1) 2 = Some p.
Proof.
  apply copy3WithRampingGain_is_sum_of_copies;
    [reflexivity | reflexivity | reflexivity | simpl; lia..].
Defined.

(** ** Gain of the two channels *)

Module F32Equal.

(** Two floats that compare equal are the same, or are two zeros. *)
Lemma eqb_true x y :
  F32.eqb x y = true → x = y ∨ ∃ s s', x = S754_zero s ∧ y = S754_zero s'.
Proof.
  unfold F32.eqb, SFeqb.
  destruct x as [sx|sx| |sx mx ex], y as [sy|sy| |sy my ey]; simpl; try done;
    try (destruct sx; done); try (destruct sy; done).
  - intros _. right. eauto.
  - destruct sx, sy; try done; intros _; by left.
  - destruct sx, sy; try done.
    + destruct (Z.compare_spec ex ey) as [->| |]; try done.
      destruct (Pos.compare_cont Eq mx my) eqn:Hm; try done.
      apply Pos.compare_eq in Hm as ->. by left.
    + destruct (Z.compare_spec ex ey) as [->| |]; try done.
      destruct (Pos.compare_cont Eq mx my) eqn:Hm; try done.
      apply Pos.compare_eq in Hm as ->. by left.
Qed.

Lemma eqb_one x : F32.eqb x CSAMPLE_GAIN_ONE = true → x = CSAMPLE_GAIN_ONE.
Proof. intros H. by apply eqb_true in H as [-> | (s & s' & _ & ?)]. Qed.

Lemma eqb_zero x : F32.eqb x CSAMPLE_GAIN_ZERO = true → ∃ s, x = S754_zero s.
Proof. intros H. apply eqb_true in H as [-> | (s & s' & -> & _)]; eauto. Qed.

Lemma sub_self x : F32.is_finite x = true → F32.sub x x = S754_zero false.
Proof.
  destruct x as [s|s| |s m e]; try done; intros _.
  - by destruct s.
  - unfold F32.sub, SFsub. rewrite Z.min_id. unfold shl_align. rewrite Z.sub_diag. simpl fst.
    done.
Qed.

(** The gain delta of a ramp between two equal gains is zero. *)
Lemma no_ramp x k :
  F32.is_finite x = true → k ≠ 0 →
  ((x - x) / F32.of_Z k != F32.of_Z 0)%f32 = false.
Proof.
  intros Hx Hk. rewrite sub_self by done.
  pose proof (Rounding.of_Z_nonzero k Hk) as Hnz.
  destruct (F32.of_Z k) as [| s | |s m e]; try done; by destruct s.
Qed.

End F32Equal.

(** A loop over the frames of a stereo buffer that scales one channel. *)
Lemma gain_channel_loop (gain : Z → CSAMPLE_GAIN) (idx : Z → Z) (c : Z) (buf : list CSAMPLE) m :
  (∀ i, idx i = 2 * i + c) → 0 ≤ c < 2 → 2 * m ≤ Z.of_nat (length buf) →
  ∃ p', for_loop 0 m (λ i p, update p (idx i) (λ x, x * gain i)%f32) buf = Some p' ∧
    length p' = length buf ∧
    (∀ k, ¬ (0 ≤ k < 2 * m) → load p' k = load buf k) ∧
    (∀ i j, 0 ≤ i < m → 0 ≤ j < 2 →
       load p' (2 * i + j) =
       if decide (j = c) then x ← load buf (2 * i + j); Some (x * gain i)%f32
       else load buf (2 * i + j)).
Proof.
  intros Hidx Hc Hm.
  edestruct (frame_loop 2 (λ i j,
      if decide (j = c) then x ← load buf (2 * i + j); Some (x * gain i)%f32
      else load buf (2 * i + j)) 0 m
      (λ i p, update p (idx i) (λ x, x * gain i)%f32) buf)
    as (p' & Hp' & Hlen' & Hout & Hin); [lia | |
      exists p'; split; [exact Hp'|]; split; [done|];
      split; [intros k Hk; apply Hout; lia | exact Hin] ].
  intros i p Hi Hlen Hframe. rewrite Hidx.
  destruct (load_in buf (2 * i + c)) as [x Hx]; [lia|].
  rewrite (update_insert p _ _ x) by (rewrite Hframe by lia; done).
  eexists. split; [done|]. split; [by rewrite length_insert|]. split.
  - intros k Hk. loads_of_inserts.
  - intros j Hj. rewrite load_insert by lia. case_decide as Hj'.
    + assert (j = c) as -> by lia. rewrite decide_True by done. by rewrite Hx.
    + rewrite decide_False by lia. by apply Hframe.
Qed.

(** The two loops of [applyRampingAlternatingGain], one per channel. *)
Lemma gain_channel_loops (gain1 gain2 : Z → CSAMPLE_GAIN) (buf : list CSAMPLE) m :
  2 * m ≤ Z.of_nat (length buf) →
  ∃ p', (p ← for_loop 0 m (λ i p, update p (i * 2) (λ x, x * gain1 i)%f32) buf;
         for_loop 0 m (λ i p, update p (i * 2 + 1) (λ x, x * gain2 i)%f32) p) = Some p' ∧
    length p' = length buf ∧
    (∀ k, ¬ (0 ≤ k < 2 * m) → load p' k = load buf k) ∧
    (∀ i, 0 ≤ i < m →
       load p' (2 * i) = (x ← load buf (2 * i); Some (x * gain1 i)%f32) ∧
       load p' (2 * i + 1) = (x ← load buf (2 * i + 1); Some (x * gain2 i)%f32)).
Proof.
  intros Hm.
  destruct (gain_channel_loop gain1 (λ i, i * 2) 0 buf m) as (p1 & Hp1 & Hl1 & Hout1 & Hin1);
    [intros; lia | lia | done |].
  destruct (gain_channel_loop gain2 (λ i, i * 2 + 1) 1 p1 m) as (p2 & Hp2 & Hl2 & Hout2 & Hin2);
    [intros; lia | lia | lia |].
  exists p2. rewrite Hp1. simpl. split; [done|]. split; [congruence|]. split.
  - intros k Hk. by rewrite Hout2, Hout1.
  - intros i Hi. split.
    + pose proof (Hin2 i 0 Hi ltac:(lia)) as E2. pose proof (Hin1 i 0 Hi ltac:(lia)) as E1.
      rewrite Z.add_0_r in E1, E2. rewrite E2, decide_False by lia.
      by rewrite E1, decide_True by lia.
    + rewrite Hin2, decide_True by lia. by rewrite Hin1, decide_False by lia.
Qed.

Lemma scale_loop (g : CSAMPLE_GAIN) (buf : list CSAMPLE) n :
  n ≤ Z.of_nat (length buf) →
  ∃ p', for_loop 0 n (λ i p, update p i (λ x, x * g)%f32) buf = Some p' ∧
    length p' = length buf ∧
    (∀ k, ¬ (0 ≤ k < n) → load p' k = load buf k) ∧
    (∀ i, 0 ≤ i < n → load p' i = (x ← load buf i; Some (x * g)%f32)).
Proof.
  intros Hn. apply sample_loop; [done|].
  intros i p Hi Hlen Hp. destruct (load_in buf i) as [x Hx]; [lia|].
  rewrite Hx. eexists. split; [done|]. by rewrite (update_store p i _ x) by congruence.
Qed.

(** X16.  With the same gains for the two channels, [applyRampingAlternatingGain]
    does to a stereo buffer what [applyRampingGain] does, through every path
    of the two functions: the gain is finite, the number of samples even. *)
Theorem applyRampingAlternatingGain_equal_channels (pBuffer : list CSAMPLE)
    (gain gainOld : CSAMPLE) (numSamples : SINT) :
  F32.is_finite gain = true →
  numSamples mod 2 = 0 → numSamples ≤ Z.of_nat (length pBuffer) →
  ∃ p, applyRampingAlternatingGain pBuffer gain gain gainOld gainOld numSamples = Some p ∧
       applyRampingGain pBuffer gainOld gain numSamples = Some p.
Proof.
  intros Hfin Heven Hlen.
  assert (numSamples ≤ 0 ∧ numSamples ÷ 2 ≤ 0 ∨
          0 < numSamples ∧ numSamples ÷ 2 ≠ 0 ∧ 2 * (numSamples ÷ 2) = numSamples) as Hn.
  { Z.quot_rem_to_equations. Z.div_mod_to_equations. lia. }
  unfold applyRampingAlternatingGain.
  destruct (gain == gainOld)%f32 eqn:Heq; simpl.
  - unfold applyAlternatingGain. rewrite F32Facts.eqb_refl by by destruct gain.
    destruct (scale_loop gain pBuffer numSamples) as (q & Hq & _); [done|].
    destruct (clear_spec pBuffer numSamples) as (z & Hz & _); [done|].
    apply F32Equal.eqb_true in Heq as [<- | (s & s' & -> & ->)].
    + unfold applyGain, applyRampingGain.
      destruct (gain == CSAMPLE_GAIN_ONE)%f32; simpl; [by eauto|].
      destruct (gain == CSAMPLE_GAIN_ZERO)%f32; simpl; [by eauto|].
      destruct Hn as [[Hn Hq0] | (Hn & Hq0 & _)].
      * rewrite !for_loop_empty by done.
        exists pBuffer. split; [done|]. by destruct (negb _).
      * rewrite F32Equal.no_ramp by done. eauto.
    + unfold applyGain, applyRampingGain.
      assert ((S754_zero s == CSAMPLE_GAIN_ONE)%f32 = false) as -> by by destruct s.
      assert ((S754_zero s' == CSAMPLE_GAIN_ONE)%f32 = false) as -> by by destruct s'.
      assert ((S754_zero s == CSAMPLE_GAIN_ZERO)%f32 = true) as -> by by destruct s.
      assert ((S754_zero s' == CSAMPLE_GAIN_ZERO)%f32 = true) as -> by by destruct s'.
      simpl. eauto.
  - unfold applyRampingGain.
    assert ((gainOld == CSAMPLE_GAIN_ONE)%f32 && (gain == CSAMPLE_GAIN_ONE)%f32 = false) as ->.
    { destruct (gainOld == CSAMPLE_GAIN_ONE)%f32 eqn:H1; [simpl | done].
      destruct (gain == CSAMPLE_GAIN_ONE)%f32 eqn:H2; [|done].
      apply F32Equal.eqb_one in H1, H2. by subst. }
    assert ((gainOld == CSAMPLE_GAIN_ZERO)%f32 && (gain == CSAMPLE_GAIN_ZERO)%f32 = false) as ->.
    { destruct (gainOld == CSAMPLE_GAIN_ZERO)%f32 eqn:H1; [simpl | done].
      destruct (gain == CSAMPLE_GAIN_ZERO)%f32 eqn:H2; [|done].
      apply F32Equal.eqb_zero in H1 as [s1 ->], H2 as [s2 ->]. by destruct s1, s2. }
    destruct Hn as [[Hn Hq0] | (Hn & Hq0 & Hq1)].
    { rewrite !for_loop_empty by done. exists pBuffer.
      destruct (negb _); simpl; by rewrite for_loop_empty by done. }
    destruct (negb _) eqn:Hdelta.
    + edestruct (gain_channel_loops) as (p & Hp & Hl & Hout & Hin);
        [| exists p; split; [exact Hp|] ]; [lia|].
      edestruct (applyRampingGain_loop) as (q & Hq & Hl' & Hout' & Hin');
        [| rewrite Hq ]; [lia|].
      f_equal. apply buffer_ext. intros k.
      destruct (decide (0 ≤ k < 2 * (numSamples ÷ 2))) as [Hk|Hk]; [|by rewrite Hout, Hout'].
      destruct (load_in pBuffer k) as [x Hx]; [lia|]. rewrite (Hin' k x) by done.
      destruct (Hin (k ÷ 2)) as [E0 E1]; [Z.quot_rem_to_equations; lia|].
      destruct (decide (k = 2 * (k ÷ 2))) as [Hk0|Hk0].
      * rewrite <- Hk0 in E0. by rewrite E0, Hx.
      * assert (k = 2 * (k ÷ 2) + 1) as Hk1 by (Z.quot_rem_to_equations; lia).
        rewrite <- Hk1 in E1. by rewrite E1, Hx.
    + edestruct (gain_channel_loops (λ _, gainOld) (λ _, gainOld)) as (p & Hp & Hl & Hout & Hin);
        [| exists p; split; [exact Hp|] ]; [lia|].
      destruct (scale_loop gainOld pBuffer numSamples) as (q & Hq & Hl' & Hout' & Hin'); [done|].
      rewrite Hq. f_equal. apply buffer_ext. intros k.
      destruct (decide (0 ≤ k < numSamples)) as [Hk|Hk]; [|by rewrite Hout, Hout' by lia].
      rewrite Hin' by done.
      destruct (Hin (k ÷ 2)) as [E0 E1]; [Z.quot_rem_to_equations; lia|].
      destruct (decide (k = 2 * (k ÷ 2))) as [Hk0|Hk0].
      * by rewrite <- Hk0 in E0.
      * assert (k = 2 * (k ÷ 2) + 1) as Hk1 by (Z.quot_rem_to_equations; lia).
        by rewrite <- Hk1 in E1.
Qed.

Lemma applyRampingAlternatingGain_equal_channels_witness :
  ∃ p, applyRampingAlternatingGain [F32.of_Z 1; F32.of_Z 2; F32.of_Z 3; F32.of_Z 4]
         (F32.of_Z 1) (F32.of_Z 1) (F32.of_Z 0) (F32.of_Z 0) 4 = Some p ∧
       applyRampingGain [F32.of_Z 1; F32.of_Z 2; F32.of_Z 3; F32.of_Z 4]
         (F32.of_Z 0) (F32.of_Z 1) 4 = Some p.
Proof.
  apply applyRampingAlternatingGain_equal_channels; [reflexivity | reflexivity | simpl; lia].
Defined.

(** ** Analysis *)

Module F32Order.

Lemma abs_nonneg x : F32.is_nan x = false → f32_nonneg (F32.abs x) = true.
Proof. by destruct x. Qed.

Lemma nonneg_not_nan x : f32_nonneg x = true → F32.is_nan x = false.
Proof. by destruct x. Qed.

Lemma ltb_irrefl x : F32.ltb x x = false.
Proof.
  unfold F32.ltb, SFltb. destruct x as [s|s| |s m e]; simpl; try done.
  - by destruct s.
  - destruct s; rewrite Z.compare_refl, Pos.compare_cont_refl; done.
Qed.

(** Among the numbers that are not negative: what is not above [m] is not
    above a number that is above [m]. *)
Lemma not_above_trans m a y :
  f32_nonneg m = true → f32_nonneg a = true → f32_nonneg y = true →
  F32.ltb m a = true → F32.ltb m y = false → F32.ltb a y = false.
Proof.
  unfold F32.ltb, SFltb.
  destruct m as [[]|[]| |[] mm em], a as [[]|[]| |[] ma ea], y as [[]|[]| |[] my ey];
    simpl; try done.
  change (Pos.compare_cont Eq mm ma) with (Pos.compare mm ma).
  change (Pos.compare_cont Eq mm my) with (Pos.compare mm my).
  change (Pos.compare_cont Eq ma my) with (Pos.compare ma my).
  intros _ _ _.
  destruct (Z.compare_spec em ea), (Z.compare_spec em ey), (Z.compare_spec ea ey);
    try done; try lia;
    destruct (Pos.compare_spec mm ma), (Pos.compare_spec mm my), (Pos.compare_spec ma my);
    try done; lia.
Qed.

End F32Order.

(** X17.  When the first sample is not negative and no sample is a NaN,
    [maxAbsAmplitude] returns the largest absolute value of the first
    [numSamples] samples: the value is the absolute value of one of them, and
    the absolute value of none of them is above it. *)
Theorem maxAbsAmplitude_is_maximum (pBuffer : list CSAMPLE) (numSamples : SINT) (first : CSAMPLE) :
  1 ≤ numSamples ≤ Z.of_nat (length pBuffer) →
  load pBuffer 0 = Some first → f32_nonneg first = true →
  (∀ i x, 0 ≤ i < numSamples → load pBuffer i = Some x → F32.is_nan x = false) →
  ∃ max, maxAbsAmplitude pBuffer numSamples = Some max ∧
    (∃ i x, 0 ≤ i < numSamples ∧ load pBuffer i = Some x ∧ max = F32.abs x) ∧
    (∀ i x, 0 ≤ i < numSamples → load pBuffer i = Some x → (F32.abs x > max)%f32 = false).
Proof.
  intros Hn Hfirst Hnonneg Hnan. unfold maxAbsAmplitude. rewrite Hfirst. simpl.
  pose (I := λ (n : Z) (max : CSAMPLE), f32_nonneg max = true ∧
    (∃ i x, 0 ≤ i < n ∧ load pBuffer i = Some x ∧ max = F32.abs x) ∧
    (∀ i x, 0 ≤ i < n → load pBuffer i = Some x → (F32.abs x > max)%f32 = false)).
  assert (F32.abs first = first) as Habs by by destruct first as [[]|[]| |[] ? ?].
  edestruct (for_loop_inv I 1 numSamples) as (max & Hmax & _ & Hex & Hall);
    [| | | exists max; split; [exact Hmax|]; split; [exact Hex | exact Hall] ].
  - lia.
  - split; [done|]. split.
    + exists 0, first. split; [lia|]. done.
    + intros i x Hi Hx. assert (i = 0) as -> by lia.
      assert (x = first) as -> by congruence. rewrite Habs. apply F32Order.ltb_irrefl.
  - intros i max Hi (Hmaxn & (j & y & Hj & Hy & Heq) & Hall).
    destruct (load_in pBuffer i) as [x Hx]; [lia|]. rewrite Hx. simpl.
    eexists. split; [done|]. unfold I.
    pose proof (Hnan i x ltac:(lia) Hx) as Hxn.
    destruct (F32.abs x > max)%f32 eqn:Hgt.
    + split; [by apply F32Order.abs_nonneg|]. split.
      * exists i, x. split; [lia|]. done.
      * intros k z Hk Hz. destruct (decide (k = i)) as [->|Hne].
        -- assert (z = x) as -> by congruence. apply F32Order.ltb_irrefl.
        -- apply (F32Order.not_above_trans max); try done.
           ++ by apply F32Order.abs_nonneg.
           ++ apply F32Order.abs_nonneg. apply (Hnan k); [lia | done].
           ++ apply (Hall k z); [lia | done].
    + split; [done|]. split.
      * exists j, y. split; [lia|]. done.
      * intros k z Hk Hz. destruct (decide (k = i)) as [->|Hne].
        -- assert (z = x) as -> by congruence. done.
        -- apply (Hall k z); [lia | done].
Qed.

Lemma maxAbsAmplitude_is_maximum_witness :
  ∃ max, maxAbsAmplitude [F32.of_Z 1; F32.of_Z (-5); F32.of_Z 2] 3 = Some max ∧
    (∃ i x, 0 ≤ i < 3 ∧ load [F32.of_Z 1; F32.of_Z (-5); F32.of_Z 2] i = Some x ∧
            max = F32.abs x) ∧
    (∀ i x, 0 ≤ i < 3 → load [F32.of_Z 1; F32.of_Z (-5); F32.of_Z 2] i = Some x →
            (F32.abs x > max)%f32 = false).
Proof.
  apply (maxAbsAmplitude_is_maximum _ _ (F32.of_Z 1)); [simpl; lia | reflexivity | reflexivity |].
  intros i x Hi. assert (i = 0 ∨ i = 1 ∨ i = 2) as [-> | [-> | ->]] by lia;
    intros [= <-]; reflexivity.
Defined.

Module F32Sign.

(** Rounding keeps the sign. *)
Lemma binary_round_aux_sign s m e l :
  match binary_round_aux F32.prec F32.emax s m e l with
  | S754_zero s' | S754_infinity s' | S754_finite s' _ _ => s' = s
  | S754_nan => True
  end.
Proof.
  unfold binary_round_aux.
  destruct (shr_fexp _ _ m e l) as [r1 e1].
  destruct (shr_fexp _ _ _ e1 loc_Exact) as [r2 e2].
  destruct (shr_m r2); try done. by destruct (_ <=? _).
Qed.

Lemma binary_round_aux_not_negative m e l :
  f32_not_negative (binary_round_aux F32.prec F32.emax false m e l) = true.
Proof.
  pose proof (binary_round_aux_sign false m e l) as H.
  by destruct (binary_round_aux _ _ false m e l) as [[]|[]| |[] ? ?].
Qed.

Lemma binary_round_not_negative m e :
  f32_not_negative (binary_round F32.prec F32.emax false m e) = true.
Proof.
  unfold binary_round. destruct (shl_align _ _ _) as [mz ez].
  apply binary_round_aux_not_negative.
Qed.

Lemma mul_self x : f32_not_negative (x * x)%f32 = true.
Proof.
  destruct x as [[]|[]| |s m e]; try done.
  unfold F32.mul, SFmul. rewrite xorb_nilpotent. apply binary_round_aux_not_negative.
Qed.

Lemma add_not_negative x y :
  f32_not_negative x = true → f32_not_negative y = true → f32_not_negative (x + y)%f32 = true.
Proof.
  destruct x as [[]|[]| |[] mx ex], y as [[]|[]| |[] my ey]; try done. intros _ _.
  unfold F32.add, SFadd. cbn [cond_Zopp Z.add]. unfold binary_normalize.
  apply binary_round_not_negative.
Qed.

Lemma of_Z_not_negative z : 0 ≤ z → f32_not_negative (F32.of_Z z) = true.
Proof.
  intros Hz. unfold F32.of_Z, binary_normalize.
  destruct z as [|p|p]; [done | | lia]. apply binary_round_not_negative.
Qed.

Lemma div_not_negative x y :
  f32_not_negative x = true → f32_not_negative y = true → f32_not_negative (x / y)%f32 = true.
Proof.
  destruct x as [[]|[]| |[] mx ex], y as [[]|[]| |[] my ey]; try done. intros _ _.
  unfold F32.div, SFdiv. destruct (SFdiv_core_binary _ _ _ _ _ _) as [[mz ez] lz].
  apply binary_round_aux_not_negative.
Qed.

Lemma sqrt_not_negative x : f32_not_negative x = true → f32_not_negative (f32_sqrt x) = true.
Proof.
  destruct x as [[]|[]| |[] mx ex]; try done. intros _.
  unfold f32_sqrt, SFsqrt. destruct (SFsqrt_core_binary _ _ _ _) as [[mz ez] lz].
  apply binary_round_aux_not_negative.
Qed.

End F32Sign.

Lemma sumSquared_sum (buf : list CSAMPLE) n :
  n ≤ Z.of_nat (length buf) →
  ∃ s, sumSquared buf n = Some s ∧ f32_not_negative s = true.
Proof.
  intros Hn. unfold sumSquared.
  destruct (Z.le_gt_cases n 0) as [Hn0|Hn0].
  { rewrite for_loop_empty by done. by exists CSAMPLE_ZERO. }
  apply (for_loop_inv (λ _ s, f32_not_negative s = true)); [lia | done |].
  intros i s Hi Hs. destruct (load_in buf i) as [x Hx]; [lia|].
  rewrite Hx. simpl. eexists. split; [done|].
  apply F32Sign.add_not_negative; [done | apply F32Sign.mul_self].
Qed.

(** X18.  [sumSquared] never returns a negative number, whatever the samples:
    its result is +0, a positive number, +infinity or a NaN, also when the
    squares or their sum overflow. *)
Theorem sumSquared_not_negative (pBuffer : list CSAMPLE) (numSamples : SINT) :
  numSamples ≤ Z.of_nat (length pBuffer) →
  ∃ sumSq, sumSquared pBuffer numSamples = Some sumSq ∧
    f32_not_negative sumSq = true ∧ (sumSq < CSAMPLE_ZERO)%f32 = false.
Proof.
  intros Hn. destruct (sumSquared_sum pBuffer numSamples Hn) as (s & Hs & Hnn).
  exists s. split; [done|]. split; [done|]. by destruct s as [[]|[]| |[] ? ?].
Qed.

Lemma sumSquared_not_negative_witness :
  ∃ sumSq, sumSquared [F32.of_Z (-3); F32.of_Z 4] 2 = Some sumSq ∧
    f32_not_negative sumSq = true ∧ (sumSq < CSAMPLE_ZERO)%f32 = false.
Proof. apply sumSquared_not_negative. simpl. lia. Defined.

(** X19.  [rms] of a number of samples that is not negative never returns a
    negative number: its result is +0, a positive number, +infinity or a NaN
    (the NaN that it returns for no sample at all, where it divides zero by
    zero). *)
Theorem rms_not_negative (pBuffer : list CSAMPLE) (numSamples : SINT) :
  0 ≤ numSamples ≤ Z.of_nat (length pBuffer) →
  ∃ r, rms pBuffer numSamples = Some r ∧ f32_not_negative r = true ∧
       (numSamples = 0 → r = S754_nan).
Proof.
  intros Hn. unfold rms.
  destruct (sumSquared_sum pBuffer numSamples) as (s & Hs & Hnn); [lia|].
  rewrite Hs. simpl. eexists. split; [done|]. split.
  - apply F32Sign.sqrt_not_negative, F32Sign.div_not_negative; [done|].
    apply F32Sign.of_Z_not_negative. lia.
  - intros ->. unfold sumSquared in Hs. rewrite for_loop_empty in Hs by lia.
    by injection Hs as <-.
Qed.

Lemma rms_not_negative_witness :
  ∃ r, rms [F32.of_Z (-3); F32.of_Z 4] 2 = Some r ∧ f32_not_negative r = true ∧
       (2 = 0 → r = S754_nan).
Proof. apply rms_not_negative. simpl. lia. Defined.

Module F32Count.

Lemma binary_round_aux_positive m e l :
  -149 ≤ e → f32_positive (binary_round_aux F32.prec F32.emax false (Zpos m) e l).
Proof.
  intros He. unfold binary_round_aux.
  destruct (Rounding.shr_fexp_pos m e l He) as (r1 & e1 & -> & Hr1 & He1).
  pose proof (Rounding.round_nearest_even_pos (shr_m r1) (loc_of_shr_record r1) Hr1) as Hpos.
  destruct (round_nearest_even (shr_m r1) (loc_of_shr_record r1)) as [|m1|m1]; try lia.
  destruct (Rounding.shr_fexp_pos m1 e1 loc_Exact) as (r2 & e2 & -> & Hr2 & He2); [lia|].
  destruct (shr_m r2) as [|m2|m2]; try lia.
  destruct (e2 <=? F32.emax - F32.prec); simpl; [lia | done].
Qed.

Lemma binary_round_positive m e :
  -149 ≤ e → f32_positive (binary_round F32.prec F32.emax false m e).
Proof.
  intros He. unfold binary_round, shl_align.
  assert (-149 ≤ fexp F32.prec F32.emax (Zpos (digits2_pos m) + e)) as Hfexp.
  { unfold fexp, emin, F32.prec, F32.emax. lia. }
  destruct (fexp _ _ _ - e) eqn:Hk; apply binary_round_aux_positive; lia.
Qed.

(** The counter of [sumAbsPerChannel] goes up by one: it is positive
    afterwards, also when it no longer changes. *)
Lemma count_up c : c = S754_zero false ∨ f32_positive c → f32_positive (c + F32.of_Z 1)%f32.
Proof.
  change (F32.of_Z 1) with (S754_finite false 8388608 (-23)).
  intros [-> | Hc]; [simpl; lia|].
  destruct c as [[]|[]| |[] m e]; try done.
  unfold F32.add, SFadd. cbn [cond_Zopp Z.add]. unfold binary_normalize.
  apply binary_round_positive. simpl in Hc. lia.
Qed.

Lemma count_same c : c = S754_zero false ∨ f32_positive c → (c + F32.of_Z 0)%f32 = c.
Proof. intros [-> | Hc]; [done|]. by destruct c as [[]|[]| |[] m e]. Qed.

Lemma positive_above_zero c : f32_positive c → (c > F32.of_Z 0)%f32 = true.
Proof. by destruct c as [[]|[]| |[] m e]. Qed.

End F32Count.

Section ClipStatusFacts.
Variable CSAMPLE_PEAK : CSAMPLE.

(** The counter of a channel after the first frames: zero when no sample of
    the channel was above the peak, positive otherwise. *)
Lemma clip_counter_step (buf : list CSAMPLE) (c i : Z) (counter x : CSAMPLE) :
  0 ≤ i → load buf (2 * i + c) = Some x →
  (counter = S754_zero false ∧ ¬ clips CSAMPLE_PEAK buf c i ∨
   f32_positive counter ∧ clips CSAMPLE_PEAK buf c i) →
  let counter' :=
    (counter + (if (F32.abs x > CSAMPLE_PEAK)%f32 then F32.of_Z 1 else F32.of_Z 0))%f32 in
  counter' = S754_zero false ∧ ¬ clips CSAMPLE_PEAK buf c (i + 1) ∨
  f32_positive counter' ∧ clips CSAMPLE_PEAK buf c (i + 1).
Proof.
  intros Hi Hx Hcounter counter'. subst counter'.
  assert (counter = S754_zero false ∨ f32_positive counter) as Hc by tauto.
  destruct (F32.abs x > CSAMPLE_PEAK)%f32 eqn:Hclip.
  - right. split; [by apply F32Count.count_up|]. exists i, x. split; [lia|]. done.
  - rewrite F32Count.count_same by done.
    destruct Hcounter as [[-> Hno] | [Hpos (j & y & Hj & Hy & Hgt)]].
    + left. split; [done|]. intros (j & y & Hj & Hy & Hgt).
      destruct (decide (j = i)) as [->|Hne]; [congruence|].
      apply Hno. exists j, y. split; [lia|]. done.
    + right. split; [done|]. exists j, y. split; [lia|]. done.
Qed.

(** X20.  [sumAbsPerChannel] sets the flag of a channel in the status it
    returns exactly when the absolute value of some sample of that channel,
    among the whole frames of the buffer, is above the peak: the counters,
    which are floats, never miss a sample and never go back to zero. *)
Theorem sumAbsPerChannel_flags (NO_CLIPPING CLIPPING_LEFT CLIPPING_RIGHT : Z)
    (pBuffer : list CSAMPLE) (numSamples : SINT) :
  numSamples ≤ Z.of_nat (length pBuffer) →
  ∃ clipL clipR fAbsL fAbsR,
    sumAbsPerChannel CSAMPLE_PEAK NO_CLIPPING CLIPPING_LEFT CLIPPING_RIGHT pBuffer numSamples
      = Some (clip_status NO_CLIPPING CLIPPING_LEFT CLIPPING_RIGHT clipL clipR, fAbsL, fAbsR) ∧
    (clipL = true ↔ clips CSAMPLE_PEAK pBuffer 0 (numSamples ÷ 2)) ∧
    (clipR = true ↔ clips CSAMPLE_PEAK pBuffer 1 (numSamples ÷ 2)).
Proof.
  intros Hlen. unfold sumAbsPerChannel, sumAbsPerChannel_loop.
  pose (I := λ (n : Z) (s : CSAMPLE * CSAMPLE * CSAMPLE * CSAMPLE),
    (s.1.2 = S754_zero false ∧ ¬ clips CSAMPLE_PEAK pBuffer 0 n ∨
     f32_positive s.1.2 ∧ clips CSAMPLE_PEAK pBuffer 0 n) ∧
    (s.2 = S754_zero false ∧ ¬ clips CSAMPLE_PEAK pBuffer 1 n ∨
     f32_positive s.2 ∧ clips CSAMPLE_PEAK pBuffer 1 n)).
  match goal with |- context [for_loop ?lo ?hi ?body ?init] =>
    assert (∃ s, for_loop lo hi body init = Some s ∧ I (Z.max 0 (numSamples ÷ 2)) s)
      as (s & Hs & HI) end.
  { destruct (Z.le_gt_cases numSamples 0) as [Hn|Hn].
    - destruct (empty_frames numSamples Hn). rewrite for_loop_empty by lia.
      eexists. split; [done|]. rewrite Z.max_l by lia.
      split; left; (split; [done|]); intros (i & x & Hi & _); lia.
    - pose proof (quot2_bounds numSamples ltac:(lia)) as (Hq0 & Hq1 & Hq2).
      rewrite Z.max_r by lia. apply (for_loop_inv I); [lia | |].
      + split; left; (split; [done|]); intros (i & x & Hi & _); lia.
      + intros i [[[fL fR] cL] cR] Hi [HL HR]. simpl in HL, HR.
        destruct (load_in pBuffer (i * 2)) as [l Hl]; [lia|].
        destruct (load_in pBuffer (i * 2 + 1)) as [r Hr]; [lia|].
        rewrite Hl, Hr. simpl. eexists. split; [done|]. split; simpl.
        * apply clip_counter_step; [lia | | done].
          by replace (2 * i + 0) with (i * 2) by lia.
        * apply clip_counter_step; [lia | | done].
          by replace (2 * i + 1) with (i * 2 + 1) by lia. }
  assert (∀ c, clips CSAMPLE_PEAK pBuffer c (Z.max 0 (numSamples ÷ 2)) ↔
               clips CSAMPLE_PEAK pBuffer c (numSamples ÷ 2)) as Hmax.
  { intros c. split; intros (i & x & Hi & Hx); exists i, x; (split; [lia | done]). }
  destruct s as [[[fL fR] cL] cR]. destruct HI as [HL HR]. simpl in HL, HR.
  rewrite !Hmax in HL, HR.
  exists (cL > F32.of_Z 0)%f32, (cR > F32.of_Z 0)%f32, fL, fR.
  split; [|split].
  - by rewrite Hs.
  - destruct HL as [[-> Hno] | [Hpos Hclip]].
    + split; [done | intros; tauto].
    + by rewrite F32Count.positive_above_zero.
  - destruct HR as [[-> Hno] | [Hpos Hclip]].
    + split; [done | intros; tauto].
    + by rewrite F32Count.positive_above_zero.
Qed.

End ClipStatusFacts.

Lemma sumAbsPerChannel_flags_witness :
  ∃ clipL clipR fAbsL fAbsR,
    sumAbsPerChannel (F32.of_Z 1) 0 1 2 [F32.of_Z 2; F32.of_Z 0] 2
      = Some (clip_status 0 1 2 clipL clipR, fAbsL, fAbsR) ∧
    (clipL = true ↔ clips (F32.of_Z 1) [F32.of_Z 2; F32.of_Z 0] 0 (2 ÷ 2)) ∧
    (clipR = true ↔ clips (F32.of_Z 1) [F32.of_Z 2; F32.of_Z 0] 1 (2 ÷ 2)).
Proof. apply sumAbsPerChannel_flags. simpl. lia. Defined.

(** ** Crossfade of frames of any number of channels *)

(** Eight statements in a row are a loop of eight iterations. *)
Lemma unrolled_stem_frame {S} (f : Z → S → option S) (s : S) :
  (s ← f 0 s; s ← f 1 s; s ← f 2 s; s ← f 3 s; s ← f 4 s; s ← f 5 s; s ← f 6 s; f 7 s)
  = for_loop 0 8 f s.
Proof.
  unfold for_loop. simpl.
  change (0 + 1 + 1 + 1 + 1 + 1 + 1 + 1) with 7. change (0 + 1 + 1 + 1 + 1 + 1 + 1) with 6.
  change (0 + 1 + 1 + 1 + 1 + 1) with 5. change (0 + 1 + 1 + 1 + 1) with 4.
  change (0 + 1 + 1 + 1) with 3. change (0 + 1 + 1) with 2. change (0 + 1) with 1.
  destruct (f 0 s) as [s0|]; [simpl | done]. destruct (f 1 s0) as [s1|]; [simpl | done].
  destruct (f 2 s1) as [s2|]; [simpl | done]. destruct (f 3 s2) as [s3|]; [simpl | done].
  destruct (f 4 s3) as [s4|]; [simpl | done]. destruct (f 5 s4) as [s5|]; [simpl | done].
  destruct (f 6 s5) as [s6|]; [simpl | done]. by destruct (f 7 s6).
Qed.

Section FramesOfChannels.
Variable src : list CSAMPLE.
Variable at_index : list CSAMPLE → list CSAMPLE → Z → CSAMPLE_GAIN → option (list CSAMPLE).
Variable mixed : CSAMPLE → CSAMPLE → CSAMPLE_GAIN → CSAMPLE.
Hypothesis at_index_spec : ∀ p idx mix x s,
  load p idx = Some x → load src idx = Some s →
  ∃ p', at_index p src idx mix = Some p' ∧ length p' = length p ∧
    load p' idx = Some (mixed x s mix) ∧
    ∀ j, j ≠ idx → load p' j = load p j.

(** The loop over the channels of one frame, which starts at [base]. *)
Lemma frame_of_channels (idx : Z → Z) (base C : Z) (mix : CSAMPLE_GAIN) (p : list CSAMPLE) :
  (∀ ch, 0 ≤ ch < C → idx ch = base + ch) →
  0 ≤ base → base + C ≤ Z.of_nat (length p) → base + C ≤ Z.of_nat (length src) →
  ∃ p', for_loop 0 C (λ ch p, at_index p src (idx ch) mix) p = Some p' ∧
    length p' = length p ∧
    (∀ k, ¬ (base ≤ k < base + C) → load p' k = load p k) ∧
    (∀ ch, 0 ≤ ch < C →
       load p' (base + ch) =
       (x ← load p (base + ch); s ← load src (base + ch); Some (mixed x s mix))).
Proof.
  intros Hidx Hbase Hp Hsrc.
  destruct (Z.le_gt_cases C 0) as [HC|HC].
  { rewrite for_loop_empty by done. exists p. repeat split; try done; intros; lia. }
  pose (I := λ (n : Z) (q : list CSAMPLE), length q = length p ∧
    (∀ k, ¬ (base ≤ k < base + n) → load q k = load p k) ∧
    (∀ ch, 0 ≤ ch < n →
       load q (base + ch) =
       (x ← load p (base + ch); s ← load src (base + ch); Some (mixed x s mix)))).
  edestruct (for_loop_inv I 0 C) as (p' & Hp' & HI); [| | | exists p'; split; [exact Hp' | exact HI] ].
  - lia.
  - split; [done|]. split; [done | intros; lia].
  - intros ch q Hch (Hl & Hout & Hin). rewrite Hidx by lia.
    destruct (load_in p (base + ch)) as [x Hx]; [lia|].
    destruct (load_in src (base + ch)) as [s Hs]; [lia|].
    destruct (at_index_spec q (base + ch) mix x s) as (q' & Hq' & Hl' & Heq & Hne);
      [by rewrite Hout by lia | done |].
    exists q'. split; [done|]. split; [congruence|]. split.
    + intros k Hk. rewrite Hne by lia. apply Hout. lia.
    + intros ch' Hch'. destruct (decide (ch' = ch)) as [->|Hne'].
      * by rewrite Heq, Hx, Hs.
      * rewrite Hne by lia. apply Hin. lia.
Qed.

(** The loop over the frames, each with its own mix. *)
Lemma frames_of_channels (idx : Z → Z → Z) (C : Z) (mix : Z → CSAMPLE_GAIN)
    (buf : list CSAMPLE) (m : Z) :
  0 < C → (∀ i ch, 0 ≤ ch < C → idx i ch = C * i + ch) →
  C * m ≤ Z.of_nat (length buf) → C * m ≤ Z.of_nat (length src) →
  ∃ p', for_loop 0 m (λ i p,
          for_loop 0 C (λ ch p, at_index p src (idx i ch) (mix i)) p) buf = Some p' ∧
    length p' = length buf ∧
    (∀ k, ¬ (0 ≤ k < C * m) → load p' k = load buf k) ∧
    (∀ i ch, 0 ≤ i < m → 0 ≤ ch < C →
       load p' (C * i + ch) =
       (x ← load buf (C * i + ch); s ← load src (C * i + ch); Some (mixed x s (mix i)))).
Proof.
  intros HC Hidx Hbuf Hsrc.
  edestruct (frame_loop C (λ i ch,
      x ← load buf (C * i + ch); s ← load src (C * i + ch); Some (mixed x s (mix i))) 0 m)
    as (p' & Hp' & Hlen' & Hout & Hin); [lia | |
      exists p'; split; [exact Hp'|]; split; [done|];
      split; [intros k Hk; apply Hout; lia | exact Hin] ].
  intros i p Hi Hlen Hframe.
  destruct (frame_of_channels (idx i) (C * i) C (mix i) p)
    as (p' & Hp' & Hl' & Hout' & Hin'); [by apply Hidx | nia | nia | nia |].
  exists p'. split; [done|]. split; [congruence|]. split.
  - intros k Hk. apply Hout'. lia.
  - intros ch Hch. rewrite Hin' by done. by rewrite Hframe.
Qed.
End FramesOfChannels.

(** The three paths of a crossfade: the two channels of a stereo buffer one
    after the other, the eight channels of a stem buffer frame by frame, and
    the loop over the channels of every frame. *)
Lemma crossfade_paths
    (at_index : list CSAMPLE → list CSAMPLE → Z → CSAMPLE_GAIN → option (list CSAMPLE))
    (mixed : CSAMPLE → CSAMPLE → CSAMPLE_GAIN → CSAMPLE)
    (src buf : list CSAMPLE) (n C : Z) :
  (∀ p idx mix x s,
    load p idx = Some x → load src idx = Some s →
    ∃ p', at_index p src idx mix = Some p' ∧ length p' = length p ∧
      load p' idx = Some (mixed x s mix) ∧
      ∀ j, j ≠ idx → load p' j = load p j) →
  0 < C → 0 ≤ n → n ≤ Z.of_nat (length buf) → n ≤ Z.of_nat (length src) →
  ∃ p',
    (if decide (C = ChannelCount_stereo) then
       p ← for_loop 0 (n ÷ 2) (λ i p,
              at_index p src (i * 2) (CSAMPLE_GAIN_ONE / F32.of_Z (n ÷ 2) * F32.of_Z i)%f32) buf;
       for_loop 0 (n ÷ 2) (λ i p,
         at_index p src (i * 2 + 1) (CSAMPLE_GAIN_ONE / F32.of_Z (n ÷ 2) * F32.of_Z i)%f32) p
     else if decide (C = ChannelCount_stem) then
       for_loop 0 (n ÷ 8) (λ i p,
         let cross_mix := (CSAMPLE_GAIN_ONE / F32.of_Z (n ÷ 8) * F32.of_Z i)%f32 in
         p ← at_index p src (i * 8) cross_mix;
         p ← at_index p src (i * 8 + 1) cross_mix;
         p ← at_index p src (i * 8 + 2) cross_mix;
         p ← at_index p src (i * 8 + 3) cross_mix;
         p ← at_index p src (i * 8 + 4) cross_mix;
         p ← at_index p src (i * 8 + 5) cross_mix;
         p ← at_index p src (i * 8 + 6) cross_mix;
         at_index p src (i * 8 + 7) cross_mix) buf
     else if decide (C = 0) then None
     else
       for_loop 0 (n ÷ C) (λ i p,
         for_loop 0 C (λ chIdx p,
           at_index p src (i * C + chIdx)
             (CSAMPLE_GAIN_ONE / F32.of_Z (n ÷ C) * F32.of_Z i)%f32) p) buf) = Some p' ∧
    length p' = length buf ∧
    (∀ k, ¬ (0 ≤ k < C * (n ÷ C)) → load p' k = load buf k) ∧
    (∀ i ch x s, 0 ≤ i < n ÷ C → 0 ≤ ch < C →
       load buf (C * i + ch) = Some x → load src (C * i + ch) = Some s →
       load p' (C * i + ch) = Some (mixed x s (cross_mix n C i))).
Proof.
  intros Hspec HC Hn Hbuf Hsrc.
  assert (0 ≤ n ÷ C ∧ C * (n ÷ C) ≤ n) as [Hq0 Hq1].
  { rewrite Z.quot_div_nonneg by lia. split; [apply Z.div_pos; lia|].
    apply Z.mul_div_le. lia. }
  assert (∀ p' : list CSAMPLE,
    (∀ i ch, 0 ≤ i < n ÷ C → 0 ≤ ch < C →
       load p' (C * i + ch) =
       (x ← load buf (C * i + ch); s ← load src (C * i + ch);
        Some (mixed x s (cross_mix n C i)))) →
    ∀ i ch x s, 0 ≤ i < n ÷ C → 0 ≤ ch < C →
       load buf (C * i + ch) = Some x → load src (C * i + ch) = Some s →
       load p' (C * i + ch) = Some (mixed x s (cross_mix n C i))) as Hvalues.
  { intros p' H i ch x s Hi Hch Hx Hs. by rewrite H, Hx, Hs. }
  case_decide as H2; [|case_decide as H8; [|case_decide as H0; [lia|] ] ].
  - subst C. unfold ChannelCount_stereo in *.
    destruct (stereo_crossfade_loops at_index mixed src (cross_mix n 2) buf (n ÷ 2))
      as (p' & Hp' & Hl & Hout & Hin); [done | lia | lia | lia |].
    exists p'. split; [exact Hp'|]. split; [done|]. split; [done|].
    intros i ch x s Hi Hch Hx Hs. rewrite (Hin _ x s) by (done || lia).
    do 3 f_equal. assert (ch = 0 ∨ ch = 1) as [-> | ->] by lia.
    + rewrite Z.add_0_r. apply quot2_even. lia.
    + apply quot2_odd. lia.
  - subst C. unfold ChannelCount_stem in *.
    destruct (frames_of_channels src at_index mixed Hspec
                (λ i ch, match ch with 0 => i * 8 | _ => i * 8 + ch end) 8 (cross_mix n 8)
                buf (n ÷ 8)) as (p' & Hp' & Hl & Hout & Hin); [lia | | lia | lia |].
    { intros i ch Hch. destruct ch; lia. }
    exists p'. split; [|split; [done|]; split; [done|]; by apply Hvalues].
    rewrite <- Hp'. apply for_loop_ext. intros i p _.
    apply (unrolled_stem_frame (λ ch p,
      at_index p src (match ch with 0 => i * 8 | _ => i * 8 + ch end) (cross_mix n 8 i)) p).
  - destruct (frames_of_channels src at_index mixed Hspec
                (λ i ch, i * C + ch) C (cross_mix n C) buf (n ÷ C))
      as (p' & Hp' & Hl & Hout & Hin); [lia | intros; lia | lia | lia |].
    exists p'. split; [exact Hp'|]. split; [done|]. split; [done|]. by apply Hvalues.
Qed.

(** X21.  Whatever the channel count (stereo, stem or any other that is
    positive), [linearCrossfadeBuffersOut] leaves in sample [ch] of frame [i]
    the value [x * (1 - mix) + s * mix], with [x] the sample that fades out,
    [s] the sample that fades in and [mix = (1 / (n / C)) * i]: the paths for
    stereo and for stems compute what the loop over the channels computes.
    Samples after the last whole frame are left as they were. *)
Theorem linearCrossfadeBuffersOut_frames (pDestSrcFadeOut pSrcFadeIn : list CSAMPLE)
    (numSamples : SINT) (channelCount : Z) :
  0 < channelCount → 0 ≤ numSamples →
  numSamples ≤ Z.of_nat (length pDestSrcFadeOut) → numSamples ≤ Z.of_nat (length pSrcFadeIn) →
  ∃ p, linearCrossfadeBuffersOut pDestSrcFadeOut pSrcFadeIn numSamples channelCount = Some p ∧
    (∀ k, ¬ (0 ≤ k < channelCount * (numSamples ÷ channelCount)) →
       load p k = load pDestSrcFadeOut k) ∧
    (∀ i ch x s, 0 ≤ i < numSamples ÷ channelCount → 0 ≤ ch < channelCount →
       load pDestSrcFadeOut (channelCount * i + ch) = Some x →
       load pSrcFadeIn (channelCount * i + ch) = Some s →
       load p (channelCount * i + ch) =
       Some (x * (CSAMPLE_GAIN_ONE - cross_mix numSamples channelCount i)
             + s * cross_mix numSamples channelCount i)%f32).
Proof.
  intros HC Hn Hd Hs.
  destruct (crossfade_paths crossfadeOutAt crossfadeOut_mix pSrcFadeIn pDestSrcFadeOut
              numSamples channelCount) as (p & Hp & _ & Hout & Hin);
    [intros; by apply crossfadeOutAt_spec | done..|].
  exists p. split; [exact Hp|]. split; [exact Hout | exact Hin].
Qed.

Lemma linearCrossfadeBuffersOut_frames_witness :
  ∃ p, linearCrossfadeBuffersOut (replicate 6 (F32.of_Z 1)) (replicate 6 (F32.of_Z 0)) 6 3 = Some p ∧
    (∀ k, ¬ (0 ≤ k < 3 * (6 ÷ 3)) → load p k = load (replicate 6 (F32.of_Z 1)) k) ∧
    (∀ i ch x s, 0 ≤ i < 6 ÷ 3 → 0 ≤ ch < 3 →
       load (replicate 6 (F32.of_Z 1)) (3 * i + ch) = Some x →
       load (replicate 6 (F32.of_Z 0)) (3 * i + ch) = Some s →
       load p (3 * i + ch) =
       Some (x * (CSAMPLE_GAIN_ONE - cross_mix 6 3 i) + s * cross_mix 6 3 i)%f32).
Proof. apply linearCrossfadeBuffersOut_frames; simpl; lia. Defined.

(** X22.  Whatever the channel count, fading [A] out into [B] with
    [linearCrossfadeBuffersOut] and fading [B] in from [A] with
    [linearCrossfadeBuffersIn] leave the same samples in all whole frames. *)
Theorem linearCrossfade_complement (A B : list CSAMPLE) (numSamples : SINT) (channelCount : Z) :
  0 < channelCount → 0 ≤ numSamples →
  numSamples ≤ Z.of_nat (length A) → numSamples ≤ Z.of_nat (length B) →
  ∃ p_out p_in,
    linearCrossfadeBuffersOut A B numSamples channelCount = Some p_out ∧
    linearCrossfadeBuffersIn B A numSamples channelCount = Some p_in ∧
    ∀ k, 0 ≤ k < channelCount * (numSamples ÷ channelCount) → load p_in k = load p_out k.
Proof.
  intros HC Hn HA HB.
  destruct (crossfade_paths crossfadeOutAt crossfadeOut_mix B A numSamples channelCount)
    as (p & Hp & _ & _ & Hin); [intros; by apply crossfadeOutAt_spec | done..|].
  destruct (crossfade_paths crossfadeInAt crossfadeIn_mix A B numSamples channelCount)
    as (q & Hq & _ & _ & Hin'); [intros; by apply crossfadeInAt_spec | done..|].
  exists p, q. split; [exact Hp|]. split; [exact Hq|].
  intros k Hk.
  assert (0 ≤ numSamples ÷ channelCount ∧ channelCount * (numSamples ÷ channelCount) ≤ numSamples)
    as [Hq0 Hq1].
  { rewrite Z.quot_div_nonneg by lia. split; [apply Z.div_pos; lia|].
    apply Z.mul_div_le. lia. }
  assert (k = channelCount * (k / channelCount) + k mod channelCount) as Hkdiv
    by (apply Z.div_mod; lia).
  pose proof (Z.mod_pos_bound k channelCount HC) as Hkmod.
  assert (0 ≤ k / channelCount < numSamples ÷ channelCount) as Hdiv.
  { split; [apply Z.div_pos; lia|]. apply Z.div_lt_upper_bound; lia. }
  destruct (load_in A k) as [a Ha]; [lia|]. destruct (load_in B k) as [b Hb]; [lia|].
  rewrite Hkdiv in Ha, Hb |- *.
  rewrite (Hin _ _ a b), (Hin' _ _ b a) by done.
  unfold crossfadeOut_mix, crossfadeIn_mix. f_equal. apply F32Facts.add_comm.
Qed.

Lemma linearCrossfade_complement_witness :
  ∃ p_out p_in,
    linearCrossfadeBuffersOut (replicate 8 (F32.of_Z 1)) (replicate 8 (F32.of_Z 0)) 8 8
      = Some p_out ∧
    linearCrossfadeBuffersIn (replicate 8 (F32.of_Z 0)) (replicate 8 (F32.of_Z 1)) 8 8
      = Some p_in ∧
    ∀ k, 0 ≤ k < 8 * (8 ÷ 8) → load p_in k = load p_out k.
Proof. apply linearCrossfade_complement; simpl; lia. Defined.

(** ** Allocation *)

(** Clearing the low [k] bits of an address. *)
Lemma clear_low_bits (bits k p : Z) :
  0 ≤ k ≤ bits → 0 ≤ p < 2 ^ bits →
  Z.land p (size_t_not bits ((2 ^ k - 1) mod 2 ^ bits)) = p - p mod 2 ^ k.
Proof.
  intros Hk Hp. unfold size_t_not.
  assert (0 < 2 ^ k ≤ 2 ^ bits) as Hpow.
  { split; [apply Z.pow_pos_nonneg; lia | apply Z.pow_le_mono_r; lia]. }
  rewrite (Z.mod_small (2 ^ k - 1)) by lia.
  rewrite (Z.land_comm (Z.lnot _)), Z.land_assoc.
  rewrite (Z.land_ones p bits) by lia. rewrite (Z.mod_small p) by lia.
  rewrite <- Z.ldiff_land.
  replace (2 ^ k - 1) with (Z.ones k) by (rewrite Z.ones_equiv; lia).
  rewrite Z.ldiff_ones_r by lia.
  rewrite Z.shiftr_div_pow2, Z.shiftl_mul_pow2 by lia.
  pose proof (Z.div_mod p (2 ^ k)). lia.
Qed.

(** X23.  The size that [alloc] passes to [std::aligned_alloc] is a multiple
    of the alignment, as the function asserts, and it is the least one that
    holds the buffer: it is at least the size of the buffer and less than one
    alignment above it. *)
Theorem aligned_alloc_size_is_multiple (bits kAlignment alloc_size : Z) :
  0 < kAlignment → 0 ≤ alloc_size → alloc_size + kAlignment ≤ 2 ^ bits →
  aligned_alloc_size bits kAlignment alloc_size mod kAlignment = 0 ∧
  alloc_size ≤ aligned_alloc_size bits kAlignment alloc_size < alloc_size + kAlignment.
Proof.
  intros Hk Hsize Hfits. unfold aligned_alloc_size.
  pose proof (Z.mod_pos_bound alloc_size kAlignment Hk) as Hmod.
  pose proof (Z.div_mod alloc_size kAlignment ltac:(lia)) as Hdiv.
  case_decide as Hrem.
  2: { split; [done | lia]. }
  set (r := alloc_size mod kAlignment) in *. set (q := alloc_size / kAlignment) in *.
  clearbody r q.
  rewrite (Z.mod_small (alloc_size + (kAlignment - r)) (2 ^ bits)) by lia. split; [|lia].
  replace (alloc_size + (kAlignment - r)) with ((q + 1) * kAlignment) by lia.
  apply Z.mod_mul. lia.
Qed.

Lemma aligned_alloc_size_is_multiple_witness :
  aligned_alloc_size 32 16 40 mod 16 = 0 ∧ 40 ≤ aligned_alloc_size 32 16 40 < 40 + 16.
Proof. apply aligned_alloc_size_is_multiple; lia. Defined.

(** X24.  When [alloc] aligns the buffer by hand, the address it returns is
    a multiple of the alignment (a power of two), it is above the address
    that [std::malloc] returned by a pointer's size at least (so that the
    address for [free] can be kept just below it) and by the alignment at
    most, and the buffer ends within the block that was allocated.  The
    address of [std::malloc] is a multiple of the size of a pointer, which
    divides the alignment, and the block lies within the address space. *)
Theorem pAligned_in_block (bits k ptr_size pUnaligned : Z) (size : SINT) :
  0 ≤ k ≤ bits → 0 ≤ size → 0 ≤ pUnaligned →
  pUnaligned + (4 * size + 2 ^ k) < 2 ^ bits →
  0 < ptr_size → (ptr_size | 2 ^ k) → (ptr_size | pUnaligned) →
  pAligned bits (2 ^ k) pUnaligned mod 2 ^ k = 0 ∧
  pUnaligned + ptr_size ≤ pAligned bits (2 ^ k) pUnaligned ≤ pUnaligned + 2 ^ k ∧
  pAligned bits (2 ^ k) pUnaligned + 4 * size
    ≤ pUnaligned + unaligned_size bits (2 ^ k) size.
Proof.
  intros Hk Hsize Hp Hfits Hptr Hdiv_a Hdiv_p.
  assert (0 < 2 ^ k) as Hpow by (apply Z.pow_pos_nonneg; lia).
  unfold pAligned, unaligned_size.
  rewrite clear_low_bits by lia.
  pose proof (Z.mod_pos_bound pUnaligned (2 ^ k) Hpow) as Hmod.
  pose proof (Z.div_mod pUnaligned (2 ^ k) ltac:(lia)) as Hdiv.
  pose proof (Z.mod_le pUnaligned (2 ^ k) Hp Hpow) as Hle.
  set (a := 2 ^ k) in *. set (r := pUnaligned mod a) in *. set (q := pUnaligned / a) in *.
  clearbody r q a.
  rewrite (Z.mod_small (pUnaligned - r + a) (2 ^ bits)) by lia.
  rewrite (Z.mod_small (4 * size + a) (2 ^ bits)) by lia.
  assert ((ptr_size | r)) as Hdiv_m.
  { replace r with (pUnaligned - a * q) by lia. apply Z.divide_sub_r; [done|].
    by apply Z.divide_mul_l. }
  assert (r + ptr_size ≤ a) as Hroom.
  { destruct Hdiv_a as [x Hx], Hdiv_m as [y Hy].
    assert (y < x) as Hyx by nia.
    replace a with ((x - y - 1) * ptr_size + (r + ptr_size)) by lia. nia. }
  split; [|lia].
  replace (pUnaligned - r + a) with ((q + 1) * a) by lia.
  apply Z.mod_mul. lia.
Qed.

Lemma pAligned_in_block_witness :
  pAligned 32 (2 ^ 4) 4104 mod 2 ^ 4 = 0 ∧
  4104 + 4 ≤ pAligned 32 (2 ^ 4) 4104 ≤ 4104 + 2 ^ 4 ∧
  pAligned 32 (2 ^ 4) 4104 + 4 * 64 ≤ 4104 + unaligned_size 32 (2 ^ 4) 64.
Proof.
  apply (pAligned_in_block 32 4 4 4104 64); try lia.
  - by exists 4.
  - by exists 1026.
Defined.

(** ** Conversion to floats *)

Lemma normalized_all : forall_from 16 SAMPLE_MINIMUM normalized_ok = true.
Proof. vm_compute. reflexivity. Qed.

(** X25.  [convertS16ToFloat32] maps every 16 bit sample to a finite float
    from -1 on and below 1: the floats it writes are normalized. *)
Theorem convertS16ToFloat32_normalized (pDest : list CSAMPLE) (pSrc : list SAMPLE)
    (numSamples : SINT) :
  numSamples ≤ Z.of_nat (length pDest) → numSamples ≤ Z.of_nat (length pSrc) →
  (∀ i s, 0 ≤ i < numSamples → load pSrc i = Some s → SAMPLE_MINIMUM ≤ s ≤ SAMPLE_MAXIMUM) →
  ∃ p, convertS16ToFloat32 pDest pSrc numSamples = Some p ∧
    ∀ i, 0 ≤ i < numSamples →
      ∃ v, load p i = Some v ∧ F32.is_finite v = true ∧
           (v < F32.of_Z (-1))%f32 = false ∧ (v < F32.of_Z 1)%f32 = true.
Proof.
  intros Hd Hs Hrange.
  destruct (store_loop (λ s, Some (S16ToFloat32 s)) pSrc pDest numSamples)
    as (p & Hp & _ & _ & Hin); [lia | lia | by eauto |].
  exists p. split; [exact Hp|]. intros i Hi.
  destruct (load_in pSrc i) as [s Hsi]; [lia|].
  exists (S16ToFloat32 s). split; [by apply Hin|].
  pose proof (forall_from_spec _ _ _ s normalized_all) as H.
  specialize (Hrange i s Hi Hsi).
  unfold normalized_ok in H. rewrite !andb_true_iff, negb_true_iff in H.
  destruct H as [[H1 H2] H3]; [|done].
  unfold SAMPLE_MINIMUM, SAMPLE_MAXIMUM in *. simpl. lia.
Qed.

Lemma convertS16ToFloat32_normalized_witness :
  ∃ p, convertS16ToFloat32 [CSAMPLE_ZERO; CSAMPLE_ZERO] [-32768; 32767] 2 = Some p ∧
    ∀ i, 0 ≤ i < 2 →
      ∃ v, load p i = Some v ∧ F32.is_finite v = true ∧
           (v < F32.of_Z (-1))%f32 = false ∧ (v < F32.of_Z 1)%f32 = true.
Proof.
  apply convertS16ToFloat32_normalized; [simpl; lia | simpl; lia |].
  intros i s Hi. assert (i = 0 ∨ i = 1) as [-> | ->] by lia; intros [= <-]; done.
Defined.

(** ** Copies and their operations in place *)

Lemma copy_samples (dest src : list CSAMPLE) n :
  n ≤ Z.of_nat (length dest) → n ≤ Z.of_nat (length src) →
  ∃ p', copy dest src n = Some p' ∧ length p' = length dest ∧
    (∀ k, ¬ (0 ≤ k < n) → load p' k = load dest k) ∧
    (∀ i, 0 ≤ i < n → load p' i = load src i).
Proof.
  intros Hd Hs. unfold copy. apply sample_loop; [done|].
  intros i p Hi Hlen Hp. destruct (load_in src i) as [s Hs']; [lia|].
  rewrite Hs'. eexists. split; done.
Qed.

Lemma scaled_copy_loop (g : CSAMPLE_GAIN) (dest src : list CSAMPLE) n :
  n ≤ Z.of_nat (length dest) → n ≤ Z.of_nat (length src) →
  ∃ p', for_loop 0 n (λ i p, s ← load src i; store p i (s * g)%f32) dest = Some p' ∧
    length p' = length dest ∧
    (∀ k, ¬ (0 ≤ k < n) → load p' k = load dest k) ∧
    (∀ i, 0 ≤ i < n → load p' i = (s ← load src i; Some (s * g)%f32)).
Proof.
  intros Hd Hs. apply sample_loop; [done|].
  intros i p Hi Hlen Hp. destruct (load_in src i) as [s Hs']; [lia|].
  rewrite Hs'. eexists. split; done.
Qed.

(** X26.  [copyWithGain] writes to the first [numSamples] samples of the
    destination what [applyGain] leaves in a buffer that holds the source,
    through the three paths of the two functions (gain one, gain zero, any
    other gain), and leaves the rest of the destination as it was.
    [SampleUtil::copy] and [SampleUtil::clear] are those of [util/sample.h]. *)
Theorem copyWithGain_is_applyGain_of_copy (pDest pSrc : list CSAMPLE) (gain : CSAMPLE_GAIN)
    (numSamples : SINT) :
  numSamples ≤ Z.of_nat (length pDest) → numSamples ≤ Z.of_nat (length pSrc) →
  ∃ p q, copyWithGain pDest pSrc gain numSamples = Some p ∧
         applyGain pSrc gain numSamples = Some q ∧
         (∀ k, 0 ≤ k < numSamples → load p k = load q k) ∧
         (∀ k, ¬ (0 ≤ k < numSamples) → load p k = load pDest k).
Proof.
  intros Hd Hs. unfold copyWithGain, applyGain.
  destruct (gain == CSAMPLE_GAIN_ONE)%f32.
  { destruct (copy_samples pDest pSrc numSamples) as (p & Hp & _ & Hout & Hin); [done..|].
    exists p, pSrc. done. }
  destruct (gain == CSAMPLE_GAIN_ZERO)%f32.
  { destruct (clear_spec pDest numSamples) as (p & Hp & _ & Hin & Hout); [done|].
    destruct (clear_spec pSrc numSamples) as (q & Hq & _ & Hin' & _); [done|].
    exists p, q. split; [done|]. split; [done|]. split; [|done].
    intros k Hk. by rewrite Hin, Hin'. }
  destruct (scaled_copy_loop gain pDest pSrc numSamples) as (p & Hp & _ & Hout & Hin); [done..|].
  destruct (scale_loop gain pSrc numSamples) as (q & Hq & _ & _ & Hin'); [done|].
  exists p, q. split; [done|]. split; [done|]. split; [|done].
  intros k Hk. by rewrite Hin, Hin'.
Qed.

Lemma copyWithGain_is_applyGain_of_copy_witness :
  ∃ p q, copyWithGain [CSAMPLE_ZERO; CSAMPLE_ZERO] [F32.of_Z 1; F32.of_Z 2] (F32.of_Z 3) 2 = Some p ∧
         applyGain [F32.of_Z 1; F32.of_Z 2] (F32.of_Z 3) 2 = Some q ∧
         (∀ k, 0 ≤ k < 2 → load p k = load q k) ∧
         (∀ k, ¬ (0 ≤ k < 2) → load p k = load [CSAMPLE_ZERO; CSAMPLE_ZERO] k).
Proof. apply copyWithGain_is_applyGain_of_copy; simpl; lia. Defined.

Lemma copyWithRampingGain_loop (gain : Z → CSAMPLE_GAIN) (dest src : list CSAMPLE) m :
  2 * m ≤ Z.of_nat (length dest) → 2 * m ≤ Z.of_nat (length src) →
  ∃ p', for_loop 0 m (λ i p,
          s0 ← load src (i * 2); p ← store p (i * 2) (s0 * gain i)%f32;
          s1 ← load src (i * 2 + 1); store p (i * 2 + 1) (s1 * gain i)%f32) dest = Some p' ∧
    length p' = length dest ∧
    (∀ k, ¬ (0 ≤ k < 2 * m) → load p' k = load dest k) ∧
    (∀ i j, 0 ≤ i < m → 0 ≤ j < 2 →
       load p' (2 * i + j) = (s ← load src (2 * i + j); Some (s * gain i)%f32)).
Proof.
  intros Hd Hs.
  edestruct (frame_loop 2 (λ i j, s ← load src (2 * i + j); Some (s * gain i)%f32) 0 m)
    as (p' & Hp' & Hlen' & Hout & Hin); [lia | |
      exists p'; split; [exact Hp'|]; split; [done|];
      split; [intros k Hk; apply Hout; lia | exact Hin] ].
  intros i p Hi Hlen _.
  destruct (load_in src (i * 2)) as [a Ha]; [lia|].
  destruct (load_in src (i * 2 + 1)) as [b Hb]; [lia|].
  rewrite Ha, Hb. run_stores. eexists. split; [done|].
  split; [by rewrite !length_insert|]. split.
  - intros k Hk. loads_of_inserts.
  - intros j Hj. assert (j = 0 ∨ j = 1) as [-> | ->] by lia.
    + replace (2 * i + 0) with (i * 2) by lia. rewrite Ha. loads_of_inserts.
    + replace (2 * i + 1) with (i * 2 + 1) by lia. rewrite Hb. loads_of_inserts.
Qed.

(** X27.  For an even number of samples, [copyWithRampingGain] writes to the
    first [numSamples] samples of the destination what [applyRampingGain]
    leaves in a buffer that holds the source, through the four paths of the
    two functions, and leaves the rest of the destination as it was.  (For
    an odd number the ramp of [copyWithRampingGain] does not write the last
    sample.)  [SampleUtil::copy] and [SampleUtil::clear] are those of
    [util/sample.h]. *)
Theorem copyWithRampingGain_is_applyRampingGain_of_copy (pDest pSrc : list CSAMPLE)
    (old_gain new_gain : CSAMPLE_GAIN) (numSamples : SINT) :
  numSamples mod 2 = 0 →
  numSamples ≤ Z.of_nat (length pDest) → numSamples ≤ Z.of_nat (length pSrc) →
  ∃ p q, copyWithRampingGain pDest pSrc old_gain new_gain numSamples = Some p ∧
         applyRampingGain pSrc old_gain new_gain numSamples = Some q ∧
         (∀ k, 0 ≤ k < numSamples → load p k = load q k) ∧
         (∀ k, ¬ (0 ≤ k < numSamples) → load p k = load pDest k).
Proof.
  intros Heven Hd Hs. unfold copyWithRampingGain, applyRampingGain.
  destruct ((old_gain == CSAMPLE_GAIN_ONE)%f32 && (new_gain == CSAMPLE_GAIN_ONE)%f32).
  { destruct (copy_samples pDest pSrc numSamples) as (p & Hp & _ & Hout & Hin); [done..|].
    exists p, pSrc. done. }
  destruct ((old_gain == CSAMPLE_GAIN_ZERO)%f32 && (new_gain == CSAMPLE_GAIN_ZERO)%f32).
  { destruct (clear_spec pDest numSamples) as (p & Hp & _ & Hin & Hout); [done|].
    destruct (clear_spec pSrc numSamples) as (q & Hq & _ & Hin' & _); [done|].
    exists p, q. split; [done|]. split; [done|]. split; [|done].
    intros k Hk. by rewrite Hin, Hin'. }
  assert (numSamples ≤ 0 ∧ numSamples ÷ 2 ≤ 0 ∨
          0 < numSamples ∧ 2 * (numSamples ÷ 2) = numSamples) as Hn.
  { Z.quot_rem_to_equations. Z.div_mod_to_equations. lia. }
  simpl. destruct (negb _).
  - destruct Hn as [[Hn Hq0] | [Hn Hq1] ].
    { rewrite !for_loop_empty by done. exists pDest, pSrc. repeat split; try done. intros; lia. }
    match goal with |- context [for_loop 0 _ ?body pDest] =>
      match body with (λ i p, _ ← _; _ ← store _ _ (_ * ?g)%f32; _) =>
        destruct (copyWithRampingGain_loop (λ i, g) pDest pSrc (numSamples ÷ 2))
          as (p & Hp & _ & Hout & Hin); [lia | lia |];
        destruct (applyRampingGain_loop (λ i, g) pSrc (numSamples ÷ 2))
          as (q & Hq & _ & _ & Hin'); [lia|]
      end end.
    exists p, q. split; [exact Hp|]. split; [exact Hq|].
    split; [|intros k Hk; apply Hout; lia].
    intros k Hk. destruct (load_in pSrc k) as [x Hx]; [lia|].
    rewrite (Hin' k x) by (done || lia).
    destruct (stereo_index k) as [Hkdiv Hkmod].
    assert (k ÷ 2 = k / 2) as -> by (apply Z.quot_div_nonneg; lia).
    rewrite Hkdiv at 1. rewrite Hin by lia. rewrite <- Hkdiv. by rewrite Hx.
  - destruct (scaled_copy_loop old_gain pDest pSrc numSamples) as (p & Hp & _ & Hout & Hin);
      [done..|].
    destruct (scale_loop old_gain pSrc numSamples) as (q & Hq & _ & _ & Hin'); [done|].
    exists p, q. split; [done|]. split; [done|]. split; [|done].
    intros k Hk. by rewrite Hin, Hin'.
Qed.

Lemma copyWithRampingGain_is_applyRampingGain_of_copy_witness :
  ∃ p q, copyWithRampingGain [CSAMPLE_ZERO; CSAMPLE_ZERO] [F32.of_Z 1; F32.of_Z 2]
           (F32.of_Z 0) (F32.of_Z 1) 2 = Some p ∧
         applyRampingGain [F32.of_Z 1; F32.of_Z 2] (F32.of_Z 0) (F32.of_Z 1) 2 = Some q ∧
         (∀ k, 0 ≤ k < 2 → load p k = load q k) ∧
         (∀ k, ¬ (0 ≤ k < 2) → load p k = load [CSAMPLE_ZERO; CSAMPLE_ZERO] k).
Proof.
  apply copyWithRampingGain_is_applyRampingGain_of_copy; [reflexivity | simpl; lia..].
Defined.

(** ** Mono added to stereo *)

Lemma mul_one (x : CSAMPLE) : F32.valid x = true → (x * F32.of_Z 1)%f32 = x.
Proof.
  change (F32.of_Z 1) with (S754_finite false 8388608 (-23)).
  intros Hvalid. destruct x as [[]|[]| |s m e]; try done.
  apply Exact.valid_finite_cases in Hvalid as [Hmax Hcases].
  unfold F32.mul, SFmul. rewrite xorb_false_r, Pos.mul_comm.
  change (8388608 * m)%positive with (shl m 23).
  replace (S754_finite s m e) with (S754_finite s m (e + -23 + 23)) by (f_equal; lia).
  apply Exact.binary_round_aux_exact; [lia | | lia].
  unfold fexp, emin, F32.prec, F32.emax. lia.
Qed.

Lemma addMonoToStereoWithGain_frames (g : CSAMPLE_GAIN) (dest src : list CSAMPLE) (F : SINT) :
  (g == F32.of_Z 0)%f32 = false →
  2 * F ≤ Z.of_nat (length dest) → F ≤ Z.of_nat (length src) →
  ∃ p', addMonoToStereoWithGain g dest src F = Some p' ∧ length p' = length dest ∧
    (∀ k, ¬ (0 ≤ k < 2 * F) → load p' k = load dest k) ∧
    (∀ i j, 0 ≤ i < F → 0 ≤ j < 2 →
       load p' (2 * i + j) =
       (d ← load dest (2 * i + j); s ← load src i; Some (d + s * g)%f32)).
Proof.
  intros Hg Hd Hs. unfold addMonoToStereoWithGain. rewrite Hg.
  edestruct (frame_loop 2 (λ i j,
      d ← load dest (2 * i + j); s ← load src i; Some (d + s * g)%f32) 0 F)
    as (p' & Hp' & Hlen' & Hout & Hin); [lia | |
      exists p'; split; [exact Hp'|]; split; [done|];
      split; [intros k Hk; apply Hout; lia | exact Hin] ].
  intros i p Hi Hlen Hframe.
  destruct (load_in src i) as [s Hs']; [lia|].
  destruct (load_in dest (2 * i)) as [a Ha]; [lia|].
  destruct (load_in dest (2 * i + 1)) as [b Hb]; [lia|].
  rewrite Hs'. simpl. replace (i * 2) with (2 * i) by lia.
  pose proof (Hframe 0 ltac:(lia)) as H0. rewrite Z.add_0_r in H0.
  rewrite (update_insert p _ _ a) by congruence. simpl.
  rewrite (update_insert _ _ _ b)
    by (rewrite load_insert by lia; rewrite decide_False by lia; rewrite Hframe by lia; done).
  eexists. split; [done|]. split; [by rewrite !length_insert|]. split.
  - intros k Hk. loads_of_inserts.
  - intros j Hj. assert (j = 0 ∨ j = 1) as [-> | ->] by lia.
    + rewrite Z.add_0_r, Ha. simpl. loads_of_inserts.
    + rewrite Hb. simpl. loads_of_inserts.
Qed.

(** X28.  [addMonoToStereo] adds the mono sample of a frame to both channels
    of the frame: it adds to the destination what [copyMonoToDualMono]
    writes, for samples that a float register can hold (the function
    multiplies them by 1.0 in [addMonoToStereoWithGain]). *)
Theorem addMonoToStereo_is_add_of_dual_mono (pDest pTmp pSrc : list CSAMPLE) (numFrames : SINT) :
  0 ≤ numFrames →
  2 * numFrames ≤ Z.of_nat (length pDest) → 2 * numFrames ≤ Z.of_nat (length pTmp) →
  numFrames ≤ Z.of_nat (length pSrc) →
  (∀ i s, 0 ≤ i < numFrames → load pSrc i = Some s → F32.valid s = true) →
  ∃ t p, copyMonoToDualMono pTmp pSrc numFrames = Some t ∧
         add pDest t (2 * numFrames) = Some p ∧
         addMonoToStereo pDest pSrc numFrames = Some p.
Proof.
  intros HF Hd Ht Hs Hvalid. unfold addMonoToStereo.
  destruct (copyMonoToDualMono_frames pTmp pSrc numFrames) as (t & Htmp & Hlt & _ & Hint);
    [done..|].
  destruct (add_samples pDest t (2 * numFrames)) as (p & Hp & _ & Houtp & Hinp); [lia..|].
  destruct (addMonoToStereoWithGain_frames (F32.of_Z 1) pDest pSrc numFrames)
    as (q & Hq & _ & Houtq & Hinq); [done..|].
  exists t, p. split; [done|]. split; [done|]. rewrite Hq. f_equal.
  apply buffer_ext. intros k.
  destruct (decide (0 ≤ k < 2 * numFrames)) as [Hk|Hk]; [|by rewrite Houtp, Houtq].
  rewrite Hinp by done. destruct (stereo_index k) as [Hkdiv Hkmod].
  destruct (load_in pSrc (k / 2)) as [s Hsk]; [lia|].
  assert (load t k = Some s) as ->.
  { destruct (Hint (k / 2)) as [E0 E1]; [lia|].
    destruct (decide (k mod 2 = 0)) as [Hm|Hm].
    - rewrite Hm, Z.add_0_r in Hkdiv. rewrite Hkdiv. congruence.
    - assert (k mod 2 = 1) as Hm1 by lia. rewrite Hm1 in Hkdiv. rewrite Hkdiv. congruence. }
  pose proof (Hinq (k / 2) (k mod 2) ltac:(lia) ltac:(lia)) as Eq.
  rewrite <- Hkdiv in Eq. rewrite Eq, Hsk.
  destruct (load pDest k); [simpl | done].
  rewrite mul_one; [done|]. apply (Hvalid (k / 2)); [lia | done].
Qed.

Lemma addMonoToStereo_is_add_of_dual_mono_witness :
  ∃ t p, copyMonoToDualMono [CSAMPLE_ZERO; CSAMPLE_ZERO] [F32.of_Z 3] 1 = Some t ∧
         add [F32.of_Z 1; F32.of_Z 2] t (2 * 1) = Some p ∧
         addMonoToStereo [F32.of_Z 1; F32.of_Z 2] [F32.of_Z 3] 1 = Some p.
Proof.
  apply addMonoToStereo_is_add_of_dual_mono; [lia | simpl; lia.. |].
  intros i s Hi. assert (i = 0) as -> by lia. intros [= <-]. reflexivity.
Defined.

(** ** Mixdown of stems to stereo *)

Lemma stem_excluded (mask stemIdx : Z) :
  0 ≤ stemIdx → (Z.land (Z.shiftr mask stemIdx) 1 ≠ 0 ↔ Z.testbit mask stemIdx = true).
Proof.
  intros Hidx. change 1 with (Z.ones 1). rewrite Z.land_ones by lia.
  change (2 ^ 1) with 2. rewrite <- Z.bit0_mod, Z.shiftr_spec, Z.add_0_l by lia.
  by destruct (Z.testbit mask stemIdx).
Qed.

Lemma mixed_stems_succ (mask n : Z) :
  0 ≤ n →
  mixed_stems mask (n + 1) =
  mixed_stems mask n ++ (if Z.testbit mask n then [] else [n]).
Proof.
  intros Hn. unfold mixed_stems. rewrite seqZ_app by lia. rewrite filter_app. f_equal.
  rewrite Z.add_0_l. change (seqZ n 1) with [n].
  destruct (Z.testbit mask n) eqn:Hbit.
  - by rewrite filter_cons_False by (rewrite Hbit; done).
  - by rewrite filter_cons_True by done.
Qed.

(** The loop over the frames for one stem. *)
Lemma stem_loop (dest src : list CSAMPLE) (F C stemIdx : Z) :
  0 ≤ stemIdx → stemIdx * 2 + 2 ≤ C →
  2 * F ≤ Z.of_nat (length dest) → F * C ≤ Z.of_nat (length src) →
  ∃ p', for_loop 0 F (λ i p,
          let srcIdx := C * i + stemIdx * ChannelCount_stereo in
          let destIdx := ChannelCount_stereo * i in
          s0 ← load src srcIdx;
          p ← update p destIdx (λ x, x + s0)%f32;
          s1 ← load src (srcIdx + 1);
          update p (destIdx + 1) (λ x, x + s1)%f32) dest = Some p' ∧
    length p' = length dest ∧
    (∀ k, ¬ (0 ≤ k < 2 * F) → load p' k = load dest k) ∧
    (∀ i c, 0 ≤ i < F → 0 ≤ c < 2 →
       load p' (2 * i + c) =
       (x ← load dest (2 * i + c);
        Some (x + default CSAMPLE_ZERO (load src (C * i + stemIdx * 2 + c)))%f32)).
Proof.
  intros Hidx HC Hd Hs. unfold ChannelCount_stereo.
  edestruct (frame_loop 2 (λ i c,
      x ← load dest (2 * i + c);
      Some (x + default CSAMPLE_ZERO (load src (C * i + stemIdx * 2 + c)))%f32) 0 F)
    as (p' & Hp' & Hlen' & Hout & Hin); [lia | |
      exists p'; split; [exact Hp'|]; split; [done|];
      split; [intros k Hk; apply Hout; lia | exact Hin] ].
  intros i p Hi Hlen Hframe. simpl.
  destruct (load_in src (C * i + stemIdx * 2)) as [s0 Hs0]; [nia|].
  destruct (load_in src (C * i + stemIdx * 2 + 1)) as [s1 Hs1]; [nia|].
  destruct (load_in dest (2 * i)) as [a Ha]; [lia|].
  destruct (load_in dest (2 * i + 1)) as [b Hb]; [lia|].
  pose proof (Hframe 0 ltac:(lia)) as H0. rewrite Z.add_0_r in H0.
  rewrite Hs0. simpl. rewrite (update_insert p _ _ a) by congruence. simpl.
  rewrite Hs1. simpl.
  rewrite (update_insert _ _ _ b)
    by (rewrite load_insert by lia; rewrite decide_False by lia; rewrite Hframe by lia; done).
  eexists. split; [done|]. split; [by rewrite !length_insert|]. split.
  - intros k Hk. loads_of_inserts.
  - intros c Hc. assert (c = 0 ∨ c = 1) as [-> | ->] by lia.
    + rewrite !Z.add_0_r, Ha, Hs0. simpl. loads_of_inserts.
    + rewrite Hb, Hs1. simpl. loads_of_inserts.
Qed.

(** X29.  [mixMultichannelToStereo] with a mask writes to each channel of
    each stereo frame of the destination the sum of that channel over the
    stems that the mask does not exclude, from +0 on and in the order of the
    stems; the stems whose bit is set in the mask do not count.
    [SampleUtil::clear] is that of [util/sample.h]. *)
Theorem mixMultichannelToStereo_masked_sums (pDest pSrc : list CSAMPLE) (numFrames : SINT)
    (numChannels excludeChannelMask : Z) :
  0 ≤ numFrames → 0 ≤ numChannels → numChannels ÷ 2 ≤ 32 →
  2 * numFrames ≤ Z.of_nat (length pDest) →
  numFrames * numChannels ≤ Z.of_nat (length pSrc) →
  ∃ p, mixMultichannelToStereo_masked pDest pSrc numFrames numChannels excludeChannelMask
         = Some p ∧
    (∀ i c, 0 ≤ i < numFrames → 0 ≤ c < 2 →
       load p (2 * i + c) =
       Some (stem_mix pSrc numChannels i c (mixed_stems excludeChannelMask (numChannels ÷ 2)))) ∧
    (∀ k, ¬ (0 ≤ k < 2 * numFrames) → load p k = load pDest k).
Proof.
  intros HF HC Hstems Hd Hs. unfold mixMultichannelToStereo_masked, ChannelCount_stereo.
  assert (0 ≤ numChannels ÷ 2 ∧ 2 * (numChannels ÷ 2) ≤ numChannels) as [Hq0 Hq1].
  { Z.quot_rem_to_equations. lia. }
  destruct (clear_spec pDest (numFrames * 2)) as (p0 & Hp0 & Hl0 & Hin0 & Hout0); [lia|].
  rewrite Hp0. simpl.
  pose (I := λ (n : Z) (p : list CSAMPLE), length p = length pDest ∧
    (∀ i c, 0 ≤ i < numFrames → 0 ≤ c < 2 →
       load p (2 * i + c) =
       Some (stem_mix pSrc numChannels i c (mixed_stems excludeChannelMask n))) ∧
    (∀ k, ¬ (0 ≤ k < 2 * numFrames) → load p k = load pDest k)).
  edestruct (for_loop_inv I 0 (numChannels ÷ 2)) as (p & Hp & _ & Hin & Hout);
    [| | | exists p; split; [exact Hp|]; split; [exact Hin | exact Hout] ].
  - lia.
  - split; [done|]. split.
    + intros i c Hi Hc. rewrite Hin0 by lia. done.
    + intros k Hk. apply Hout0. lia.
  - intros n p Hn (Hl & Hin & Hout).
    unfold int_shr, I. rewrite decide_True by lia. simpl.
    rewrite mixed_stems_succ by lia.
    case_decide as Hbit.
    + apply stem_excluded in Hbit as ->; [|lia].
      exists p. split; [done|]. split; [done|]. split; [|done].
      intros i c Hi Hc. rewrite app_nil_r. by apply Hin.
    + assert (Z.testbit excludeChannelMask n = false) as ->.
      { destruct (Z.testbit excludeChannelMask n) eqn:E; [|done].
        apply stem_excluded in E; [done | lia]. }
      destruct (stem_loop p pSrc numFrames numChannels n) as (p' & Hp' & Hl' & Hout' & Hin');
        [lia | lia | lia | lia |].
      exists p'. split; [exact Hp'|]. split; [congruence|]. split.
      * intros i c Hi Hc. rewrite Hin', Hin by done. simpl.
        unfold stem_mix. by rewrite fold_left_app.
      * intros k Hk. rewrite Hout' by done. by apply Hout.
Qed.

Lemma mixMultichannelToStereo_masked_sums_witness :
  ∃ p, mixMultichannelToStereo_masked [F32.of_Z 9; F32.of_Z 9]
         [F32.of_Z 1; F32.of_Z 2; F32.of_Z 3; F32.of_Z 4] 1 4 1 = Some p ∧
    (∀ i c, 0 ≤ i < 1 → 0 ≤ c < 2 →
       load p (2 * i + c) =
       Some (stem_mix [F32.of_Z 1; F32.of_Z 2; F32.of_Z 3; F32.of_Z 4] 4 i c
               (mixed_stems 1 (4 ÷ 2)))) ∧
    (∀ k, ¬ (0 ≤ k < 2 * 1) → load p k = load [F32.of_Z 9; F32.of_Z 9] k).
Proof. apply mixMultichannelToStereo_masked_sums; try (simpl; lia); by vm_compute. Defined.

(** ** Conversion to fixed-point samples *)

Module Saturation.









End Saturation.


